(** * MusicApp: a shallow embedding of [MusicApp_main.py]

    The Python program keeps a playlist of [Song] objects in two lists and
    three search trees (a plain binary search tree, a red-black tree and an
    AVL tree) and offers a library of list searches and list sorts.

    Conventions of the embedding.
    - A Python call that can raise is a function into [res]: [Ret v] is a
      normal return, [Raise e] an exception.
    - A recursive Python function takes the interpreter's recursion limit as
      its first argument [depth]; when it is used up the call raises
      [RecursionError], as CPython does. A method that calls a recursive one
      ([add_song], [delete_song]) hands its [depth] on. [depth] counts the
      nested calls of the recursive function itself; a theorem that says a
      call returns asks for the frames of the calls made at the bottom
      (a comparison, a constructor, [merge]) on top of that.
    - A [while] loop takes a bound [fuel]; [Raise LoopBound] says that the
      bound of the model was reached (the theorems show where it is not).
    - Objects that are linked by references and updated in place (the nodes
      of the red-black tree and of the AVL tree, with their parent links and
      the shared sentinel) live in a store addressed by [addr]; a reference
      is an [option addr], [None] being Python's [None]. Reading the store at
      an address that holds no object is [Raise BadRef]; no Python program can
      do that, and the theorems show the model does not either.
    - Lists of songs are Rocq lists threaded through the code that updates
      them in place. *)

From Stdlib Require Import ZArith String Ascii List Lia Bool Sorted Permutation.
From stdpp Require Import base option gmap strings list.

Open Scope Z_scope.

(** ** Exceptions and results *)

Inductive exn :=
| TypeError
| AttributeError
| IndexError
| KeyError
| ValueError
| RecursionError
| PyException (msg : string)
| LoopBound
| BadRef.

Inductive res (A : Type) :=
| Ret (a : A)
| Raise (e : exn).
Arguments Ret {A} a.
Arguments Raise {A} e.

Definition bind {A B} (m : res A) (k : A -> res B) : res B :=
  match m with
  | Ret a => k a
  | Raise e => Raise e
  end.

Notation "'let!' x ':=' m 'in' k" := (bind m (fun x => k))
  (at level 10, x pattern, m at level 100, k at level 200).

(** ** class Song *)

(** The attribute names [set_key] accepts. *)
Inductive Key := Title | Artist | Album | Genre | Playtime.

Record Song := mkSong {
  title : string;
  artist : string;
  album : string;
  genre : string;
  playtime : Z;
  key : Key
}.

(** [Song(title, artist, album, genre, playtime=0, key="title")] *)
Definition Song_init (t a al g : string) (p : Z) : Song :=
  mkSong t a al g p Title.

(** A probe as the tree searches and deletions build it:
    [Song(title, "", "", "")]. *)
Definition probe (t : string) : Song := Song_init t "" "" "" 0.

(** The value [getattr(song, k)] reads: a [str] or an [int]. *)
Inductive value :=
| VStr (s : string)
| VInt (z : Z).

Definition getattr (s : Song) (k : Key) : value :=
  match k with
  | Title => VStr (title s)
  | Artist => VStr (artist s)
  | Album => VStr (album s)
  | Genre => VStr (genre s)
  | Playtime => VInt (playtime s)
  end.

(** [set_key]: the five names are the whole of [Key], so the [ValueError]
    branch is the string that names none of them. *)
Definition key_of_string (s : string) : option Key :=
  if String.eqb s "title" then Some Title
  else if String.eqb s "artist" then Some Artist
  else if String.eqb s "album" then Some Album
  else if String.eqb s "genre" then Some Genre
  else if String.eqb s "playtime" then Some Playtime
  else None.

Definition with_key (s : Song) (k : Key) : Song :=
  mkSong (title s) (artist s) (album s) (genre s) (playtime s) k.

Definition set_key (s : Song) (name : string) : res Song :=
  match key_of_string name with
  | Some k => Ret (with_key s k)
  | None => Raise ValueError
  end.

(** Python's comparisons of two attribute values. [str] against [str] is
    the lexicographic order on code points, [int] against [int] the order of
    the integers; an ordering comparison of a [str] with an [int] raises
    [TypeError], while [==] of the two is [False]. *)
Definition value_lt (a b : value) : res bool :=
  match a, b with
  | VStr x, VStr y => Ret (String.ltb x y)
  | VInt x, VInt y => Ret (x <? y)
  | _, _ => Raise TypeError
  end.

Definition value_le (a b : value) : res bool :=
  match a, b with
  | VStr x, VStr y => Ret (String.leb x y)
  | VInt x, VInt y => Ret (x <=? y)
  | _, _ => Raise TypeError
  end.

Definition value_gt (a b : value) : res bool := value_lt b a.
Definition value_ge (a b : value) : res bool := value_le b a.

Definition value_eq (a b : value) : bool :=
  match a, b with
  | VStr x, VStr y => String.eqb x y
  | VInt x, VInt y => x =? y
  | _, _ => false
  end.

(** [Song.__lt__], [__le__], [__gt__], [__ge__], [__eq__]: each side is read
    under its own key. *)
Definition song_lt (self other : Song) : res bool :=
  value_lt (getattr self (key self)) (getattr other (key other)).
Definition song_le (self other : Song) : res bool :=
  value_le (getattr self (key self)) (getattr other (key other)).
Definition song_gt (self other : Song) : res bool :=
  value_gt (getattr self (key self)) (getattr other (key other)).
Definition song_ge (self other : Song) : res bool :=
  value_ge (getattr self (key self)) (getattr other (key other)).
Definition song_eq (self other : Song) : bool :=
  value_eq (getattr self (key self)) (getattr other (key other)).

(** ** Python lists and loops *)

Definition len {A} (l : list A) : Z := Z.of_nat (length l).

(** [l[i]]: a negative index counts from the end; outside the list it
    raises [IndexError]. *)
Definition norm_index {A} (l : list A) (i : Z) : Z :=
  if i <? 0 then i + len l else i.

Definition getitem {A} (l : list A) (i : Z) : res A :=
  let j := norm_index l i in
  if (j <? 0) || (len l <=? j) then Raise IndexError
  else match l !! Z.to_nat j with
       | Some x => Ret x
       | None => Raise IndexError
       end.

(** [l[i] = x] *)
Definition setitem {A} (l : list A) (i : Z) (x : A) : res (list A) :=
  let j := norm_index l i in
  if (j <? 0) || (len l <=? j) then Raise IndexError
  else Ret (<[Z.to_nat j := x]> l).

(** [(l[i], l[j]) = (l[j], l[i])]: the right-hand side is read first. *)
Definition swap {A} (l : list A) (i j : Z) : res (list A) :=
  let! a := getitem l j in
  let! b := getitem l i in
  let! l1 := setitem l i a in
  setitem l1 j b.

(** [range(a, b)] *)
Definition range (a b : Z) : list Z :=
  map (fun k => a + Z.of_nat k) (seq 0 (Z.to_nat (b - a))).

(** [range(a, b, -1)] *)
Definition range_down (a b : Z) : list Z :=
  map (fun k => a - Z.of_nat k) (seq 0 (Z.to_nat (a - b))).

(** [for i in xs: s = body(i, s)] *)
Fixpoint for_each {I S} (xs : list I) (body : I -> S -> res S) (s : S) : res S :=
  match xs with
  | [] => Ret s
  | i :: xs' => let! s' := body i s in for_each xs' body s'
  end.

(** What one turn of a loop body decides. *)
Inductive flow (S R : Type) :=
| Next (s : S)
| Break (s : S)
| Return (r : R).
Arguments Next {S R} s.
Arguments Break {S R} s.
Arguments Return {S R} r.

(** [while cond(s): body(s)] with [break] and [return]; the result is the
    state the loop was left in, or the value returned from inside it. *)
Fixpoint while {S R} (fuel : nat) (cond : S -> res bool)
    (body : S -> res (flow S R)) (s : S) : res (S + R) :=
  match fuel with
  | O => Raise LoopBound
  | Datatypes.S fuel' =>
      let! c := cond s in
      if c then
        let! f := body s in
        match f with
        | Next s' => while fuel' cond body s'
        | Break s' => Ret (inl s')
        | Return r => Ret (inr r)
        end
      else Ret (inl s)
  end.

(** A [for] loop with [break]. *)
Fixpoint for_break {I S} (xs : list I) (body : I -> S -> res (flow S Empty_set))
    (s : S) : res S :=
  match xs with
  | [] => Ret s
  | i :: xs' =>
      let! f := body i s in
      match f with
      | Next s' => for_break xs' body s'
      | Break s' => Ret s'
      | Return r => match r with end
      end
  end.

(** [a and b] on results: [b] is evaluated only when [a] is true. *)
Definition and_then (a : bool) (b : res bool) : res bool :=
  if a then b else Ret false.

(** ** MusicApp: search algorithms on a list *)

(** [not high] for an optional integer argument: true for [None] and for 0. *)
Definition py_not (o : option Z) : bool :=
  match o with
  | None => true
  | Some z => z =? 0
  end.

Definition or_default (o : option Z) (d : Z) : Z :=
  match o with
  | Some z => if z =? 0 then d else z
  | None => d
  end.

Fixpoint linear_search_from (index : Z) (songs : list Song) (song_to_find : Song) : Z :=
  match songs with
  | [] => -1
  | song :: rest =>
      if song_eq song song_to_find then index
      else linear_search_from (index + 1) rest song_to_find
  end.

Definition linear_search (songs : list Song) (song_to_find : Song) : Z :=
  linear_search_from 0 songs song_to_find.

Fixpoint find_all_from (index : Z) (songs : list Song) (song_to_find : Song)
    (indices : list Z) : res (list Z) :=
  match songs with
  | [] => Ret indices
  | song :: rest =>
      if song_eq song song_to_find
      then find_all_from (index + 1) rest song_to_find (indices ++ [index])
      else
        let! g := song_gt song song_to_find in
        if g then Ret indices
        else find_all_from (index + 1) rest song_to_find indices
  end.

Definition linear_search_find_all_elements (songs : list Song) (song_to_find : Song)
    : res (list Z) :=
  find_all_from 0 songs song_to_find [].

(** [binary_search(songs, song_to_find, low=0, high=None)] *)
Fixpoint binary_search (depth : nat) (songs : list Song) (song_to_find : Song)
    (low : Z) (high : option Z) : res Z :=
  match depth with
  | O => Raise RecursionError
  | S depth' =>
      let high := or_default high (len songs - 1) in
      if low >? high then Ret (-1)
      else
        let mid := (low + high) / 2 in
        let! s := getitem songs mid in
        if song_eq s song_to_find then Ret mid
        else
          let! b := song_lt s song_to_find in
          if b then binary_search depth' songs song_to_find (mid + 1) (Some high)
          else binary_search depth' songs song_to_find low (Some (mid - 1))
  end.

(** [ternary_search(songs, song_to_find, l=0, r=None)] *)
Fixpoint ternary_search (depth : nat) (songs : list Song) (song_to_find : Song)
    (l : Z) (r : option Z) : res Z :=
  match depth with
  | O => Raise RecursionError
  | S depth' =>
      let r := or_default r (len songs - 1) in
      if r >=? l then
        let mid1 := l + (r - l) / 3 in
        let mid2 := r - (r - l) / 3 in
        let! s1 := getitem songs mid1 in
        if song_eq s1 song_to_find then Ret mid1
        else
          let! s2 := getitem songs mid2 in
          if song_eq s2 song_to_find then Ret mid2
          else
            let! s1' := getitem songs mid1 in
            let! b1 := song_lt song_to_find s1' in
            if b1 then ternary_search depth' songs song_to_find l (Some (mid1 - 1))
            else
              let! s2' := getitem songs mid2 in
              let! b2 := song_gt song_to_find s2' in
              if b2 then ternary_search depth' songs song_to_find (mid2 + 1) (Some r)
              else ternary_search depth' songs song_to_find (mid1 + 1) (Some (mid2 - 1))
      else Ret (-1)
  end.

(** [int(n ** 0.5)]: the integer square root. *)
Definition isqrt (n : Z) : Z := Z.sqrt n.

Definition jump_search (songs : list Song) (song_to_find : Song) : res Z :=
  let n := len songs in
  let step := isqrt n in
  let prev := 0 in
  let! r1 :=
    while (S (length songs))
      (fun '(prev, step) =>
         and_then (prev <? n)
           (let! s := getitem songs (Z.min step n - 1) in song_lt s song_to_find))
      (fun '(prev, step) =>
         let prev := step in
         let step := step + isqrt n in
         if prev >=? n then Ret (Return (-1)) else Ret (Next (prev, step)))
      (prev, step) in
  match r1 with
  | inr v => Ret v
  | inl (prev, step) =>
      let! r2 :=
        while (S (length songs))
          (fun prev =>
             and_then (prev <? Z.min step n)
               (let! s := getitem songs prev in song_lt s song_to_find))
          (fun prev => Ret (Next (R := Empty_set) (prev + 1)))
          prev in
      match r2 with
      | inr v => match v with end
      | inl prev =>
          let! found :=
            and_then (prev <? n)
              (let! s := getitem songs prev in Ret (song_eq s song_to_find)) in
          if found then Ret prev else Ret (-1)
      end
  end.

Definition exponential_search (depth : nat) (songs : list Song) (song_to_find : Song)
    : res Z :=
  let! s0 := getitem songs 0 in
  if song_eq s0 song_to_find then Ret 0
  else
    let! r :=
      while (S (length songs))
        (fun pos =>
           and_then (pos <? len songs)
             (let! s := getitem songs pos in song_le s song_to_find))
        (fun pos => Ret (Next (R := Empty_set) (pos * 2)))
        1 in
    match r with
    | inr v => match v with end
    | inl pos =>
        let low := Z.max 0 (pos / 2) in
        let high := Z.min pos (len songs - 1) in
        binary_search depth songs song_to_find low (Some high)
    end.

(** [fibonaccianSearch(songs, song_to_find, n=None)]; the loop state is
    [(fibMMm2, fibMMm1, fibM)] and, in the second loop, [offset] too. *)
Definition fibonaccianSearch (songs : list Song) (song_to_find : Song) (n : option Z)
    : res Z :=
  let n := or_default n (len songs) in
  let! r1 :=
    while (S (S (length songs)))
      (fun '(fibMMm2, fibMMm1, fibM) => Ret (fibM <? n))
      (fun '(fibMMm2, fibMMm1, fibM) =>
         let fibMMm2 := fibMMm1 in
         let fibMMm1 := fibM in
         let fibM := fibMMm2 + fibMMm1 in
         Ret (Next (R := Empty_set) (fibMMm2, fibMMm1, fibM)))
      (0, 1, 0 + 1) in
  match r1 with
  | inr v => match v with end
  | inl (fibMMm2, fibMMm1, fibM) =>
      let! r2 :=
        while (S (S (S (length songs))))
          (fun '(fibMMm2, fibMMm1, fibM, offset) => Ret (fibM >? 1))
          (fun '(fibMMm2, fibMMm1, fibM, offset) =>
             let i := Z.min (offset + fibMMm2) (n - 1) in
             let! s := getitem songs i in
             let! b := song_lt s song_to_find in
             if b then
               let fibM := fibMMm1 in
               let fibMMm1 := fibMMm2 in
               let fibMMm2 := fibM - fibMMm1 in
               Ret (Next (fibMMm2, fibMMm1, fibM, i))
             else
               let! s' := getitem songs i in
               let! g := song_gt s' song_to_find in
               if g then
                 let fibM := fibMMm2 in
                 let fibMMm1 := fibMMm1 - fibMMm2 in
                 let fibMMm2 := fibM - fibMMm1 in
                 Ret (Next (fibMMm2, fibMMm1, fibM, offset))
               else Ret (Return i))
          (fibMMm2, fibMMm1, fibM, -1) in
      match r2 with
      | inr i => Ret i
      | inl (fibMMm2, fibMMm1, fibM, offset) =>
          let! last :=
            and_then (negb (fibMMm1 =? 0))
              (let! s := getitem songs (n - 1) in Ret (song_eq s song_to_find)) in
          if last then Ret (n - 1) else Ret (-1)
      end
  end.

(** ** MusicApp: sort algorithms on a list

    A sort that works in place takes the list and gives back its final
    contents; what the Python function returns is an [option]: [None] is
    Python's [None], [Some l] the list object. *)

(** [merge(left, right)]: the two arguments of the recursion are the parts
    [left[i:]] and [right[j:]] not yet copied, [sorted_array] what has been
    appended so far. *)
Fixpoint merge_loop (fuel : nat) (left right sorted_array : list Song) : res (list Song) :=
  match fuel with
  | O => Raise LoopBound
  | S fuel' =>
      match left, right with
      | li :: left', rj :: right' =>
          let! b := song_lt li rj in
          if b then merge_loop fuel' left' right (sorted_array ++ [li])
          else merge_loop fuel' left right' (sorted_array ++ [rj])
      | _, _ => Ret (sorted_array ++ left ++ right)
      end
  end.

Definition merge (left right : list Song) : res (list Song) :=
  merge_loop (S (length left + length right)) left right [].

Fixpoint merge_sort (depth : nat) (songs : list Song) : res (list Song) :=
  match depth with
  | O => Raise RecursionError
  | S depth' =>
      if len songs <=? 1 then Ret songs
      else
        let mid := len songs / 2 in
        let! left_half := merge_sort depth' (take (Z.to_nat mid) songs) in
        let! right_half := merge_sort depth' (drop (Z.to_nat mid) songs) in
        merge left_half right_half
  end.

(** [partition(songs, low, high)]: the final list and the pivot's place. *)
Definition partition (songs : list Song) (low high : Z) : res (list Song * Z) :=
  let! pivot := getitem songs high in
  let i := low - 1 in
  let! (songs, i) :=
    for_each (range low high)
      (fun j '(songs, i) =>
         let! sj := getitem songs j in
         let! b := song_le sj pivot in
         if b then
           let i := i + 1 in
           let! songs := swap songs i j in
           Ret (songs, i)
         else Ret (songs, i))
      (songs, i) in
  let! songs := swap songs (i + 1) high in
  Ret (songs, i + 1).

(** [quick_sort(songs, low, high)] with [high] given; the list is sorted in
    place, so the recursive calls hand the list on. *)
Fixpoint quick_sort_rec (depth : nat) (songs : list Song) (low high : Z) : res (list Song) :=
  match depth with
  | O => Raise RecursionError
  | S depth' =>
      if low <? high then
        let! (songs, pi) := partition songs low high in
        let! songs := quick_sort_rec depth' songs low (pi - 1) in
        quick_sort_rec depth' songs (pi + 1) high
      else Ret songs
  end.

(** [quick_sort(songs)]: [low=0, high=None]. *)
Definition quick_sort (depth : nat) (songs : list Song) : res (list Song) :=
  quick_sort_rec depth songs 0 (len songs - 1).

(** [selection_sort(songs)]: [size=None]. *)
Definition selection_sort (songs : list Song) : res (list Song) :=
  let size := len songs in
  for_each (range 0 size)
    (fun ind songs =>
       let! min_index :=
         for_each (range (ind + 1) size)
           (fun j min_index =>
              let! sj := getitem songs j in
              let! sm := getitem songs min_index in
              let! b := song_lt sj sm in
              Ret (if b then j else min_index))
           ind in
       swap songs ind min_index)
    songs.

(** [insertion_sort(songs)]: the pair is the list after the call and the
    value the call returns. *)
Definition insertion_sort (songs : list Song) : res (list Song * option (list Song)) :=
  let n := len songs in
  if n <=? 1 then Ret (songs, None)
  else
    let! songs :=
      for_each (range 1 n)
        (fun i songs =>
           let! key := getitem songs i in
           let j := i - 1 in
           let! r :=
             while (S (Z.to_nat i))
               (fun '(songs, j) =>
                  and_then (j >=? 0) (let! sj := getitem songs j in song_lt key sj))
               (fun '(songs, j) =>
                  let! sj := getitem songs j in
                  let! songs := setitem songs (j + 1) sj in
                  Ret (Next (R := Empty_set) (songs, j - 1)))
               (songs, j) in
           match r with
           | inr v => match v with end
           | inl (songs, j) => setitem songs (j + 1) key
           end)
        songs in
    Ret (songs, Some songs).

Definition shell_sort (songs : list Song) : res (list Song) :=
  let n := len songs in
  let gap := n / 2 in
  let! r :=
    while (S (length songs))
      (fun '(songs, gap) => Ret (gap >? 0))
      (fun '(songs, gap) =>
         let! songs :=
           for_each (range gap n)
             (fun i songs =>
                let! temp := getitem songs i in
                let j := i in
                let! r :=
                  while (S (Z.to_nat i))
                    (fun '(songs, j) =>
                       and_then (j >=? gap)
                         (let! sj := getitem songs (j - gap) in song_gt sj temp))
                    (fun '(songs, j) =>
                       let! sj := getitem songs (j - gap) in
                       let! songs := setitem songs j sj in
                       Ret (Next (R := Empty_set) (songs, j - gap)))
                    (songs, j) in
                match r with
                | inr v => match v with end
                | inl (songs, j) => setitem songs j temp
                end)
             songs in
         Ret (Next (R := Empty_set) (songs, gap / 2)))
      (songs, gap) in
  match r with
  | inr v => match v with end
  | inl (songs, _) => Ret songs
  end.

(** One comparison of a bubble pass: [if songs[j] > songs[j+1]: swap]; the
    boolean says whether it swapped. *)
Definition bubble_step (j : Z) (songs : list Song) : res (list Song * bool) :=
  let! a := getitem songs j in
  let! b := getitem songs (j + 1) in
  let! g := song_gt a b in
  if g then let! songs := swap songs j (j + 1) in Ret (songs, true)
  else Ret (songs, false).

Definition bubble_sort (songs : list Song) : res (list Song) :=
  let n := len songs in
  for_each (range 0 (n - 1))
    (fun i songs =>
       for_each (range 0 (n - i - 1))
         (fun j songs => let! (songs, _) := bubble_step j songs in Ret songs)
         songs)
    songs.

Definition optimized_bubble_sort (songs : list Song) : res (list Song) :=
  let n := len songs in
  for_break (range 0 (n - 1))
    (fun i songs =>
       let! (songs, swapped) :=
         for_each (range 0 (n - i - 1))
           (fun j '(songs, swapped) =>
              let! (songs, sw) := bubble_step j songs in
              Ret (songs, sw || swapped))
           (songs, false) in
       if negb swapped then Ret (Break songs) else Ret (Next songs))
    songs.

(** [cocktail_sort]: the loop state is [(songs, swapped, start, end)]. *)
Definition cocktail_sort (songs : list Song) : res (list Song) :=
  let n := len songs in
  let! r :=
    while (S (length songs))
      (fun '(songs, swapped, start, end_) => Ret swapped)
      (fun '(songs, swapped, start, end_) =>
         let! (songs, swapped) :=
           for_each (range start end_)
             (fun i '(songs, swapped) =>
                let! (songs, sw) := bubble_step i songs in
                Ret (songs, sw || swapped))
             (songs, false) in
         if negb swapped then Ret (Break (songs, swapped, start, end_))
         else
           let end_ := end_ - 1 in
           let! (songs, swapped) :=
             for_each (range_down (end_ - 1) (start - 1))
               (fun i '(songs, swapped) =>
                  let! (songs, sw) := bubble_step i songs in
                  Ret (songs, sw || swapped))
               (songs, false) in
           Ret (Next (R := Empty_set) (songs, swapped, start + 1, end_)))
      (songs, true, 0, n - 1) in
  match r with
  | inr v => match v with end
  | inl (songs, _, _, _) => Ret songs
  end.

(** ** Objects in a store *)

Definition addr := nat.
Definition ref := option addr.

Definition ref_eqb (a b : ref) : bool :=
  match a, b with
  | Some x, Some y => Nat.eqb x y
  | None, None => true
  | _, _ => false
  end.

(** [a < b] where an operand may be [None]: [Song.__lt__] reads
    [other.key], which [None] does not have. *)
Definition osong_lt (a b : option Song) : res bool :=
  match a, b with
  | Some x, Some y => song_lt x y
  | _, _ => Raise AttributeError
  end.

Definition osong_eq (a b : option Song) : res bool :=
  match a, b with
  | Some x, Some y => Ret (song_eq x y)
  | _, _ => Raise AttributeError
  end.

(** The state monad of a class whose methods update [self]: a raised
    exception leaves the updates made so far in place. *)
Section StateMonad.
Context {St : Type}.

Definition M (A : Type) : Type := St -> res A * St.

Definition ret {A} (a : A) : M A := fun st => (Ret a, st).
Definition raise {A} (e : exn) : M A := fun st => (Raise e, st).
Definition lift {A} (r : res A) : M A := fun st => (r, st).
Definition bindM {A B} (m : M A) (k : A -> M B) : M B :=
  fun st =>
    match m st with
    | (Ret a, st') => k a st'
    | (Raise e, st') => (Raise e, st')
    end.

(** [while cond: body] on a loop variable of type [V]; the body says
    whether the loop goes on, and with which value. *)
Fixpoint whileM {V R} (fuel : nat) (cond : V -> M bool)
    (body : V -> M (flow V R)) (v : V) : M (V + R) :=
  match fuel with
  | O => raise LoopBound
  | S fuel' =>
      bindM (cond v) (fun c =>
        if c then
          bindM (body v) (fun f =>
            match f with
            | Next v' => whileM fuel' cond body v'
            | Break v' => ret (inl v')
            | Return r => ret (inr r)
            end)
        else ret (inl v))
  end.

End StateMonad.
Arguments M : clear implicits.

Notation "'let*' x ':=' m 'in' k" := (bindM m (fun x => k))
  (at level 10, x pattern, m at level 100, k at level 200).
Notation "m ';;' k" := (bindM m (fun _ => k))
  (at level 100, k at level 200, right associativity).

(** ** class BinarySearchTree

    A [TreeNode] is reached only through the [left] or [right] field of its
    parent (or through [root]): there is no parent link and no node is
    shared. The objects below the root therefore form an inductive tree,
    [Nil] standing for [None], and the in-place update
    [node.left = TreeNode(song)] is the rebuilding of the path to it. *)
Module BinarySearchTree.

Inductive TreeNode :=
| Nil
| Node (song : Song) (left right : TreeNode).

(** [BinarySearchTree()] *)
Definition init : TreeNode := Nil.

(** [_insert_recursive(node, song)]: the method calls itself once for
    every node on the way down, so [depth] is used up on a tree that is
    deep enough; a child that is [None] is replaced by the new node without
    a further call. [insert] and the method itself call it on a node, never
    on [None]. When a call raises, no field has been assigned yet: the tree
    is as before. *)
Fixpoint _insert_recursive (depth : nat) (node : TreeNode) (song : Song) : res TreeNode :=
  match depth with
  | O => Raise RecursionError
  | S depth' =>
      match node with
      | Nil => Raise AttributeError
      | Node s l r =>
          let! b := song_lt song s in
          if b then
            match l with
            | Nil => Ret (Node s (Node song Nil Nil) r)
            | Node _ _ _ =>
                let! l' := _insert_recursive depth' l song in Ret (Node s l' r)
            end
          else
            match r with
            | Nil => Ret (Node s l (Node song Nil Nil))
            | Node _ _ _ =>
                let! r' := _insert_recursive depth' r song in Ret (Node s l r')
            end
      end
  end.

(** [insert]: for an empty tree the root becomes the new node. *)
Definition insert (depth : nat) (root : TreeNode) (song : Song) : res TreeNode :=
  match root with
  | Nil => Ret (Node song Nil Nil)
  | Node _ _ _ => _insert_recursive depth root song
  end.

(** [_search_recursive(node, song)]: the node found, or [None]; one call
    for every node on the way down and one more for the [None] below a
    leaf. *)
Fixpoint _search_recursive (depth : nat) (node : TreeNode) (song : Song)
    : res (option TreeNode) :=
  match depth with
  | O => Raise RecursionError
  | S depth' =>
      match node with
      | Nil => Ret None
      | Node s l r =>
          if song_eq s song then Ret (Some node)
          else
            let! b := song_lt song s in
            if b then _search_recursive depth' l song
            else _search_recursive depth' r song
      end
  end.

Definition search (depth : nat) (root : TreeNode) (song : Song) : res (option TreeNode) :=
  _search_recursive depth root song.

Definition is_nil (n : TreeNode) : bool :=
  match n with Nil => true | Node _ _ _ => false end.

(** [node_depth_first_iter]: the generator, run to its end; [stack] is the
    deque, its head the left end. The nodes are given in the order they are
    yielded. *)
Fixpoint dfs_loop (fuel : nat) (stack : list TreeNode) : list TreeNode :=
  match fuel with
  | O => []
  | S fuel' =>
      match stack with
      | [] => []
      | node :: stack =>
          match node with
          | Nil => dfs_loop fuel' stack
          | Node s l r =>
              let stack := if is_nil r then stack else r :: stack in
              let stack := if is_nil l then stack else l :: stack in
              node :: dfs_loop fuel' stack
          end
      end
  end.

Fixpoint size (n : TreeNode) : nat :=
  match n with
  | Nil => 0
  | Node _ l r => S (size l + size r)
  end.

(** The number of nodes on the longest way down from [n]. *)
Fixpoint height (n : TreeNode) : nat :=
  match n with
  | Nil => 0
  | Node _ l r => S (Nat.max (height l) (height r))
  end.

Definition node_depth_first_iter (node : TreeNode) : list TreeNode :=
  dfs_loop (S (size node)) [node].

Definition node_song (n : TreeNode) : option Song :=
  match n with Nil => None | Node s _ _ => Some s end.

(** The songs [for node in bst] visits, in that order. *)
Definition iter_songs (root : TreeNode) : list Song :=
  omap node_song (node_depth_first_iter root).

(** The left-to-right reading of the tree. *)
Fixpoint inorder (n : TreeNode) : list Song :=
  match n with
  | Nil => []
  | Node s l r => inorder l ++ s :: inorder r
  end.

Fixpoint preorder (n : TreeNode) : list Song :=
  match n with
  | Nil => []
  | Node s l r => s :: preorder l ++ preorder r
  end.

End BinarySearchTree.

(** ** class RedBlackTree

    The nodes hold references to their children and to their parent, and
    every missing child is the one sentinel object [NIL], whose [parent]
    field the deletion writes and reads. The nodes are objects in a store. *)
Module RedBlackTree.

Inductive Color := RED | BLACK.

Definition color_eqb (a b : Color) : bool :=
  match a, b with
  | RED, RED | BLACK, BLACK => true
  | _, _ => false
  end.

(** [RedBlackNode]: [song] is [None] for the sentinel. *)
Record RedBlackNode := mkNode {
  song : option Song;
  color : Color;
  left : ref;
  right : ref;
  parent : ref
}.

Definition with_song (v : option Song) (n : RedBlackNode) : RedBlackNode :=
  mkNode v (color n) (left n) (right n) (parent n).
Definition with_color (v : Color) (n : RedBlackNode) : RedBlackNode :=
  mkNode (song n) v (left n) (right n) (parent n).
Definition with_left (v : ref) (n : RedBlackNode) : RedBlackNode :=
  mkNode (song n) (color n) v (right n) (parent n).
Definition with_right (v : ref) (n : RedBlackNode) : RedBlackNode :=
  mkNode (song n) (color n) (left n) v (parent n).
Definition with_parent (v : ref) (n : RedBlackNode) : RedBlackNode :=
  mkNode (song n) (color n) (left n) (right n) v.

(** The tree object and the store of its nodes; [next] is the address the
    next node is created at. *)
Record tree := mkTree {
  store : gmap addr RedBlackNode;
  next : addr;
  NIL : addr;
  root : ref
}.

Definition set_store (m : gmap addr RedBlackNode) (t : tree) : tree :=
  mkTree m (next t) (NIL t) (root t).

(** [RedBlackNode(song)] *)
Definition new_node (s : option Song) : M tree ref :=
  fun t =>
    (Ret (Some (next t)),
     mkTree (<[next t := mkNode s RED None None None]> (store t))
            (S (next t)) (NIL t) (root t)).

(** [r.f] *)
Definition get {A} (f : RedBlackNode -> A) (r : ref) : M tree A :=
  fun t =>
    match r with
    | None => (Raise AttributeError, t)
    | Some a =>
        match store t !! a with
        | Some n => (Ret (f n), t)
        | None => (Raise BadRef, t)
        end
    end.

(** [r.f = v], as [set (with_f v) r] *)
Definition set (upd : RedBlackNode -> RedBlackNode) (r : ref) : M tree unit :=
  fun t =>
    match r with
    | None => (Raise AttributeError, t)
    | Some a =>
        match store t !! a with
        | Some n => (Ret tt, set_store (<[a := upd n]> (store t)) t)
        | None => (Raise BadRef, t)
        end
    end.

Definition get_NIL : M tree ref := fun t => (Ret (Some (NIL t)), t).
Definition get_root : M tree ref := fun t => (Ret (root t), t).
Definition set_root (r : ref) : M tree unit :=
  fun t => (Ret tt, mkTree (store t) (next t) (NIL t) r).
Definition get_next : M tree nat := fun t => (Ret (next t), t).

(** [RedBlackTree()] *)
Definition init : tree :=
  mkTree {[ 0%nat := mkNode None BLACK None None None ]} 1%nat 0%nat (Some 0%nat).

Definition left_rotate (x : ref) : M tree unit :=
  let* y := get right x in
  let* yl := get left y in
  set (with_right yl) x ;;
  let* sentinel := get_NIL in
  let* yl := get left y in
  (if negb (ref_eqb yl sentinel) then set (with_parent x) yl else ret tt) ;;
  let* xp := get parent x in
  set (with_parent xp) y ;;
  let* xp := get parent x in
  (match xp with
   | None => set_root y
   | Some _ =>
       let* xpl := get left xp in
       if ref_eqb x xpl then set (with_left y) xp
       else set (with_right y) xp
   end) ;;
  set (with_left x) y ;;
  set (with_parent y) x.

Definition right_rotate (x : ref) : M tree unit :=
  let* y := get left x in
  let* yr := get right y in
  set (with_left yr) x ;;
  let* sentinel := get_NIL in
  let* yr := get right y in
  (if negb (ref_eqb yr sentinel) then set (with_parent x) yr else ret tt) ;;
  let* xp := get parent x in
  set (with_parent xp) y ;;
  let* xp := get parent x in
  (match xp with
   | None => set_root y
   | Some _ =>
       let* xpr := get right xp in
       if ref_eqb x xpr then set (with_right y) xp
       else set (with_left y) xp
   end) ;;
  set (with_right x) y ;;
  set (with_parent y) x.

(** The guard of the loop of [fix_insert]:
    [node != self.root and node.parent.color == "RED"]. *)
Definition fix_insert_cond (node : ref) : M tree bool :=
  let* r := get_root in
  if negb (ref_eqb node r) then
    let* p := get parent node in
    let* c := get color p in
    ret (color_eqb c RED)
  else ret false.

Definition fix_insert_body (node : ref) : M tree (flow ref Empty_set) :=
  let* p := get parent node in
  let* g := get parent p in
  let* gl := get left g in
  if ref_eqb p gl then
    let* uncle := get right g in
    let* uc := get color uncle in
    if color_eqb uc RED then
      set (with_color BLACK) p ;;
      set (with_color BLACK) uncle ;;
      let* p := get parent node in
      let* g := get parent p in
      set (with_color RED) g ;;
      ret (Next g)
    else
      let* pr := get right p in
      let* node :=
        if ref_eqb node pr then
          let node := p in
          left_rotate node ;; ret node
        else ret node in
      let* p := get parent node in
      set (with_color BLACK) p ;;
      let* g := get parent p in
      set (with_color RED) g ;;
      let* p := get parent node in
      let* g := get parent p in
      right_rotate g ;;
      ret (Next node)
  else
    let* uncle := get left g in
    let* uc := get color uncle in
    if color_eqb uc RED then
      set (with_color BLACK) p ;;
      set (with_color BLACK) uncle ;;
      let* p := get parent node in
      let* g := get parent p in
      set (with_color RED) g ;;
      ret (Next g)
    else
      let* pl := get left p in
      let* node :=
        if ref_eqb node pl then
          let node := p in
          right_rotate node ;; ret node
        else ret node in
      let* p := get parent node in
      set (with_color BLACK) p ;;
      let* g := get parent p in
      set (with_color RED) g ;;
      let* p := get parent node in
      let* g := get parent p in
      left_rotate g ;;
      ret (Next node).

(** [fix_insert]; a path from a node to the root is shorter than the
    number of objects created, which bounds the loop. *)
Definition fix_insert (node : ref) : M tree unit :=
  let* fuel := get_next in
  let* _ := whileM fuel fix_insert_cond fix_insert_body node in
  let* r := get_root in
  set (with_color BLACK) r.

(** The descent of [insert]: the loop variable is [(parent, current)]. *)
Definition insert_cond (v : ref * ref) : M tree bool :=
  let* sentinel := get_NIL in
  ret (negb (ref_eqb (snd v) sentinel)).

Definition insert_body (new_node : ref) (v : ref * ref)
    : M tree (flow (ref * ref) Empty_set) :=
  let current := snd v in
  let parent := current in
  let* ns := get song new_node in
  let* cs := get song current in
  let* b := lift (osong_lt ns cs) in
  if b then
    let* current := get left current in ret (Next (parent, current))
  else
    let* current := get right current in ret (Next (parent, current)).

Definition insert (s : Song) : M tree unit :=
  let* new_node := new_node (Some s) in
  let* sentinel := get_NIL in
  set (with_left sentinel) new_node ;;
  set (with_right sentinel) new_node ;;
  let* r := get_root in
  let* fuel := get_next in
  let* v := whileM fuel insert_cond (insert_body new_node) (None, r) in
  match v with
  | inr e => match e with end
  | inl (parent, _) =>
      set (with_parent parent) new_node ;;
      (match parent with
       | None => set_root new_node
       | Some _ =>
           let* ns := get song new_node in
           let* ps := get song parent in
           let* b := lift (osong_lt ns ps) in
           if b then set (with_left new_node) parent
           else set (with_right new_node) parent
       end) ;;
      set (with_color RED) new_node ;;
      fix_insert new_node
  end.

(** [_search_recursive(node, song)]: the node found, or [None]. The depth of
    the recursion is bounded by the number of objects. *)
Fixpoint _search_recursive (fuel : nat) (node : ref) (s : Song) : M tree ref :=
  match fuel with
  | O => raise LoopBound
  | S fuel' =>
      let* sentinel := get_NIL in
      let* hit :=
        if ref_eqb node sentinel then ret true
        else let* ns := get song node in lift (osong_eq ns (Some s)) in
      if hit then
        if ref_eqb node sentinel then ret None else ret node
      else
        let* ns := get song node in
        let* b := lift (osong_lt (Some s) ns) in
        if b then
          let* l := get left node in _search_recursive fuel' l s
        else
          let* r := get right node in _search_recursive fuel' r s
  end.

Definition search (s : Song) : M tree ref :=
  let* fuel := get_next in
  let* r := get_root in
  _search_recursive fuel r s.

Definition transplant (u v : ref) : M tree unit :=
  let* up := get parent u in
  (match up with
   | None => set_root v
   | Some _ =>
       let* upl := get left up in
       if ref_eqb u upl then set (with_left v) up
       else set (with_right v) up
   end) ;;
  let* up := get parent u in
  set (with_parent up) v.

Definition minimum (node : ref) : M tree ref :=
  let* fuel := get_next in
  let* v :=
    whileM (R := Empty_set) fuel
      (fun node =>
         let* l := get left node in
         let* sentinel := get_NIL in
         ret (negb (ref_eqb l sentinel)))
      (fun node => let* l := get left node in ret (Next l))
      node in
  match v with
  | inl node => ret node
  | inr e => match e with end
  end.

Definition fix_delete_cond (x : ref) : M tree bool :=
  let* r := get_root in
  if negb (ref_eqb x r) then
    let* c := get color x in ret (color_eqb c BLACK)
  else ret false.

Definition fix_delete_body (x : ref) : M tree (flow ref Empty_set) :=
  let* xp := get parent x in
  let* xpl := get left xp in
  if ref_eqb x xpl then
    let* sibling := get right xp in
    let* sc := get color sibling in
    let* sibling :=
      if color_eqb sc RED then
        set (with_color BLACK) sibling ;;
        let* xp := get parent x in
        set (with_color RED) xp ;;
        left_rotate xp ;;
        let* xp := get parent x in
        get right xp
      else ret sibling in
    let* sl := get left sibling in
    let* slc := get color sl in
    let* both :=
      if color_eqb slc BLACK then
        let* sr := get right sibling in
        let* src := get color sr in
        ret (color_eqb src BLACK)
      else ret false in
    if both then
      set (with_color RED) sibling ;;
      let* xp := get parent x in
      ret (Next xp)
    else
      let* sr := get right sibling in
      let* src := get color sr in
      let* sibling :=
        if color_eqb src BLACK then
          let* sl := get left sibling in
          set (with_color BLACK) sl ;;
          set (with_color RED) sibling ;;
          right_rotate sibling ;;
          let* xp := get parent x in
          get right xp
        else ret sibling in
      let* xp := get parent x in
      let* xpc := get color xp in
      set (with_color xpc) sibling ;;
      set (with_color BLACK) xp ;;
      let* sr := get right sibling in
      set (with_color BLACK) sr ;;
      let* xp := get parent x in
      left_rotate xp ;;
      let* r := get_root in
      ret (Next r)
  else
    let* sibling := get left xp in
    let* sc := get color sibling in
    let* sibling :=
      if color_eqb sc RED then
        set (with_color BLACK) sibling ;;
        let* xp := get parent x in
        set (with_color RED) xp ;;
        right_rotate xp ;;
        let* xp := get parent x in
        get left xp
      else ret sibling in
    let* sr := get right sibling in
    let* src := get color sr in
    let* both :=
      if color_eqb src BLACK then
        let* sl := get left sibling in
        let* slc := get color sl in
        ret (color_eqb slc BLACK)
      else ret false in
    if both then
      set (with_color RED) sibling ;;
      let* xp := get parent x in
      ret (Next xp)
    else
      let* sl := get left sibling in
      let* slc := get color sl in
      let* sibling :=
        if color_eqb slc BLACK then
          let* sr := get right sibling in
          set (with_color BLACK) sr ;;
          set (with_color RED) sibling ;;
          left_rotate sibling ;;
          let* xp := get parent x in
          get left xp
        else ret sibling in
      let* xp := get parent x in
      let* xpc := get color xp in
      set (with_color xpc) sibling ;;
      set (with_color BLACK) xp ;;
      let* sl := get left sibling in
      set (with_color BLACK) sl ;;
      let* xp := get parent x in
      right_rotate xp ;;
      let* r := get_root in
      ret (Next r).

Definition fix_delete (x : ref) : M tree unit :=
  let* fuel := get_next in
  let* v := whileM fuel fix_delete_cond fix_delete_body x in
  match v with
  | inl x => set (with_color BLACK) x
  | inr e => match e with end
  end.

(** What [delete] tells its caller: it returns [None] either way, and
    prints a message when the song is not in the tree. *)
Inductive signal :=
| Deleted
| NotFound (message : string).

Definition delete (s : Song) : M tree signal :=
  let* node_to_delete := search s in
  match node_to_delete with
  | None =>
      ret (NotFound ("Song " ++ title s ++ " not found in the tree."))
  | Some _ =>
      let y := node_to_delete in
      let* y_original_color := get color y in
      let* sentinel := get_NIL in
      let* zl := get left node_to_delete in
      let* (x, y_original_color) :=
        if ref_eqb zl sentinel then
          let* x := get right node_to_delete in
          let* zr := get right node_to_delete in
          transplant node_to_delete zr ;;
          ret (x, y_original_color)
        else
          let* zr := get right node_to_delete in
          if ref_eqb zr sentinel then
            let* x := get left node_to_delete in
            let* zl := get left node_to_delete in
            transplant node_to_delete zl ;;
            ret (x, y_original_color)
          else
            let* zr := get right node_to_delete in
            let* y := minimum zr in
            let* y_original_color := get color y in
            let* x := get right y in
            let* yp := get parent y in
            (if ref_eqb yp node_to_delete then
               set (with_parent y) x
             else
               let* yr := get right y in
               transplant y yr ;;
               let* zr := get right node_to_delete in
               set (with_right zr) y ;;
               let* yr := get right y in
               set (with_parent y) yr) ;;
            transplant node_to_delete y ;;
            let* zl := get left node_to_delete in
            set (with_left zl) y ;;
            let* yl := get left y in
            set (with_parent y) yl ;;
            let* zc := get color node_to_delete in
            set (with_color zc) y ;;
            ret (x, y_original_color) in
      (if color_eqb y_original_color BLACK then fix_delete x else ret tt) ;;
      ret Deleted
  end.

End RedBlackTree.

(** ** class AVLTree

    [AVLNode] objects hold their parent, their children and their cached
    height; they live in a store like the red-black nodes. *)
Module AVLTree.

Record AVLNode := mkNode {
  song : Song;
  parent : ref;
  left : ref;
  right : ref;
  height : Z
}.

Definition with_song (v : Song) (n : AVLNode) : AVLNode :=
  mkNode v (parent n) (left n) (right n) (height n).
Definition with_parent (v : ref) (n : AVLNode) : AVLNode :=
  mkNode (song n) v (left n) (right n) (height n).
Definition with_left (v : ref) (n : AVLNode) : AVLNode :=
  mkNode (song n) (parent n) v (right n) (height n).
Definition with_right (v : ref) (n : AVLNode) : AVLNode :=
  mkNode (song n) (parent n) (left n) v (height n).
Definition with_height (v : Z) (n : AVLNode) : AVLNode :=
  mkNode (song n) (parent n) (left n) (right n) v.

Record tree := mkTree {
  store : gmap addr AVLNode;
  next : addr;
  root : ref;
  size : Z
}.

(** [AVLTree()] *)
Definition init : tree := mkTree ∅ 0%nat None 0.

(** [AVLNode(song, parent)] *)
Definition new_node (s : Song) (p : ref) : M tree ref :=
  fun t =>
    (Ret (Some (next t)),
     mkTree (<[next t := mkNode s p None None 1]> (store t))
            (S (next t)) (root t) (size t)).

Definition get {A} (f : AVLNode -> A) (r : ref) : M tree A :=
  fun t =>
    match r with
    | None => (Raise AttributeError, t)
    | Some a =>
        match store t !! a with
        | Some n => (Ret (f n), t)
        | None => (Raise BadRef, t)
        end
    end.

Definition set (upd : AVLNode -> AVLNode) (r : ref) : M tree unit :=
  fun t =>
    match r with
    | None => (Raise AttributeError, t)
    | Some a =>
        match store t !! a with
        | Some n =>
            (Ret tt, mkTree (<[a := upd n]> (store t)) (next t) (root t) (size t))
        | None => (Raise BadRef, t)
        end
    end.

Definition get_root : M tree ref := fun t => (Ret (root t), t).
Definition set_root (r : ref) : M tree unit :=
  fun t => (Ret tt, mkTree (store t) (next t) r (size t)).
Definition get_next : M tree nat := fun t => (Ret (next t), t).
Definition incr_size : M tree unit :=
  fun t => (Ret tt, mkTree (store t) (next t) (root t) (size t + 1)).

(** *** class AVLNode *)

Definition left_height (self : ref) : M tree Z :=
  let* l := get left self in
  match l with
  | None => ret 0
  | Some _ => get height l
  end.

Definition right_height (self : ref) : M tree Z :=
  let* r := get right self in
  match r with
  | None => ret 0
  | Some _ => get height r
  end.

Definition balance_factor (self : ref) : M tree Z :=
  let* lh := left_height self in
  let* rh := right_height self in
  ret (lh - rh).

Definition update_height (self : ref) : M tree unit :=
  let* lh := left_height self in
  let* rh := right_height self in
  set (with_height (1 + Z.max lh rh)) self.

Definition set_left (self node : ref) : M tree unit :=
  set (with_left node) self ;;
  (match node with
   | None => ret tt
   | Some _ => set (with_parent self) node
   end) ;;
  update_height self.

Definition set_right (self node : ref) : M tree unit :=
  set (with_right node) self ;;
  (match node with
   | None => ret tt
   | Some _ => set (with_parent self) node
   end) ;;
  update_height self.

Definition is_left_child (self : ref) : M tree bool :=
  let* p := get parent self in
  match p with
  | None => ret false
  | Some _ => let* pl := get left p in ret (ref_eqb pl self)
  end.

Definition is_right_child (self : ref) : M tree bool :=
  let* p := get parent self in
  match p with
  | None => ret false
  | Some _ => let* pr := get right p in ret (ref_eqb pr self)
  end.

(** *** class AVLTree *)

Definition rotate_left (a : ref) : M tree ref :=
  let* b := get right a in
  let* bl := get left b in
  set_right a bl ;;
  set_left b a ;;
  ret b.

Definition rotate_right (a : ref) : M tree ref :=
  let* b := get left a in
  let* br := get right b in
  set_left a br ;;
  set_right b a ;;
  ret b.

Definition rebalance (node : ref) : M tree ref :=
  match node with
  | None => ret None
  | Some _ =>
      let* balance := balance_factor node in
      if Z.abs balance <=? 1 then ret node
      else if balance =? 2 then
        let* l := get left node in
        let* lb := balance_factor l in
        (if lb =? -1 then
           let* l := get left node in
           let* l' := rotate_left l in
           set_left node l'
         else ret tt) ;;
        rotate_right node
      else
        let* r := get right node in
        let* rb := balance_factor r in
        (if rb =? 1 then
           let* r := get right node in
           let* r' := rotate_right r in
           set_right node r'
         else ret tt) ;;
        rotate_left node
  end.

Definition restore_balance (node : ref) : M tree unit :=
  let* fuel := get_next in
  whileM (R := Empty_set) (S fuel)
    (fun current => ret (negb (ref_eqb current None)))
    (fun current =>
       let* l := get left current in
       let* l' := rebalance l in
       set_left current l' ;;
       let* r := get right current in
       let* r' := rebalance r in
       set_right current r' ;;
       update_height current ;;
       let* p := get parent current in
       ret (Next p))
    node ;;
  let* r := get_root in
  let* r' := rebalance r in
  set_root r' ;;
  let* r := get_root in
  set (with_parent None) r.

Definition insert (value : Song) : M tree unit :=
  incr_size ;;
  let* r := get_root in
  let* fuel := get_next in
  let* v :=
    whileM (R := Empty_set) (S fuel)
      (fun '(parent, current) => ret (negb (ref_eqb current None)))
      (fun '(parent, current) =>
         let parent := current in
         let* cs := get song current in
         let* b := lift (song_lt value cs) in
         if b then
           let* current := get left current in ret (Next (parent, current))
         else
           let* current := get right current in ret (Next (parent, current)))
      (None, r) in
  match v with
  | inr e => match e with end
  | inl (parent, _) =>
      let* new_node := new_node value parent in
      (match parent with
       | None => set_root new_node
       | Some _ =>
           let* ps := get song parent in
           let* b := lift (song_lt value ps) in
           if b then set (with_left new_node) parent
           else set (with_right new_node) parent
       end) ;;
      restore_balance new_node
  end.

(** [leftmost] and [rightmost]: the loop variable is [(previous, current)]. *)
Definition leftmost (starting_node : ref) : M tree ref :=
  let* fuel := get_next in
  let* v :=
    whileM (R := Empty_set) (S fuel)
      (fun '(previous, current) => ret (negb (ref_eqb current None)))
      (fun '(previous, current) =>
         let* l := get left current in ret (Next (current, l)))
      (None, starting_node) in
  match v with
  | inl (previous, _) => ret previous
  | inr e => match e with end
  end.

Definition rightmost (starting_node : ref) : M tree ref :=
  let* fuel := get_next in
  let* v :=
    whileM (R := Empty_set) (S fuel)
      (fun '(previous, current) => ret (negb (ref_eqb current None)))
      (fun '(previous, current) =>
         let* r := get right current in ret (Next (current, r)))
      (None, starting_node) in
  match v with
  | inl (previous, _) => ret previous
  | inr e => match e with end
  end.

(** [search]: the node that holds the song, or [None]. *)
Definition search (s : Song) : M tree ref :=
  let* r := get_root in
  let* fuel := get_next in
  let* v :=
    whileM (S fuel)
      (fun current => ret (negb (ref_eqb current None)))
      (fun current =>
         let* cs := get song current in
         if song_eq s cs then ret (Return current)
         else
           let* b := lift (song_lt s cs) in
           if b then let* l := get left current in ret (Next l)
           else let* r := get right current in ret (Next r))
      r in
  match v with
  | inr found => ret found
  | inl _ => ret None
  end.

Definition delete_leaf (node : ref) : M tree unit :=
  let* p := get parent node in
  match p with
  | None => set_root None
  | Some _ =>
      let* il := is_left_child node in
      if il then
        set (with_left None) p ;; set (with_parent None) node
      else
        set (with_right None) p ;; set (with_parent None) node
  end.

(** [replacement.value]: an [AVLNode] has the attributes [song], [parent],
    [left], [right] and [height], and no attribute [value]. *)
Definition get_value (r : ref) : M tree Song := raise AttributeError.

Definition not_stored : string := "Value  not  stored  in  tree".

Definition delete (value : Song) : M tree unit :=
  let* node := search value in
  match node with
  | None => raise (PyException not_stored)
  | Some _ =>
      let* rebalance_node := get parent node in
      let* nl := get left node in
      let* replacement :=
        match nl with
        | Some _ =>
            let* replacement := rightmost nl in
            let* il := is_left_child replacement in
            let* rp := get parent replacement in
            let* rl := get left replacement in
            (if il then set_left rp rl else set_right rp rl) ;;
            ret replacement
        | None =>
            let* nr := get right node in
            match nr with
            | Some _ =>
                let* replacement := leftmost nr in
                let* il := is_left_child replacement in
                let* rp := get parent replacement in
                let* rr := get right replacement in
                (if il then set_left rp rr else set_right rp rr) ;;
                ret replacement
            | None => ret None
            end
        end in
      let* rebalance_node :=
        match replacement with
        | Some _ =>
            let* v := get_value replacement in
            set (with_song v) node ;;
            get parent replacement
        | None =>
            delete_leaf node ;; ret rebalance_node
        end in
      match rebalance_node with
      | Some _ => restore_balance rebalance_node
      | None => ret tt
      end
  end.

End AVLTree.

(** ** class Playlist and class MusicApp *)
Module MusicApp.

Record Playlist := mkPlaylist {
  name : string;
  total_time : Z;
  songs_not_sorted : list Song;
  songs : list Song;
  bst : BinarySearchTree.TreeNode;
  rbt : RedBlackTree.tree;
  avl : AVLTree.tree
}.

(** [Playlist(name)] *)
Definition Playlist_init (n : string) : Playlist :=
  mkPlaylist n 0 [] [] BinarySearchTree.init RedBlackTree.init AVLTree.init.

Definition with_total_time (v : Z) (p : Playlist) : Playlist :=
  mkPlaylist (name p) v (songs_not_sorted p) (songs p) (bst p) (rbt p) (avl p).
Definition with_songs_not_sorted (v : list Song) (p : Playlist) : Playlist :=
  mkPlaylist (name p) (total_time p) v (songs p) (bst p) (rbt p) (avl p).
Definition with_songs (v : list Song) (p : Playlist) : Playlist :=
  mkPlaylist (name p) (total_time p) (songs_not_sorted p) v (bst p) (rbt p) (avl p).
Definition with_bst (v : BinarySearchTree.TreeNode) (p : Playlist) : Playlist :=
  mkPlaylist (name p) (total_time p) (songs_not_sorted p) (songs p) v (rbt p) (avl p).
Definition with_rbt (v : RedBlackTree.tree) (p : Playlist) : Playlist :=
  mkPlaylist (name p) (total_time p) (songs_not_sorted p) (songs p) (bst p) v (avl p).
Definition with_avl (v : AVLTree.tree) (p : Playlist) : Playlist :=
  mkPlaylist (name p) (total_time p) (songs_not_sorted p) (songs p) (bst p) (rbt p) v.

(** The application: [self.playlists], a dict of playlists by name. *)
Definition app := gmap string Playlist.

(** Run a method of one playlist on the application's state; the name that
    is no key of the dict raises [KeyError]. *)
Definition on_playlist {A} (playlist_name : string) (m : M Playlist A) : M app A :=
  fun st =>
    match st !! playlist_name with
    | None => (Raise KeyError, st)
    | Some p => let '(r, p') := m p in (r, <[playlist_name := p']> st)
    end.

Definition modify (f : Playlist -> Playlist) : M Playlist unit :=
  fun p => (Ret tt, f p).
Definition read {A} (f : Playlist -> A) : M Playlist A :=
  fun p => (Ret (f p), p).

(** Run a method of the red-black tree, or of the AVL tree, of a playlist. *)
Definition on_rbt {A} (m : M RedBlackTree.tree A) : M Playlist A :=
  fun p => let '(r, t) := m (rbt p) in (r, with_rbt t p).
Definition on_avl {A} (m : M AVLTree.tree A) : M Playlist A :=
  fun p => let '(r, t) := m (avl p) in (r, with_avl t p).
Definition bst_insert (depth : nat) (s : Song) : M Playlist unit :=
  fun p =>
    match BinarySearchTree.insert depth (bst p) s with
    | Ret t => (Ret tt, with_bst t p)
    | Raise e => (Raise e, p)
    end.

(** [list.sort()]: a stable sort by [<]. The songs are taken from left to
    right and each is put behind the songs already placed that are not
    above it, so equal songs keep their order. *)
Fixpoint sort_insert (x : Song) (l : list Song) : res (list Song) :=
  match l with
  | [] => Ret [x]
  | y :: l' =>
      let! b := song_lt x y in
      if b then Ret (x :: l)
      else let! r := sort_insert x l' in Ret (y :: r)
  end.

Fixpoint sort_from (sorted l : list Song) : res (list Song) :=
  match l with
  | [] => Ret sorted
  | x :: l' => let! sorted' := sort_insert x sorted in sort_from sorted' l'
  end.

Definition list_sort (l : list Song) : res (list Song) :=
  sort_from [] l.

Definition add_song (depth : nat) (playlist_name title artist album genre : string)
    (song_time : Z) : M app unit :=
  let song := Song_init title artist album genre song_time in
  on_playlist playlist_name (
    let* l := read songs_not_sorted in
    modify (with_songs_not_sorted (l ++ [song])) ;;
    let* l := read songs in
    modify (with_songs (l ++ [song])) ;;
    let* l := read songs in
    let* sorted := lift (list_sort l) in
    modify (with_songs sorted) ;;
    bst_insert depth song ;;
    on_rbt (RedBlackTree.insert song) ;;
    on_avl (AVLTree.insert song) ;;
    let* t := read total_time in
    modify (with_total_time (t + song_time))).

(** What the subscript of [l[i]] can be in this program: an integer, or
    an object that is no integer. [Song] defines no [__index__], so a song
    as subscript raises [TypeError]. *)
Inductive subscript :=
| SubInt (i : Z)
| SubSong (s : Song).

Definition getitem_sub (l : list Song) (i : subscript) : res Song :=
  match i with
  | SubInt z => getitem l z
  | SubSong _ => Raise TypeError
  end.

(** [total_time - song_time] for an [int] and a [Song]: [int] cannot
    subtract a [Song] and [Song] defines no [__rsub__]. *)
Definition int_sub_song (a : Z) (b : Song) : res Z := Raise TypeError.

(** [l.remove(x)]: the first element equal to [x] goes; [ValueError] when
    there is none. *)
Fixpoint list_remove (l : list Song) (x : Song) : res (list Song) :=
  match l with
  | [] => Raise ValueError
  | y :: l' =>
      if song_eq y x then Ret l'
      else let! r := list_remove l' x in Ret (y :: r)
  end.

(** [for s in playlist: playlist.bst.insert(s)] *)
Fixpoint bst_insert_all (depth : nat) (l : list Song) : M Playlist unit :=
  match l with
  | [] => ret tt
  | s :: l' => bst_insert depth s ;; bst_insert_all depth l'
  end.

(** What [delete_song] prints. *)
Inductive message :=
| Removed (s : Song)
| NotInLibrary (title : string).

Definition delete_song (depth : nat) (playlist_name title_ : string) : M app message :=
  on_playlist playlist_name (
    let* l := read songs in
    match List.find (fun s => String.eqb (title s) title_) l with
    | Some song_to_delete =>
        let* l := read songs in
        let* song_time := lift (getitem_sub l (SubSong song_to_delete)) in
        let* t := read total_time in
        let* t' := lift (int_sub_song t song_time) in
        modify (with_total_time t') ;;
        let* l := read songs_not_sorted in
        let* l' := lift (list_remove l song_to_delete) in
        modify (with_songs_not_sorted l') ;;
        let* l := read songs in
        let* l' := lift (list_remove l song_to_delete) in
        modify (with_songs l') ;;
        modify (with_bst BinarySearchTree.init) ;;
        let* l := read songs in
        bst_insert_all depth l ;;
        on_avl (AVLTree.delete (probe title_)) ;;
        on_rbt (let* _ := RedBlackTree.delete (probe title_) in ret tt) ;;
        ret (Removed song_to_delete)
    | None => ret (NotInLibrary title_)
    end).

(** [np.random.permutation]: a Fisher-Yates shuffle; [draws] are the
    numbers the random generator gives, one for each position from the last
    down to the second. *)
Fixpoint fisher_yates (i : nat) (draws : list nat) (l : list Song) : list Song :=
  match i with
  | O => l
  | S i' =>
      let j := (List.hd 0%nat draws mod (S i))%nat in
      let l' :=
        match l !! i, l !! j with
        | Some a, Some b => <[j := a]> (<[i := b]> l)
        | _, _ => l
        end in
      fisher_yates i' (List.tl draws) l'
  end.

Definition permutation (draws : list nat) (l : list Song) : list Song :=
  fisher_yates (length l - 1) draws l.

Definition shuffle_playlist (draws : list nat) (playlist_name : string) : M app unit :=
  on_playlist playlist_name (
    let* l := read songs_not_sorted in
    let shuffled_songs := permutation draws l in
    modify (with_songs_not_sorted shuffled_songs)).

End MusicApp.

(** ** MusicApp: the dict of playlists *)
Module Playlists.
Import MusicApp.

(** What [delete_playlist] prints. *)
Inductive notice :=
| PlaylistDeleted (playlist_name : string)
| DoesNotExist (playlist_name : string).

(** [delete_playlist]: [self.playlists.pop(playlist_name)] when the name is
    a key of the dict. *)
Definition delete_playlist (playlist_name : string) : M app notice :=
  fun st =>
    match st !! playlist_name with
    | Some _ => (Ret (PlaylistDeleted playlist_name), delete playlist_name st)
    | None => (Ret (DoesNotExist playlist_name), st)
    end.

(** [add_playlist]: [self.playlists[name] = Playlist(name)]. *)
Definition add_playlist (name : string) : M app unit :=
  fun st => (Ret tt, <[name := Playlist_init name]> st).

(** [Playlist.__len__] and [Playlist.__iter__] *)
Definition Playlist_len (p : Playlist) : Z := len (songs p).
Definition Playlist_iter (p : Playlist) : list Song := songs p.

End Playlists.

(** ** class AVLTree: [minimum], [maximum] and [__contains__] *)
Module AVLQueries.
Import AVLTree.

Definition empty_tree : string := "Empty  tree".

(** [minimum]: [self.leftmost(self.root).value]. *)
Definition minimum : M tree Song :=
  let* r := get_root in
  match r with
  | None => raise (PyException empty_tree)
  | Some _ =>
      let* n := leftmost r in
      get_value n
  end.

(** [maximum]: [self.rightmost(self.root).value]. *)
Definition maximum : M tree Song :=
  let* r := get_root in
  match r with
  | None => raise (PyException empty_tree)
  | Some _ =>
      let* n := rightmost r in
      get_value n
  end.

(** [value in tree] *)
Definition contains (value : Song) : M tree bool :=
  let* node := search value in
  ret (negb (ref_eqb node None)).

End AVLQueries.

(** ** MusicApp: [bfs] and [dfs] in the binary search tree *)
Module TreeWalks.
Import BinarySearchTree.

(** The loop of [bfs]: [queue.pop(0)] takes the head, [append] adds at the
    end; a child that is [None] is not put in the queue. *)
Fixpoint bfs_loop (fuel : nat) (queue : list TreeNode) (song : Song)
    : res (option TreeNode) :=
  match fuel with
  | O => Raise LoopBound
  | S fuel' =>
      match queue with
      | [] => Ret None
      | cur_node :: queue =>
          match cur_node with
          | Nil => Raise AttributeError
          | Node s l r =>
              if song_eq s song then Ret (Some cur_node)
              else
                let queue := if is_nil l then queue else queue ++ [l] in
                let queue := if is_nil r then queue else queue ++ [r] in
                bfs_loop fuel' queue song
          end
      end
  end.

(** [bfs(title, root)] *)
Definition bfs (title : string) (root : TreeNode) : res (option TreeNode) :=
  let song := probe title in
  if is_nil root then Ret None
  else bfs_loop (S (size root)) [root] song.

(** The loop of [dfs] over the nodes the iterator of the tree yields. *)
Fixpoint dfs_scan (nodes : list TreeNode) (title : string) : option TreeNode :=
  match nodes with
  | [] => None
  | node :: rest =>
      match node with
      | Nil => dfs_scan rest title
      | Node s _ _ =>
          if song_eq s (probe title) then Some node else dfs_scan rest title
      end
  end.

(** [dfs(title, tree)] *)
Definition dfs (title : string) (tree : TreeNode) : option TreeNode :=
  dfs_scan (node_depth_first_iter tree) title.

End TreeWalks.

(** ** The red-black tree as a tree of nodes

    The objects a [RedBlackTree] reaches from its root, read as an
    inductive tree: a node carries the address of its object, its color and
    its song; [Leaf] is a child field that holds the sentinel. A path from a
    node up to the root is a list of frames, nearest parent first. *)
Module RedBlackModel.
Import RedBlackTree.

Inductive rbtree :=
| Leaf
| Tr (c : Color) (a : addr) (s : Song) (l r : rbtree).

(** Which child of its parent a subtree is. *)
Inductive side := L | R.

Record frame := Fr {
  fside : side;
  fcolor : Color;
  faddr : addr;
  fsong : Song;
  fsib : rbtree
}.

Definition plug1 (f : frame) (t : rbtree) : rbtree :=
  match fside f with
  | L => Tr (fcolor f) (faddr f) (fsong f) t (fsib f)
  | R => Tr (fcolor f) (faddr f) (fsong f) (fsib f) t
  end.

Fixpoint plug (ctx : list frame) (t : rbtree) : rbtree :=
  match ctx with
  | [] => t
  | f :: ctx' => plug ctx' (plug1 f t)
  end.

Definition tcolor (t : rbtree) : Color :=
  match t with
  | Leaf => BLACK
  | Tr c _ _ _ _ => c
  end.

Definition blacken (t : rbtree) : rbtree :=
  match t with
  | Leaf => Leaf
  | Tr _ a s l r => Tr BLACK a s l r
  end.

Definition recolor (c : Color) (t : rbtree) : rbtree :=
  match t with
  | Leaf => Leaf
  | Tr _ a s l r => Tr c a s l r
  end.

Fixpoint inorder (t : rbtree) : list Song :=
  match t with
  | Leaf => []
  | Tr _ _ s l r => inorder l ++ s :: inorder r
  end.

Fixpoint addrs (t : rbtree) : list addr :=
  match t with
  | Leaf => []
  | Tr _ a _ l r => a :: addrs l ++ addrs r
  end.

Fixpoint ctx_addrs (ctx : list frame) : list addr :=
  match ctx with
  | [] => []
  | f :: ctx' => faddr f :: addrs (fsib f) ++ ctx_addrs ctx'
  end.

(** *** The red-black conditions, as checks that compute *)

(** The number of black nodes on every path from the root of [t] to a
    leaf, when all paths agree. *)
Fixpoint black_height (t : rbtree) : option nat :=
  match t with
  | Leaf => Some 0%nat
  | Tr c _ _ l r =>
      match black_height l, black_height r with
      | Some x, Some y =>
          if Nat.eqb x y
          then Some (match c with BLACK => S x | RED => x end)
          else None
      | _, _ => None
      end
  end.

(** No red node has a red child. *)
Fixpoint no_red_red (t : rbtree) : bool :=
  match t with
  | Leaf => true
  | Tr c _ _ l r =>
      match c with
      | RED => color_eqb (tcolor l) BLACK && color_eqb (tcolor r) BLACK
      | BLACK => true
      end && no_red_red l && no_red_red r
  end.

Definition is_red_black (t : rbtree) : bool :=
  color_eqb (tcolor t) BLACK && no_red_red t
  && match black_height t with Some _ => true | None => false end.

(** *** [insert] on the tree of nodes *)

(** The descent of [insert]: the path to the leaf the new node replaces. *)
Fixpoint descend (s : Song) (t : rbtree) (ctx : list frame) : res (list frame) :=
  match t with
  | Leaf => Ret ctx
  | Tr c a s' l r =>
      let! b := song_lt s s' in
      if b then descend s l (Fr L c a s' r :: ctx)
      else descend s r (Fr R c a s' l :: ctx)
  end.

(** The loop of [fix_insert] at the subtree [t] of the red [node], below
    the path [ctx]: the whole tree when the loop is left. [None] stands for
    the [AttributeError] of a red parent that has no parent. *)
Fixpoint ins_fix (ctx : list frame) (t : rbtree) : option rbtree :=
  match ctx with
  | [] => Some t
  | Fr dp cp p sp sibp :: ctx1 =>
      match cp with
      | BLACK => Some (plug ctx t)
      | RED =>
          match ctx1 with
          | [] => None
          | Fr dg cg g sg uncle :: ctx2 =>
              match uncle with
              | Tr RED u su ul ur =>
                  ins_fix ctx2
                    (plug1 (Fr dg RED g sg (Tr BLACK u su ul ur))
                       (plug1 (Fr dp BLACK p sp sibp) t))
              | _ =>
                  match dg, dp, t with
                  | L, L, _ =>
                      Some (plug ctx2 (Tr BLACK p sp t (Tr RED g sg sibp uncle)))
                  | L, R, Tr cn n sn nl nr =>
                      Some (plug ctx2
                              (Tr BLACK n sn (Tr cp p sp sibp nl) (Tr RED g sg nr uncle)))
                  | R, R, _ =>
                      Some (plug ctx2 (Tr BLACK p sp (Tr RED g sg uncle sibp) t))
                  | R, L, Tr cn n sn nl nr =>
                      Some (plug ctx2
                              (Tr BLACK n sn (Tr RED g sg uncle nl) (Tr cp p sp nr sibp)))
                  | _, _, Leaf => None
                  end
              end
          end
      end
  end.

(** [insert]: the new node gets the address [a]. *)
Definition insert (a : addr) (s : Song) (t : rbtree) : res (option rbtree) :=
  let! ctx := descend s t [] in
  Ret (blacken <$> ins_fix ctx (Tr RED a s Leaf Leaf)).

(** *** [search] on the tree of nodes *)

(** [search]: the path to the node found and the subtree at it. *)
Fixpoint find (s : Song) (t : rbtree) (ctx : list frame)
    : res (option (list frame * rbtree)) :=
  match t with
  | Leaf => Ret None
  | Tr c a s' l r =>
      if song_eq s' s then Ret (Some (ctx, t))
      else
        let! b := song_lt s s' in
        if b then find s l (Fr L c a s' r :: ctx)
        else find s r (Fr R c a s' l :: ctx)
  end.

End RedBlackModel.

(** ** The store represents a tree of nodes *)
Module RedBlackRep.
Import RedBlackTree RedBlackModel.

(** The address a child field holds for the subtree [t]. *)
Definition root_ref (nil : addr) (t : rbtree) : addr :=
  match t with
  | Leaf => nil
  | Tr _ a _ _ _ => a
  end.

(** Every node of [t] is in the store [m] at its address, with its song and
    color, its child fields holding its subtrees and its parent field its
    parent; the root of [t] has parent [par]. *)
Fixpoint rep (m : gmap addr RedBlackNode) (nil : addr) (par : ref) (t : rbtree) : Prop :=
  match t with
  | Leaf => True
  | Tr c a s l r =>
      m !! a = Some (mkNode (Some s) c (Some (root_ref nil l)) (Some (root_ref nil r)) par)
      /\ rep m nil (Some a) l /\ rep m nil (Some a) r
  end.

Definition ctx_par (ctx : list frame) : ref :=
  match ctx with
  | [] => None
  | f :: _ => Some (faddr f)
  end.

Definition frame_node (nil : addr) (f : frame) (child : addr) (par : ref) : RedBlackNode :=
  match fside f with
  | L => mkNode (Some (fsong f)) (fcolor f) (Some child)
           (Some (root_ref nil (fsib f))) par
  | R => mkNode (Some (fsong f)) (fcolor f) (Some (root_ref nil (fsib f)))
           (Some child) par
  end.

(** The nodes of the path [ctx] are in the store, the lowest of them with
    [child] in the field the path comes up through. *)
Fixpoint rep_ctx (m : gmap addr RedBlackNode) (nil : addr) (ctx : list frame)
    (child : addr) : Prop :=
  match ctx with
  | [] => True
  | f :: ctx' =>
      m !! faddr f = Some (frame_node nil f child (ctx_par ctx'))
      /\ rep m nil (Some (faddr f)) (fsib f)
      /\ rep_ctx m nil ctx' (faddr f)
  end.

(** The state [st] of a [RedBlackTree] holds the tree [t]; [pnil] is what
    the [parent] field of the sentinel holds. *)
Record Inv (st : tree) (t : rbtree) (pnil : ref) : Prop := mkInv {
  inv_rep : rep (store st) (NIL st) None t;
  inv_root : root st = Some (root_ref (NIL st) t);
  inv_nodup : NoDup (NIL st :: addrs t);
  inv_nil : store st !! NIL st = Some (mkNode None BLACK None None pnil);
  inv_next : forall a, is_Some (store st !! a) -> (a < next st)%nat
}.

(** *** Distinct addresses

    The addresses of a tree and of a path are listed without repetition;
    a list written with [::] and [++] is read as a list of items, single
    addresses and whole segments, that are pairwise apart. *)
Definition item := (addr + list addr)%type.

Fixpoint flat (L : list item) : list addr :=
  match L with
  | [] => []
  | inl k :: L' => k :: flat L'
  | inr l :: L' => match L' with [] => l | _ => l ++ flat L' end
  end.

Fixpoint apart_from (k : addr) (L : list item) : Prop :=
  match L with
  | [] => True
  | inl k' :: L' => k <> k' /\ apart_from k L'
  | inr l :: L' => k ∉ l /\ apart_from k L'
  end.

Fixpoint outside (l : list addr) (L : list item) : Prop :=
  match L with
  | [] => True
  | inl k :: L' => k ∉ l /\ outside l L'
  | inr _ :: L' => outside l L'
  end.

Fixpoint apart (L : list item) : Prop :=
  match L with
  | [] => True
  | inl k :: L' => apart_from k L' /\ apart L'
  | inr l :: L' => outside l L' /\ apart L'
  end.

(** The other side, and the test that sends the descent to a side. *)
Definition opp (d : side) : side := match d with L => R | R => L end.

Definition goes_left (d : side) : bool := match d with L => true | R => false end.

(** [insert] song after song; a song whose comparison raises is skipped, as
    a caller that catches the exception would go on. *)
Definition insert_all (songs : list Song) (st : tree) : tree :=
  fold_left (fun st s => snd (RedBlackTree.insert s st)) songs st.

End RedBlackRep.

(** * Properties *)

(** ** The order of the keys *)

Lemma ascii_compare_refl (a : ascii) : Ascii.compare a a = Eq.
Proof. unfold Ascii.compare. apply N.compare_refl. Qed.

Lemma ascii_compare_trans (a b c : ascii) :
  Ascii.compare a b = Lt -> Ascii.compare b c = Lt -> Ascii.compare a c = Lt.
Proof.
  unfold Ascii.compare. rewrite !N.compare_lt_iff. lia.
Qed.

Lemma string_compare_refl (s : string) : String.compare s s = Eq.
Proof.
  induction s as [|a s IH]; simpl; [reflexivity|].
  rewrite ascii_compare_refl. exact IH.
Qed.

Lemma string_compare_trans (a b c : string) :
  String.compare a b = Lt -> String.compare b c = Lt -> String.compare a c = Lt.
Proof.
  revert b c. induction a as [|x a IH]; intros [|y b] [|z c]; simpl; try congruence.
  destruct (Ascii.compare x y) eqn:Hxy; try discriminate.
  - apply Ascii.compare_eq_iff in Hxy. subst y.
    destruct (Ascii.compare x z); try congruence. intros. eapply IH; eassumption.
  - intros _. destruct (Ascii.compare y z) eqn:Hyz; try discriminate; intros _.
    + apply Ascii.compare_eq_iff in Hyz. subst z. rewrite Hxy. reflexivity.
    + rewrite (ascii_compare_trans _ _ _ Hxy Hyz). reflexivity.
Qed.

(** The three-way comparison of the attribute [k] of two songs. *)
Definition key_cmp (k : Key) (a b : Song) : comparison :=
  match k with
  | Title => String.compare (title a) (title b)
  | Artist => String.compare (artist a) (artist b)
  | Album => String.compare (album a) (album b)
  | Genre => String.compare (genre a) (genre b)
  | Playtime => Z.compare (playtime a) (playtime b)
  end.

Definition key_ltb (k : Key) (a b : Song) : bool :=
  match key_cmp k a b with Lt => true | _ => false end.

Lemma key_cmp_refl k a : key_cmp k a a = Eq.
Proof. destruct k; simpl; auto using string_compare_refl, Z.compare_refl. Qed.

Lemma key_cmp_antisym k a b : key_cmp k a b = CompOpp (key_cmp k b a).
Proof. destruct k; simpl; auto using String.compare_antisym, Z.compare_antisym. Qed.

Lemma key_cmp_eq k a b : key_cmp k a b = Eq -> getattr a k = getattr b k.
Proof.
  destruct k; simpl; intros H;
    first [ apply String.compare_eq_iff in H | apply Z.compare_eq in H ];
    congruence.
Qed.

Lemma key_cmp_eq_l k a b c : key_cmp k a b = Eq -> key_cmp k a c = key_cmp k b c.
Proof.
  destruct k; simpl; intros H;
    first [ apply String.compare_eq_iff in H | apply Z.compare_eq in H ];
    congruence.
Qed.

Lemma key_cmp_eq_r k a b c : key_cmp k a b = Eq -> key_cmp k c a = key_cmp k c b.
Proof.
  destruct k; simpl; intros H;
    first [ apply String.compare_eq_iff in H | apply Z.compare_eq in H ];
    congruence.
Qed.

Lemma key_cmp_trans k a b c :
  key_cmp k a b = Lt -> key_cmp k b c = Lt -> key_cmp k a c = Lt.
Proof.
  destruct k; simpl; try apply string_compare_trans.
  rewrite !Z.compare_lt_iff. lia.
Qed.

Lemma key_ltb_irrefl k a : key_ltb k a a = false.
Proof. unfold key_ltb. rewrite key_cmp_refl. reflexivity. Qed.

Lemma key_ltb_asym k a b : key_ltb k a b = true -> key_ltb k b a = false.
Proof.
  unfold key_ltb. rewrite (key_cmp_antisym k b a).
  destruct (key_cmp k a b); simpl; congruence.
Qed.

Lemma key_ltb_trans k a b c :
  key_ltb k a b = true -> key_ltb k b c = true -> key_ltb k a c = true.
Proof.
  unfold key_ltb.
  destruct (key_cmp k a b) eqn:H1; try discriminate.
  destruct (key_cmp k b c) eqn:H2; try discriminate.
  rewrite (key_cmp_trans _ _ _ _ H1 H2). reflexivity.
Qed.

(** [a <= b] and [b <= c] give [a <= c], with [x <= y] read as "not [y < x]". *)
Lemma key_ltb_neg_trans k a b c :
  key_ltb k b a = false -> key_ltb k c b = false -> key_ltb k c a = false.
Proof.
  unfold key_ltb. intros H1 H2.
  destruct (key_cmp k c a) eqn:Hca; try reflexivity. exfalso.
  destruct (key_cmp k b a) eqn:Hba; try discriminate.
  - rewrite <- (key_cmp_eq_r k b a c Hba) in Hca. rewrite Hca in H2. discriminate.
  - destruct (key_cmp k c b) eqn:Hcb; try discriminate.
    + rewrite (key_cmp_eq_l k c b a Hcb) in Hca. congruence.
    + rewrite (key_cmp_antisym k c b) in Hcb. rewrite (key_cmp_antisym k b a) in Hba.
      destruct (key_cmp k b c) eqn:Hbc; try discriminate.
      destruct (key_cmp k a b) eqn:Hab; try discriminate.
      pose proof (key_cmp_trans _ _ _ _ Hca Hab) as Hcb'.
      rewrite (key_cmp_antisym k c b), Hbc in Hcb'. discriminate.
Qed.

(** Songs that are compared under one key [k]: the comparisons never raise
    and are those of [key_cmp]. *)
Lemma song_lt_key k a b : key a = k -> key b = k -> song_lt a b = Ret (key_ltb k a b).
Proof. intros <- Hb. unfold song_lt, key_ltb. rewrite Hb. destruct (key a); reflexivity. Qed.

Lemma song_gt_key k a b : key a = k -> key b = k -> song_gt a b = Ret (key_ltb k b a).
Proof. intros Ha Hb. unfold song_gt, value_gt. apply (song_lt_key k b a Hb Ha). Qed.

Lemma song_le_key k a b :
  key a = k -> key b = k -> song_le a b = Ret (negb (key_ltb k b a)).
Proof.
  intros <- Hb. unfold song_le, key_ltb. rewrite (key_cmp_antisym (key a) b a), Hb.
  destruct (key a); simpl; unfold String.leb, Z.leb;
    match goal with |- context [CompOpp ?c] => destruct c end; reflexivity.
Qed.

Lemma song_ge_key k a b :
  key a = k -> key b = k -> song_ge a b = Ret (negb (key_ltb k a b)).
Proof. intros Ha Hb. unfold song_ge, value_ge. apply (song_le_key k b a Hb Ha). Qed.

Lemma song_eq_key k a b :
  key a = k -> key b = k ->
  song_eq a b = match key_cmp k a b with Eq => true | _ => false end.
Proof.
  intros <- Hb. unfold song_eq. rewrite Hb.
  destruct (key a); simpl.
  1-4: match goal with |- String.eqb ?x ?y = _ =>
         destruct (String.eqb_spec x y) as [->|Hne];
         [ rewrite string_compare_refl; reflexivity
         | destruct (String.compare x y) eqn:Hc; try reflexivity;
           apply String.compare_eq_iff in Hc; contradiction ]
       end.
  destruct (Z.eqb_spec (playtime a) (playtime b)) as [->|Hne].
  - rewrite Z.compare_refl. reflexivity.
  - destruct (playtime a ?= playtime b) eqn:Hc; try reflexivity.
    apply Z.compare_eq in Hc. contradiction.
Qed.

(** ** Song comparisons (C10) *)

Lemma value_eq_same (v : value) : value_eq v v = true.
Proof. destruct v; simpl; [apply String.eqb_refl|apply Z.eqb_refl]. Qed.

Lemma value_lt_same (v : value) : value_lt v v = Ret false.
Proof.
  destruct v; simpl; f_equal.
  - unfold String.ltb. rewrite string_compare_refl. reflexivity.
  - apply Z.ltb_irrefl.
Qed.

Lemma value_le_same (v : value) : value_le v v = Ret true.
Proof.
  destruct v; simpl; f_equal.
  - unfold String.leb. rewrite string_compare_refl. reflexivity.
  - apply Z.leb_refl.
Qed.

(** Under the default key two songs of one title are equal, and neither is
    below the other, whatever artist, album, genre and playtime they have;
    so the probe [Song(title, "", "", "")] equals every song of that title. *)
Lemma same_title_equal (a b : Song) :
  key a = Title -> key b = Title -> title a = title b ->
  song_eq a b = true /\ song_lt a b = Ret false /\ song_le a b = Ret true /\
  song_gt a b = Ret false /\ song_ge a b = Ret true.
Proof.
  intros Ha Hb Ht.
  assert (Hc : key_cmp Title a b = Eq) by (simpl; rewrite Ht; apply string_compare_refl).
  assert (Hc' : key_cmp Title b a = Eq) by (simpl; rewrite Ht; apply string_compare_refl).
  rewrite (song_eq_key Title), (song_lt_key Title), (song_le_key Title),
    (song_gt_key Title), (song_ge_key Title) by assumption.
  unfold key_ltb. rewrite Hc, Hc'. repeat split; reflexivity.
Qed.

Lemma probe_matches_title (s : Song) :
  key s = Title -> song_eq (probe (title s)) s = true /\ song_eq s (probe (title s)) = true.
Proof.
  intros Hs. split.
  - apply (same_title_equal (probe (title s)) s); auto.
  - apply (same_title_equal s (probe (title s))); auto.
Qed.

(** C10. The five comparison operators of [Song] read, on each side, only
    the attribute that side's [key] names. Operands that agree on those
    attributes with [a] and with [b] compare as [a] and [b] do, whatever
    their other fields. When the two attributes read are equal, [==], [<=]
    and [>=] hold and [<] and [>] do not. Under the default key, "title",
    the operators are the comparisons of the two titles, so songs of one
    title compare equal whatever artist, album, genre and playtime they
    have; and the probe [Song(title, "", "", "")] of a song's title equals
    that song, on either side, is not below it, and is what [search] finds
    at the node of that song. *)
Theorem song_compare_only_key (a a' b b' : Song)
    (Ha : getattr a (key a) = getattr a' (key a'))
    (Hb : getattr b (key b) = getattr b' (key b')) :
  (song_lt a b = song_lt a' b' /\ song_le a b = song_le a' b' /\
   song_gt a b = song_gt a' b' /\ song_ge a b = song_ge a' b' /\
   song_eq a b = song_eq a' b') /\
  (getattr a (key a) = getattr b (key b) ->
   song_eq a b = true /\ song_lt a b = Ret false /\ song_le a b = Ret true /\
   song_gt a b = Ret false /\ song_ge a b = Ret true) /\
  (key a = Title -> key b = Title ->
   song_lt a b = Ret (String.ltb (title a) (title b)) /\
   song_le a b = Ret (String.leb (title a) (title b)) /\
   song_gt a b = Ret (String.ltb (title b) (title a)) /\
   song_ge a b = Ret (String.leb (title b) (title a)) /\
   song_eq a b = String.eqb (title a) (title b) /\
   (title a = title b -> song_eq a b = true)) /\
  (key b = Title ->
   song_eq (probe (title b)) b = true /\ song_eq b (probe (title b)) = true /\
   song_lt (probe (title b)) b = Ret false /\ song_lt b (probe (title b)) = Ret false /\
   forall depth l r,
     BinarySearchTree.search (S depth) (BinarySearchTree.Node b l r) (probe (title b))
     = Ret (Some (BinarySearchTree.Node b l r))).
Proof.
  split; [|split; [|split]].
  - unfold song_lt, song_le, song_gt, song_ge, song_eq, value_gt, value_ge.
    rewrite Ha, Hb. repeat split; reflexivity.
  - intros E. unfold song_lt, song_le, song_gt, song_ge, song_eq, value_gt, value_ge.
    rewrite E, value_eq_same, value_lt_same, value_le_same. repeat split; reflexivity.
  - intros Ka Kb. unfold song_lt, song_le, song_gt, song_ge, song_eq, value_gt, value_ge.
    rewrite Ka, Kb. cbn [getattr value_lt value_le value_eq].
    repeat split; try reflexivity.
    intros ->. apply String.eqb_refl.
  - intros Kb.
    destruct (same_title_equal (probe (title b)) b eq_refl Kb eq_refl) as (E1 & L1 & _).
    destruct (same_title_equal b (probe (title b)) Kb eq_refl eq_refl) as (E2 & L2 & _).
    repeat split; try assumption.
    intros depth l r. unfold BinarySearchTree.search.
    cbn [BinarySearchTree._search_recursive]. rewrite E2. reflexivity.
Qed.

(** The witness of C10: a full entity, the probe of its title, and another
    full entity of that title that differs in every other field. *)
Lemma song_compare_only_key_witness :
  let a := mkSong "Hello" "Adele" "25" "Pop" 295 Title in
  let b := mkSong "Hello" "Lionel Richie" "Can't Slow Down" "Soul" 250 Title in
  (song_lt a b = song_lt (probe "Hello") b /\ song_le a b = song_le (probe "Hello") b /\
   song_gt a b = song_gt (probe "Hello") b /\ song_ge a b = song_ge (probe "Hello") b /\
   song_eq a b = song_eq (probe "Hello") b) /\
  (song_eq a b = true /\ song_lt a b = Ret false /\ song_le a b = Ret true /\
   song_gt a b = Ret false /\ song_ge a b = Ret true) /\
  (song_eq (probe "Hello") b = true /\ song_eq b (probe "Hello") = true /\
   song_lt (probe "Hello") b = Ret false /\ song_lt b (probe "Hello") = Ret false /\
   forall depth l r,
     BinarySearchTree.search (S depth) (BinarySearchTree.Node b l r) (probe "Hello")
     = Ret (Some (BinarySearchTree.Node b l r))).
Proof.
  intros a b.
  destruct (song_compare_only_key a (probe "Hello") b b eq_refl eq_refl)
    as (H1 & H2 & _ & H4).
  split; [exact H1|]. split; [exact (H2 eq_refl)|exact (H4 eq_refl)].
Defined.

(** ** The list searches on concrete lists (C5, C7) *)

Definition songA : Song := Song_init "A" "a1" "al1" "g1" 200.
Definition songB : Song := Song_init "B" "a2" "al2" "g2" 180.
Definition songC : Song := Song_init "C" "a3" "al3" "g3" 90.
Definition songD : Song := Song_init "D" "a4" "al4" "g4" 60.

(** Once [binary_search] is called with [high = 0] on a list of three, the
    test [not high] resets [high] to 2 and the call repeats itself. *)
Lemma binary_search_high_0_loops (depth : nat) :
  binary_search depth [songA; songB; songC] songA 0 (Some 0) = Raise RecursionError.
Proof.
  induction depth as [|d IH]; [reflexivity|].
  cbn [binary_search]. exact IH.
Qed.

Lemma ternary_search_r_0_loops (depth : nat) :
  ternary_search depth [songA; songB; songC; songD] songA 0 (Some 0) = Raise RecursionError.
Proof.
  induction depth as [|d IH]; [reflexivity|].
  cbn [ternary_search]. exact IH.
Qed.

(** C5. On the sorted list [A, B, C] the target [A], which is present at
    index 0, makes [binary_search] recurse until the recursion limit,
    whatever the limit; [ternary_search] does the same on [A, B, C, D]; an
    absent target on the empty list makes [exponential_search] and
    [fibonaccianSearch] raise [IndexError]. *)
Theorem sorted_search_failures (depth : nat) :
  binary_search depth [songA; songB; songC] songA 0 None = Raise RecursionError /\
  ternary_search depth [songA; songB; songC; songD] songA 0 None = Raise RecursionError /\
  exponential_search depth [] songA = Raise IndexError /\
  fibonaccianSearch [] songA None = Raise IndexError.
Proof.
  repeat split; try reflexivity.
  - destruct depth as [|d]; [reflexivity|].
    cbn [binary_search]. apply binary_search_high_0_loops.
  - destruct depth as [|d]; [reflexivity|].
    cbn [ternary_search]. apply ternary_search_r_0_loops.
Qed.

(** ** The sorts on short lists (C6, C7) *)

(** What a sort returns, for the seven that return their list. *)
Definition returned (r : res (list Song)) : res (option (list Song)) :=
  let! l := r in Ret (Some l).

(** What [insertion_sort] returns. *)
Definition insertion_sort_returned (songs : list Song) : res (option (list Song)) :=
  let! p := insertion_sort songs in Ret (snd p).

(** C6. On a list of one song seven of the eight sorts return the list;
    [insertion_sort] returns [None], so the eight do not give one output. *)
Theorem sorts_disagree_on_singleton (s : Song) (depth : nat) :
  returned (merge_sort (S depth) [s]) = Ret (Some [s]) /\
  returned (quick_sort (S depth) [s]) = Ret (Some [s]) /\
  returned (selection_sort [s]) = Ret (Some [s]) /\
  returned (shell_sort [s]) = Ret (Some [s]) /\
  returned (bubble_sort [s]) = Ret (Some [s]) /\
  returned (optimized_bubble_sort [s]) = Ret (Some [s]) /\
  returned (cocktail_sort [s]) = Ret (Some [s]) /\
  insertion_sort_returned [s] = Ret None.
Proof. repeat split; reflexivity. Qed.

(** C7. On the empty list [exponential_search] and [fibonaccianSearch]
    raise [IndexError], and on the empty and on the one-song list
    [insertion_sort] returns [None] in place of the list. *)
Theorem boundary_size_failures (s target : Song) (depth : nat) :
  exponential_search depth [] target = Raise IndexError /\
  fibonaccianSearch [] target None = Raise IndexError /\
  insertion_sort_returned [] = Ret None /\
  insertion_sort_returned [s] = Ret None.
Proof. repeat split; reflexivity. Qed.

(** ** Deleting a song that is in the playlist (C1) *)

Definition run_all {St} (ms : list (M St unit)) (st : St) : St :=
  fold_left (fun st m => snd (m st)) ms st.

(** The recursion limit CPython starts with; the program does not change
    it. *)
Definition recursion_limit : nat := 1000.

(** The scenario of the specification: a playlist to which ("B", 180),
    ("A", 200) and ("C", 90) are added in this order. *)
Definition library : MusicApp.app :=
  run_all [ MusicApp.add_song recursion_limit "mine" "B" "artist" "album" "genre" 180;
            MusicApp.add_song recursion_limit "mine" "A" "artist" "album" "genre" 200;
            MusicApp.add_song recursion_limit "mine" "C" "artist" "album" "genre" 90 ]
          {[ "mine" := MusicApp.Playlist_init "mine" ]}.

Definition sorted_titles (p : MusicApp.Playlist) : list string :=
  map title (MusicApp.songs p).

(** Whenever the title names a song of the playlist, [delete_song] raises
    [TypeError] at [playlist.songs[song_to_delete]] and changes nothing. *)
Lemma delete_song_present_raises (depth : nat) (st : MusicApp.app) (n t : string)
    (p : MusicApp.Playlist) (s : Song) :
  st !! n = Some p ->
  List.find (fun s => String.eqb (title s) t) (MusicApp.songs p) = Some s ->
  MusicApp.delete_song depth n t st = (Raise TypeError, st).
Proof.
  intros Hp Hs. unfold MusicApp.delete_song, MusicApp.on_playlist. rewrite Hp.
  unfold bindM at 1. unfold MusicApp.read at 1. rewrite Hs.
  cbn. f_equal. apply insert_id. exact Hp.
Qed.

(** C1. After the three additions the sorted view is [A, B, C] and the
    total time 470; deleting "B" raises [TypeError] and leaves the playlist
    as it was: total time 470, sorted view [A, B, C], "B" in every tree. *)
Theorem delete_song_scenario (depth : nat) :
  (fun p => (sorted_titles p, MusicApp.total_time p)) <$> (library !! "mine")
    = Some (["A"; "B"; "C"], 470) /\
  MusicApp.delete_song depth "mine" "B" library = (Raise TypeError, library).
Proof.
  split; [vm_compute; reflexivity|].
  assert (H : exists p, library !! "mine" = Some p /\
            List.find (fun s => String.eqb (title s) "B") (MusicApp.songs p)
              = Some (Song_init "B" "artist" "album" "genre" 180)).
  { eexists. split; vm_compute; reflexivity. }
  destruct H as (p & Hp & Hs).
  exact (delete_song_present_raises _ _ _ _ _ _ Hp Hs).
Qed.

(** ** Deleting from the AVL tree (C3) *)

Definition avl_BACD : AVLTree.tree :=
  run_all [ AVLTree.insert (probe "B"); AVLTree.insert (probe "A");
            AVLTree.insert (probe "C"); AVLTree.insert (probe "D") ]
          AVLTree.init.

(** The title at the root, and the balance factor of the root. *)
Definition avl_root_title (t : AVLTree.tree) : res string :=
  fst (AVLTree.get (fun n => title (AVLTree.song n)) (AVLTree.root t) t).
Definition avl_root_balance (t : AVLTree.tree) : res Z :=
  fst (AVLTree.balance_factor (AVLTree.root t) t).

(** C3. In the AVL tree built from B, A, C, D the root is B with balance
    factor -1. Deleting B unlinks its predecessor A, then raises
    [AttributeError] at [replacement.value]; the tree it leaves has B still
    at the root, with balance factor -2. *)
Theorem avl_delete_breaks_balance :
  avl_root_title avl_BACD = Ret "B" /\
  avl_root_balance avl_BACD = Ret (-1) /\
  fst (AVLTree.delete (probe "B") avl_BACD) = Raise AttributeError /\
  avl_root_title (snd (AVLTree.delete (probe "B") avl_BACD)) = Ret "B" /\
  avl_root_balance (snd (AVLTree.delete (probe "B") avl_BACD)) = Ret (-2) /\
  fst (AVLTree.search (probe "A") (snd (AVLTree.delete (probe "B") avl_BACD))) = Ret None.
Proof. repeat split; vm_compute; reflexivity. Qed.

(** ** Shuffling (C9) *)

Lemma insert_cons_perm (l : list Song) (j : nat) (a b : Song) :
  l !! j = Some b -> b :: <[j := a]> l ≡ₚ a :: l.
Proof.
  revert j. induction l as [|x l IH]; intros [|j]; simpl; try discriminate.
  - intros [= ->]. apply Permutation_swap.
  - intros Hj. rewrite (Permutation_swap x b), (IH j Hj). apply Permutation_swap.
Qed.

Lemma swap_perm (l : list Song) (i j : nat) (a b : Song) :
  l !! i = Some a -> l !! j = Some b -> <[j := a]> (<[i := b]> l) ≡ₚ l.
Proof.
  revert i j. induction l as [|x l IH]; intros [|i] [|j]; simpl; try discriminate.
  - intros [= ->] [= ->]. reflexivity.
  - intros [= ->] Hj. apply insert_cons_perm. exact Hj.
  - intros Hi [= ->]. apply insert_cons_perm. exact Hi.
  - intros Hi Hj. constructor. apply IH; assumption.
Qed.

Lemma fisher_yates_perm (i : nat) (draws : list nat) (l : list Song) :
  MusicApp.fisher_yates i draws l ≡ₚ l.
Proof.
  revert draws l.
  induction i as [|i IH]; intros draws l; cbn [MusicApp.fisher_yates]; [reflexivity|].
  rewrite IH.
  destruct (l !! S i) as [a|] eqn:Hi; [|reflexivity].
  match goal with |- context [l !! ?j] => destruct (l !! j) as [b|] eqn:Hj end;
    [|reflexivity].
  apply swap_perm; assumption.
Qed.

(** C9. [shuffle_playlist] replaces the insertion-order view of the named
    playlist by a permutation of it; the sorted view, the three trees, the
    total time and the name of that playlist stay, and so does every other
    playlist. *)
Theorem shuffle_only_permutes_unsorted (st : MusicApp.app) (draws : list nat)
    (n : string) (p : MusicApp.Playlist) (Hp : st !! n = Some p) :
  exists p',
    MusicApp.shuffle_playlist draws n st = (Ret tt, <[n := p']> st) /\
    MusicApp.songs_not_sorted p' ≡ₚ MusicApp.songs_not_sorted p /\
    MusicApp.songs p' = MusicApp.songs p /\
    MusicApp.bst p' = MusicApp.bst p /\
    MusicApp.rbt p' = MusicApp.rbt p /\
    MusicApp.avl p' = MusicApp.avl p /\
    MusicApp.total_time p' = MusicApp.total_time p /\
    MusicApp.name p' = MusicApp.name p.
Proof.
  unfold MusicApp.shuffle_playlist, MusicApp.on_playlist. rewrite Hp.
  eexists. cbn. split; [reflexivity|].
  cbn. repeat split; try reflexivity.
  apply fisher_yates_perm.
Qed.

(** The witness of C9: the playlist of the scenario, shuffled. *)
Lemma shuffle_only_permutes_unsorted_witness :
  exists p0, library !! "mine" = Some p0 /\
  exists p',
    MusicApp.shuffle_playlist [1; 0]%nat "mine" library
      = (Ret tt, <["mine" := p']> library) /\
    MusicApp.songs_not_sorted p' ≡ₚ MusicApp.songs_not_sorted p0 /\
    MusicApp.songs p' = MusicApp.songs p0 /\
    MusicApp.bst p' = MusicApp.bst p0 /\
    MusicApp.rbt p' = MusicApp.rbt p0 /\
    MusicApp.avl p' = MusicApp.avl p0 /\
    MusicApp.total_time p' = MusicApp.total_time p0 /\
    MusicApp.name p' = MusicApp.name p0.
Proof.
  eexists. split; [vm_compute; reflexivity|].
  apply (shuffle_only_permutes_unsorted library [1; 0]%nat "mine").
  vm_compute. reflexivity.
Defined.

(** ** The red-black conditions under [insert] *)
Module RedBlackFacts.
Import RedBlackTree RedBlackModel.

(** *** Black height and red-red freedom along a path *)

Definition bh (t : rbtree) (n : nat) : Prop := black_height t = Some n.
Definition rr (t : rbtree) : Prop := no_red_red t = true.

Definition cadd (c : Color) (n : nat) : nat :=
  match c with BLACK => S n | RED => n end.

Definition top_color (ctx : list frame) : Color :=
  match ctx with [] => BLACK | f :: _ => fcolor f end.

(** The path [ctx] fits a subtree of black height [n]. *)
Fixpoint ctx_bh (ctx : list frame) (n : nat) : Prop :=
  match ctx with
  | [] => True
  | f :: ctx' => bh (fsib f) n /\ ctx_bh ctx' (cadd (fcolor f) n)
  end.

(** No red node of the path has a red sibling subtree or a red parent. *)
Fixpoint ctx_rr (ctx : list frame) : Prop :=
  match ctx with
  | [] => True
  | f :: ctx' =>
      rr (fsib f) /\
      (fcolor f = RED -> tcolor (fsib f) = BLACK /\ top_color ctx' = BLACK) /\
      ctx_rr ctx'
  end.

(** The node at the upper end of the path, the root, is black. *)
Fixpoint root_black (ctx : list frame) : Prop :=
  match ctx with
  | [] => True
  | [f] => fcolor f = BLACK
  | _ :: ctx' => root_black ctx'
  end.

Lemma color_eqb_eq c d : color_eqb c d = true <-> c = d.
Proof. destruct c, d; simpl; split; congruence. Qed.

Lemma bh_Tr c a s l r n :
  bh (Tr c a s l r) n <-> exists m, bh l m /\ bh r m /\ n = cadd c m.
Proof.
  unfold bh. simpl. split.
  - destruct (black_height l) as [x|]; [|discriminate].
    destruct (black_height r) as [y|]; [|discriminate].
    destruct (Nat.eqb_spec x y); [|discriminate].
    intros [= <-]. subst y. exists x. destruct c; auto.
  - intros (m & -> & -> & ->). rewrite Nat.eqb_refl. destruct c; reflexivity.
Qed.

Lemma bh_Leaf n : bh Leaf n <-> n = 0%nat.
Proof. unfold bh. simpl. split; congruence. Qed.

Lemma bh_fun t n m : bh t n -> bh t m -> n = m.
Proof. unfold bh. congruence. Qed.

Lemma rr_Tr c a s l r :
  rr (Tr c a s l r) <->
  (c = RED -> tcolor l = BLACK /\ tcolor r = BLACK) /\ rr l /\ rr r.
Proof.
  unfold rr. simpl. rewrite !andb_true_iff. destruct c.
  - rewrite andb_true_iff, !color_eqb_eq. intuition congruence.
  - intuition congruence.
Qed.

Lemma rr_Leaf : rr Leaf.
Proof. reflexivity. Qed.

Lemma bh_plug1 f t n : bh t n -> bh (fsib f) n -> bh (plug1 f t) (cadd (fcolor f) n).
Proof.
  intros Ht Hs. unfold plug1. destruct (fside f); apply bh_Tr; eauto.
Qed.

Lemma bh_plug ctx : forall t n, bh t n -> ctx_bh ctx n -> exists m, bh (plug ctx t) m.
Proof.
  induction ctx as [|f ctx IH]; intros t n Ht Hc; simpl in *; [eauto|].
  destruct Hc as [Hs Hc]. eapply IH; [|exact Hc]. apply bh_plug1; assumption.
Qed.

Lemma bh_plug_inv ctx : forall t m, bh (plug ctx t) m -> exists n, bh t n /\ ctx_bh ctx n.
Proof.
  induction ctx as [|f ctx IH]; intros t m H; simpl in *; [eauto|].
  apply IH in H. destruct H as (k & Hk & Hc).
  unfold plug1 in Hk. destruct (fside f); apply bh_Tr in Hk;
    destruct Hk as (n & H1 & H2 & ->); exists n; simpl; auto.
Qed.

Lemma tcolor_plug1 f t : tcolor (plug1 f t) = fcolor f.
Proof. unfold plug1. destruct (fside f); reflexivity. Qed.

Lemma rr_plug1 f t :
  rr (plug1 f t) <->
  (fcolor f = RED -> tcolor t = BLACK /\ tcolor (fsib f) = BLACK) /\ rr t /\ rr (fsib f).
Proof. unfold plug1. destruct (fside f); rewrite rr_Tr; intuition. Qed.

Lemma rr_plug ctx : forall t,
  rr t -> ctx_rr ctx -> (tcolor t = RED -> top_color ctx = BLACK) -> rr (plug ctx t).
Proof.
  induction ctx as [|f ctx IH]; intros t Ht Hc Htop; simpl in *; [assumption|].
  destruct Hc as (Hs & Hf & Hc). apply IH; [|assumption|].
  - apply rr_plug1. repeat split; try assumption.
    + destruct (tcolor t) eqn:E; [|reflexivity]. specialize (Htop eq_refl). congruence.
    + apply Hf, H.
  - rewrite tcolor_plug1. intros H. apply Hf, H.
Qed.

Lemma rr_plug_inv ctx : forall t,
  rr (plug ctx t) -> rr t /\ ctx_rr ctx /\ (tcolor t = RED -> top_color ctx = BLACK).
Proof.
  induction ctx as [|f ctx IH]; intros t H; simpl in *; [auto|].
  apply IH in H. destruct H as (H1 & Hc & Htop).
  apply rr_plug1 in H1. destruct H1 as (Hf & Ht & Hs).
  rewrite tcolor_plug1 in Htop.
  repeat split; try assumption.
  - apply Hf, H.
  - apply Htop, H.
  - intros Hr. destruct (fcolor f) eqn:E; [|reflexivity].
    destruct (Hf eq_refl). congruence.
Qed.

Lemma tcolor_plug ctx : forall t,
  tcolor (plug ctx t) = BLACK -> root_black ctx /\ (ctx = [] -> tcolor t = BLACK).
Proof.
  induction ctx as [|f ctx IH]; intros t H; simpl in *; [auto|].
  apply IH in H. destruct H as [Hr Hn]. split; [|discriminate].
  destruct ctx; [|assumption]. rewrite <- (tcolor_plug1 f t). auto.
Qed.

Lemma root_black_tcolor ctx : forall t,
  ctx <> [] -> root_black ctx -> tcolor (plug ctx t) = BLACK.
Proof.
  induction ctx as [|f ctx IH]; intros t Hne H; [contradiction|].
  simpl. destruct ctx as [|f' ctx].
  - simpl. rewrite tcolor_plug1. exact H.
  - apply IH; [discriminate|exact H].
Qed.

Lemma root_black_tail f ctx : root_black (f :: ctx) -> root_black ctx.
Proof. destruct ctx; simpl; auto. Qed.

Lemma rr_blacken t : rr t -> rr (blacken t).
Proof. destruct t; simpl; auto. rewrite !rr_Tr. intuition congruence. Qed.

Lemma bh_blacken t n : bh t n -> exists m, bh (blacken t) m.
Proof.
  destruct t; simpl; eauto. rewrite bh_Tr. intros (m & H1 & H2 & _).
  exists (S m). apply bh_Tr. eauto.
Qed.

Lemma tcolor_blacken t : tcolor (blacken t) = BLACK.
Proof. destruct t; reflexivity. Qed.

Lemma is_red_black_iff t :
  is_red_black t = true <-> tcolor t = BLACK /\ rr t /\ exists n, bh t n.
Proof.
  unfold is_red_black, rr, bh. rewrite !andb_true_iff, color_eqb_eq.
  destruct (black_height t) as [n|].
  - split; [intros [[H1 H2] _]; eauto | intros (H1 & H2 & _); auto].
  - split; [intros [_ H]; discriminate | intros (_ & _ & [n Hn]); discriminate].
Qed.

(** *** [fix_insert] restores the red-black conditions *)

Lemma ins_fix_rb : forall k ctx t n,
  (length ctx <= k)%nat ->
  tcolor t = RED -> rr t -> bh t n ->
  ctx_bh ctx n -> ctx_rr ctx -> root_black ctx ->
  exists T, ins_fix ctx t = Some T /\ rr T /\ exists m, bh T m.
Proof.
  induction k as [|k IH]; intros ctx t n Hk Hred Hrr Hbh Hcb Hcr Hrb.
  { destruct ctx; [|simpl in Hk; lia]. simpl. eauto 6. }
  destruct ctx as [|[dp cp p sp sibp] ctx1]; [simpl; eauto 6|].
  destruct cp.
  2:{ (* black parent *)
      cbn [ins_fix]. eexists; split; [reflexivity|]. split.
      - apply rr_plug; auto.
      - eapply bh_plug; eauto. }
  destruct Hcr as (Hsibp & Hp & Hcr1). destruct (Hp eq_refl) as [Hsibc Htop1].
  destruct Hcb as (Hsibb & Hcb1). simpl in Hsibb, Hcb1, Hsibc, Hsibp.
  destruct ctx1 as [|[dg cg g sg uncle] ctx2]; [simpl in Hrb; discriminate|].
  simpl in Htop1. subst cg.
  destruct Hcr1 as (Hunr & _ & Hcr2). destruct Hcb1 as (Hunb & Hcb2).
  simpl in Hunr, Hunb, Hcb2.
  apply root_black_tail in Hrb.
  assert (Hcase : (exists u su ul ur, uncle = Tr RED u su ul ur) \/ tcolor uncle = BLACK).
  { destruct uncle as [|[] u su ul ur]; eauto 6. }
  destruct Hcase as [(u & su & ul & ur & ->)|Hub].
  - (* red uncle: recolor and go on from the grandparent *)
    cbn [ins_fix]. apply rr_Tr in Hunr. destruct Hunr as (Huc & Hul & Hur).
    destruct (Huc eq_refl) as [Hulc Hurc].
    apply bh_Tr in Hunb. destruct Hunb as (m & Hulb & Hurb & Hm). simpl in Hm. subst m.
    apply root_black_tail in Hrb.
    eapply (IH ctx2 _ (S n)).
    + simpl in Hk. lia.
    + apply tcolor_plug1.
    + apply rr_plug1. cbn [fcolor fsib]. split; [|split].
      * intros _. rewrite tcolor_plug1. auto.
      * apply rr_plug1. cbn [fcolor fsib]. split; [discriminate|]. auto.
      * apply rr_Tr. split; [discriminate|]. auto.
    + change (S n) with (cadd RED (S n)).
      apply (bh_plug1 (Fr dg RED g sg (Tr BLACK u su ul ur))).
      * change (S n) with (cadd BLACK n).
        apply (bh_plug1 (Fr dp BLACK p sp sibp)); assumption.
      * apply bh_Tr. exists n. auto.
    + exact Hcb2.
    + exact Hcr2.
    + exact Hrb.
  - (* black uncle: rotate *)
    apply root_black_tail in Hrb.
    assert (Hins : exists X, ins_fix (Fr dp RED p sp sibp :: Fr dg BLACK g sg uncle :: ctx2) t
                     = Some (plug ctx2 X) /\ tcolor X = BLACK /\ rr X /\ bh X (S n)).
    { destruct t as [|cn a sn nl nr]; [discriminate|]. simpl in Hred. subst cn.
      apply rr_Tr in Hrr. destruct Hrr as (Hnc & Hnl & Hnr).
      destruct (Hnc eq_refl) as [Hnlc Hnrc].
      apply bh_Tr in Hbh. destruct Hbh as (m & Hnlb & Hnrb & Hm). simpl in Hm. subst m.
      destruct uncle as [|cu u su ul ur];
        [|simpl in Hub; subst cu; pose proof Hunr as Hunr';
          apply rr_Tr in Hunr'; destruct Hunr' as (_ & Hul & Hur)];
        destruct dg, dp; cbn [ins_fix]; eexists; (split; [reflexivity|]);
        (split; [reflexivity|]);
        rewrite ?rr_Tr, ?bh_Tr;
        (split; [repeat split; try discriminate; auto using rr_Leaf|]);
        try (exists n; repeat split; try reflexivity;
             apply bh_Tr; exists n; repeat split; auto; apply bh_Tr; eauto). }
    destruct Hins as (X & -> & HXc & HXr & HXb).
    eexists; split; [reflexivity|]. split.
    + apply rr_plug; auto. congruence.
    + eapply bh_plug; eauto.
Qed.

Lemma descend_plug s : forall t ctx0 ctx,
  descend s t ctx0 = Ret ctx -> plug ctx Leaf = plug ctx0 t.
Proof.
  induction t as [|c a s' l IHl r IHr]; intros ctx0 ctx H; simpl in H.
  - injection H as <-. reflexivity.
  - destruct (song_lt s s') as [[]|]; simpl in H; try discriminate.
    + apply IHl in H. exact H.
    + apply IHr in H. exact H.
Qed.

(** [insert] keeps a red-black tree red-black, and [fix_insert] meets no
    red node without a grandparent. *)
Lemma insert_rb a s t o :
  is_red_black t = true -> insert a s t = Ret o ->
  exists t', o = Some t' /\ is_red_black t' = true.
Proof.
  intros Hrb H. unfold insert in H.
  destruct (descend s t []) as [ctx|] eqn:Hd; simpl in H; [|discriminate].
  injection H as <-.
  apply descend_plug in Hd. simpl in Hd.
  apply is_red_black_iff in Hrb. destruct Hrb as (Hc & Hr & n & Hb).
  rewrite <- Hd in Hc, Hr, Hb.
  apply tcolor_plug in Hc. destruct Hc as [Hroot _].
  apply rr_plug_inv in Hr. destruct Hr as (_ & Hcr & _).
  apply bh_plug_inv in Hb. destruct Hb as (k & Hk & Hcb).
  apply bh_Leaf in Hk. subst k.
  destruct (ins_fix_rb (length ctx) ctx (Tr RED a s Leaf Leaf) 0%nat)
    as (T & -> & HTr & m & HTb); auto.
  - apply rr_Tr. auto using rr_Leaf.
  - apply bh_Tr. exists 0%nat. rewrite bh_Leaf. auto.
  - exists (blacken T). split; [reflexivity|].
    apply is_red_black_iff. split; [apply tcolor_blacken|].
    split; [apply rr_blacken; assumption|]. eapply bh_blacken; eassumption.
Qed.

(** *** The left-to-right reading along a path *)

Fixpoint ctx_left (ctx : list frame) : list Song :=
  match ctx with
  | [] => []
  | f :: ctx' =>
      ctx_left ctx' ++
      match fside f with
      | L => []
      | R => inorder (fsib f) ++ [fsong f]
      end
  end.

Fixpoint ctx_right (ctx : list frame) : list Song :=
  match ctx with
  | [] => []
  | f :: ctx' =>
      match fside f with
      | L => fsong f :: inorder (fsib f)
      | R => []
      end ++ ctx_right ctx'
  end.

Lemma inorder_plug ctx : forall t,
  inorder (plug ctx t) = ctx_left ctx ++ inorder t ++ ctx_right ctx.
Proof.
  induction ctx as [|f ctx IH]; intros t; simpl.
  - rewrite app_nil_r. reflexivity.
  - rewrite IH. unfold plug1. destruct (fside f); simpl;
      rewrite <- ?app_assoc; simpl; rewrite <- ?app_assoc; reflexivity.
Qed.

Lemma inorder_plug_congr ctx t t' :
  inorder t = inorder t' -> inorder (plug ctx t) = inorder (plug ctx t').
Proof. intros H. rewrite !inorder_plug, H. reflexivity. Qed.

(** [fix_insert] keeps the left-to-right reading. *)
Lemma ins_fix_inorder : forall k ctx t T,
  (length ctx <= k)%nat -> ins_fix ctx t = Some T -> inorder T = inorder (plug ctx t).
Proof.
  induction k as [|k IH]; intros ctx t T Hk H.
  { destruct ctx; [|simpl in Hk; lia]. simpl in *. congruence. }
  destruct ctx as [|[dp cp p sp sibp] ctx1]; [simpl in *; congruence|].
  destruct cp; [|cbn [ins_fix] in H; injection H as <-; reflexivity].
  destruct ctx1 as [|[dg cg g sg uncle] ctx2]; [discriminate|].
  assert (Hcase : (exists u su ul ur, uncle = Tr RED u su ul ur) \/ tcolor uncle = BLACK).
  { destruct uncle as [|[] u su ul ur]; eauto 6. }
  destruct Hcase as [(u & su & ul & ur & ->)|Hub].
  - cbn [ins_fix] in H. apply IH in H; [|simpl in Hk; lia]. rewrite H.
    cbn [plug]. apply inorder_plug_congr.
    unfold plug1; cbn [fside fcolor faddr fsong fsib]. destruct dg, dp; reflexivity.
  - assert (H' : exists X, T = plug ctx2 X /\
              inorder X = inorder (plug1 (Fr dg cg g sg uncle) (plug1 (Fr dp RED p sp sibp) t))).
    { destruct uncle as [|cu u su ul ur]; [|simpl in Hub; subst cu];
        destruct dg, dp, t as [|cn n sn nl nr]; cbn [ins_fix] in H; try discriminate;
        injection H as <-; eexists; (split; [reflexivity|]);
        unfold plug1; cbn [fside fcolor faddr fsong fsib inorder];
        repeat (rewrite <- ?app_assoc; cbn [app]); reflexivity. }
    destruct H' as (X & -> & HX). cbn [plug]. apply inorder_plug_congr. exact HX.
Qed.

End RedBlackFacts.

(** ** The methods of [RedBlackTree] on the tree of nodes *)
Module RedBlackSim.
Import RedBlackTree RedBlackModel RedBlackRep RedBlackFacts.

Lemma root_ref_plug1 nil f t : root_ref nil (plug1 f t) = faddr f.
Proof. unfold plug1. destruct (fside f); reflexivity. Qed.

Lemma rep_plug1 m nil par f t :
  rep m nil par (plug1 f t) <->
  m !! faddr f = Some (frame_node nil f (root_ref nil t) par)
  /\ rep m nil (Some (faddr f)) (fsib f) /\ rep m nil (Some (faddr f)) t.
Proof.
  unfold plug1, frame_node. destruct (fside f); simpl; tauto.
Qed.

Lemma rep_plug m nil : forall ctx t,
  rep m nil None (plug ctx t) <->
  rep m nil (ctx_par ctx) t /\ rep_ctx m nil ctx (root_ref nil t).
Proof.
  induction ctx as [|f ctx IH]; intros t; simpl; [tauto|].
  rewrite IH, rep_plug1, root_ref_plug1. tauto.
Qed.

Lemma addrs_plug : forall ctx t, addrs (plug ctx t) ≡ₚ addrs t ++ ctx_addrs ctx.
Proof.
  induction ctx as [|f ctx IH]; intros t; simpl.
  - rewrite app_nil_r. reflexivity.
  - rewrite IH. unfold plug1. destruct (fside f); simpl.
    + rewrite <- !app_assoc. apply Permutation_middle.
    + rewrite (Permutation_app_comm (addrs (fsib f)) (addrs t)).
      rewrite <- !app_assoc. apply Permutation_middle.
Qed.

Lemma rep_insert_ne m nil par t a n :
  a ∉ addrs t -> rep m nil par t -> rep (<[a := n]> m) nil par t.
Proof.
  revert par. induction t as [|c b s l IHl r IHr]; intros par Ha H; simpl in *; [exact I|].
  destruct H as (Hb & Hl & Hr).
  rewrite not_elem_of_cons, not_elem_of_app in Ha. destruct Ha as (Hab & Hal & Har).
  rewrite lookup_insert_ne by done. auto.
Qed.

Lemma rep_ctx_insert_ne m nil ctx child a n :
  a ∉ ctx_addrs ctx -> rep_ctx m nil ctx child -> rep_ctx (<[a := n]> m) nil ctx child.
Proof.
  revert child. induction ctx as [|f ctx IH]; intros child Ha H; simpl in *; [exact I|].
  destruct H as (Hf & Hs & Hc).
  rewrite not_elem_of_cons, not_elem_of_app in Ha. destruct Ha as (Haf & Has & Hac).
  rewrite lookup_insert_ne by done. auto using rep_insert_ne.
Qed.

(** Running the primitives. *)
Lemma get_ok {A} (f : RedBlackNode -> A) a st n :
  store st !! a = Some n -> get f (Some a) st = (Ret (f n), st).
Proof. intros H. unfold get. rewrite H. reflexivity. Qed.

Lemma set_ok upd a st n :
  store st !! a = Some n ->
  set upd (Some a) st = (Ret tt, set_store (<[a := upd n]> (store st)) st).
Proof. intros H. unfold set. rewrite H. reflexivity. Qed.

Section Exec.
Context {A B : Type}.

Lemma bind_get (f : RedBlackNode -> A) a (k : A -> M tree B) st n :
  store st !! a = Some n -> bindM (get f (Some a)) k st = k (f n) st.
Proof. intros H. unfold bindM. rewrite (get_ok f a st n H). reflexivity. Qed.

Lemma bind_set upd a (k : unit -> M tree B) st n :
  store st !! a = Some n ->
  bindM (set upd (Some a)) k st = k tt (set_store (<[a := upd n]> (store st)) st).
Proof. intros H. unfold bindM. rewrite (set_ok upd a st n H). reflexivity. Qed.

Lemma bind_ret (a : A) (k : A -> M tree B) (st : tree) : bindM (ret a) k st = k a st.
Proof. reflexivity. Qed.

Lemma bind_get_NIL (k : ref -> M tree B) st : bindM get_NIL k st = k (Some (NIL st)) st.
Proof. reflexivity. Qed.

Lemma bind_get_root (k : ref -> M tree B) st : bindM get_root k st = k (root st) st.
Proof. reflexivity. Qed.

Lemma bind_get_next (k : nat -> M tree B) st : bindM get_next k st = k (next st) st.
Proof. reflexivity. Qed.

Lemma bind_set_root r (k : unit -> M tree B) st :
  bindM (set_root r) k st = k tt (mkTree (store st) (next st) (NIL st) r).
Proof. reflexivity. Qed.

End Exec.

Lemma bind_assoc {St A B C} (m : M St A) (k1 : A -> M St B) (k2 : B -> M St C) st :
  bindM (bindM m k1) k2 st = bindM m (fun x => bindM (k1 x) k2) st.
Proof. unfold bindM. destruct (m st) as [[a|e] st']; reflexivity. Qed.

Lemma bind_if {St A B} (c : bool) (m1 m2 : M St A) (k : A -> M St B) st :
  bindM (if c then m1 else m2) k st = if c then bindM m1 k st else bindM m2 k st.
Proof. destruct c; reflexivity. Qed.

Lemma ref_eqb_refl a : ref_eqb a a = true.
Proof. destruct a; simpl; auto using Nat.eqb_refl. Qed.

Lemma ref_eqb_ne (a b : addr) : a <> b -> ref_eqb (Some a) (Some b) = false.
Proof. intros H. simpl. apply Nat.eqb_neq. exact H. Qed.

Lemma flat_inr l L : flat (inr l :: L) = l ++ flat L.
Proof. destruct L; simpl; [rewrite app_nil_r|]; reflexivity. Qed.

Lemma apart_from_ok k L : k ∉ flat L -> apart_from k L.
Proof.
  induction L as [|[k'|l] L IH]; intros H; [exact I| |].
  - simpl in *. rewrite not_elem_of_cons in H. tauto.
  - rewrite flat_inr, not_elem_of_app in H. simpl. tauto.
Qed.

Lemma outside_ok l L : (forall x, x ∈ l -> x ∉ flat L) -> outside l L.
Proof.
  induction L as [|[k|l'] L IH]; intros H; [exact I| |].
  - simpl. split.
    + intros Hk. apply (H k Hk). simpl. left.
    + apply IH. intros x Hx Hx'. apply (H x Hx). simpl. right. exact Hx'.
  - simpl. apply IH. intros x Hx Hx'. apply (H x Hx).
    rewrite flat_inr, elem_of_app. right. exact Hx'.
Qed.

Lemma nodup_apart L : NoDup (flat L) -> apart L.
Proof.
  induction L as [|[k|l] L IH]; intros H; [exact I| |].
  - simpl in *. rewrite NoDup_cons in H. destruct H as [H1 H2].
    split; [apply apart_from_ok; exact H1|auto].
  - rewrite flat_inr, NoDup_app in H. destruct H as (_ & H1 & H2).
    simpl. split; [apply outside_ok; exact H1|auto].
Qed.

Ltac reify_items l :=
  lazymatch l with
  | @nil _ => constr:(@nil item)
  | ?k :: ?r => let r' := reify_items r in constr:(@inl addr (list addr) k :: r')
  | ?l1 ++ ?r => let r' := reify_items r in constr:(@inr addr (list addr) l1 :: r')
  | ?l1 => constr:([@inr addr (list addr) l1])
  end.

Ltac split_ands :=
  repeat match goal with
  | H : _ /\ _ |- _ => destruct H
  | H : True |- _ => clear H
  end.

(** Put in the context what the [NoDup] fact [H] says of each pair. *)
Ltac distinct H :=
  let Hd := fresh "Hd" in
  pose proof H as Hd; cbn [addrs ctx_addrs app faddr fsib] in Hd;
  repeat first [ rewrite <- app_assoc in Hd | rewrite app_nil_r in Hd
               | progress cbn [app] in Hd ];
  lazymatch type of Hd with
  | NoDup ?l =>
      let L := reify_items l in
      apply (nodup_apart L) in Hd; cbn [apart apart_from outside] in Hd; split_ands
  end.

Lemma root_ref_ne nil t (x : addr) :
  x <> nil -> x ∉ addrs t -> x <> root_ref nil t.
Proof. destruct t; simpl; [auto|]. rewrite not_elem_of_cons. tauto. Qed.

Ltac solve_ne :=
  first [ congruence
        | apply root_ref_ne; [congruence | assumption]
        | apply not_eq_sym, root_ref_ne; [congruence | assumption] ].

(** Solve a lookup in a store built by insertions. *)
Ltac lk :=
  cbn [store set_store NIL root next];
  repeat first [ rewrite lookup_insert_eq | rewrite lookup_insert_ne by congruence ];
  first [ eassumption | reflexivity ].

Ltac red_fields :=
  unfold with_song, with_color, with_left, with_right, with_parent, frame_node;
  cbn [store set_store NIL root next song color left right parent negb
       fside fcolor faddr fsong fsib root_ref ctx_par].

(** Run the next primitive of a method. *)
Ltac step :=
  first
    [ rewrite bind_assoc
    | rewrite bind_ret
    | rewrite bind_get_NIL
    | rewrite bind_get_root
    | rewrite bind_get_next
    | rewrite bind_set_root
    | erewrite bind_get by lk
    | erewrite bind_set by lk
    | rewrite ref_eqb_refl
    | rewrite ref_eqb_ne by solve_ne
    | erewrite get_ok by lk
    | erewrite set_ok by lk
    | progress (cbv beta; red_fields) ].

Ltac run := repeat step.

Lemma addrs_rotate_perm (x y : addr) (a b c k : list addr) :
  y :: (x :: a ++ b) ++ c ++ k ≡ₚ x :: a ++ (y :: b ++ c) ++ k.
Proof.
  simpl. rewrite <- !app_assoc. simpl.
  rewrite (Permutation_swap x y). constructor.
  apply Permutation_middle.
Qed.

Lemma root_ref_plug_cons nil f ctx t t' :
  root_ref nil (plug (f :: ctx) t) = root_ref nil (plug (f :: ctx) t').
Proof.
  simpl. revert t t'. generalize f. induction ctx as [|g ctx IH]; intros f0 t t'; simpl.
  - rewrite !root_ref_plug1. reflexivity.
  - apply IH.
Qed.

Lemma is_Some_insert_existing {V} (m : gmap addr V) k v a :
  is_Some (m !! k) -> is_Some (<[k := v]> m !! a) -> is_Some (m !! a).
Proof.
  intros Hk H. destruct (decide (k = a)) as [->|Hne]; [assumption|].
  rewrite lookup_insert_ne in H by done. exact H.
Qed.

(** The zipper form of the invariant. *)
Lemma Inv_zip st ctx t pnil :
  Inv st (plug ctx t) pnil <->
  rep (store st) (NIL st) (ctx_par ctx) t /\
  rep_ctx (store st) (NIL st) ctx (root_ref (NIL st) t) /\
  root st = Some (root_ref (NIL st) (plug ctx t)) /\
  NoDup (NIL st :: addrs t ++ ctx_addrs ctx) /\
  store st !! NIL st = Some (mkNode None BLACK None None pnil) /\
  (forall a, is_Some (store st !! a) -> (a < next st)%nat).
Proof.
  split.
  - intros [H1 H2 H3 H4 H5]. apply rep_plug in H1. rewrite addrs_plug in H3. tauto.
  - intros (H1 & H2 & H3 & H4 & H5 & H6). constructor; auto.
    + apply rep_plug. auto.
    + rewrite addrs_plug. assumption.
Qed.

Lemma next_bound_insert (m : gmap addr RedBlackNode) (n : nat) k v :
  (forall a, is_Some (m !! a) -> (a < n)%nat) -> is_Some (m !! k) ->
  forall a, is_Some (<[k := v]> m !! a) -> (a < n)%nat.
Proof. intros H Hk a Ha. apply H. eapply is_Some_insert_existing; eassumption. Qed.

Ltac next_tac Hnext :=
  red_fields;
  repeat (apply next_bound_insert; [|eexists; lk]);
  exact Hnext.

(** Rebuild the representation after the store was updated. *)
Ltac rep_tac :=
  red_fields;
  repeat match goal with
  | |- True => exact I
  | |- _ /\ _ => split
  | |- rep _ _ _ Leaf => exact I
  | |- rep _ _ _ (Tr _ _ _ _ _) => cbn [rep]; red_fields
  | |- rep_ctx _ _ [] _ => exact I
  | |- rep_ctx _ _ (_ :: _) _ => cbn [rep_ctx]; red_fields
  | |- rep (<[_ := _]> _) _ _ _ => apply rep_insert_ne; [assumption|]
  | |- rep_ctx (<[_ := _]> _) _ _ _ => apply rep_ctx_insert_ne; [assumption|]
  | |- rep _ _ _ _ => eassumption
  | |- rep_ctx _ _ _ _ => eassumption
  | |- _ !! _ = Some _ => lk
  end.

Lemma perm_rotate (x y : addr) (a b c k : list addr) :
  (x :: a ++ (y :: b ++ c)) ++ k ≡ₚ (y :: (x :: a ++ b) ++ c) ++ k.
Proof.
  simpl. rewrite <- !app_assoc. simpl. rewrite <- !app_assoc.
  rewrite (Permutation_swap x y). constructor.
  symmetry. apply Permutation_middle.
Qed.

Lemma nodup_rotate (n x y : addr) cx cy sx sy a b c k :
  NoDup (n :: addrs (Tr cx x sx a (Tr cy y sy b c)) ++ k) <->
  NoDup (n :: addrs (Tr cy y sy (Tr cx x sx a b) c) ++ k).
Proof.
  cbn [addrs]. split; intros H; (eapply NoDup_Permutation_proper; [|exact H]);
    constructor; [symmetry|]; apply perm_rotate.
Qed.

Ltac open_frame Hctx Hf Hsib :=
  cbn [rep_ctx] in Hctx; unfold frame_node in Hctx;
  cbn [fside fcolor faddr fsong fsib ctx_par] in Hctx;
  destruct Hctx as (Hf & Hsib & Hctx); cbn [root_ref] in Hf.

Ltac inv_finish HP Hroot Hnext :=
  split; [|split; reflexivity]; apply Inv_zip; red_fields;
  split; [rep_tac|]; split; [rep_tac|];
  split; [first [reflexivity | rewrite Hroot; f_equal; apply root_ref_plug_cons]|];
  split; [exact HP|]; split; [lk|next_tac Hnext].

Lemma left_rotate_spec st ctx cx x sx a cy y sy b c pnil :
  Inv st (plug ctx (Tr cx x sx a (Tr cy y sy b c))) pnil ->
  exists st',
    left_rotate (Some x) st = (Ret tt, st') /\
    Inv st' (plug ctx (Tr cy y sy (Tr cx x sx a b) c)) pnil /\
    NIL st' = NIL st /\ next st' = next st.
Proof.
  intros H. apply Inv_zip in H.
  destruct H as (Hfoc & Hctx & Hroot & Hnd & Hnil & Hnext).
  simpl in Hfoc. destruct Hfoc as (Hx & Ha & Hy & Hb & Hc).
  assert (HP : NoDup (NIL st :: addrs (Tr cy y sy (Tr cx x sx a b) c) ++ ctx_addrs ctx))
    by (apply nodup_rotate; exact Hnd).
  destruct b as [|cb ab sb bl br]; [|cbn [rep] in Hb; destruct Hb as (Hab & Hbl & Hbr)];
    (destruct ctx as [|[[] cf fa fs sib] ctx']; [|open_frame Hctx Hf Hsib..]);
    cbn [ctx_par root_ref faddr] in Hx, Hy; distinct Hnd;
    (eexists; split; [unfold left_rotate; run; reflexivity|]);
    inv_finish HP Hroot Hnext.
Qed.

Lemma right_rotate_spec st ctx cx x sx a cy y sy b c pnil :
  Inv st (plug ctx (Tr cx x sx (Tr cy y sy a b) c)) pnil ->
  exists st',
    right_rotate (Some x) st = (Ret tt, st') /\
    Inv st' (plug ctx (Tr cy y sy a (Tr cx x sx b c))) pnil /\
    NIL st' = NIL st /\ next st' = next st.
Proof.
  intros H. apply Inv_zip in H.
  destruct H as (Hfoc & Hctx & Hroot & Hnd & Hnil & Hnext).
  simpl in Hfoc. destruct Hfoc as (Hx & (Hy & Ha & Hb) & Hc).
  assert (HP : NoDup (NIL st :: addrs (Tr cy y sy a (Tr cx x sx b c)) ++ ctx_addrs ctx))
    by (apply nodup_rotate; exact Hnd).
  destruct b as [|cb ab sb bl br]; [|cbn [rep] in Hb; destruct Hb as (Hab & Hbl & Hbr)];
    (destruct ctx as [|[[] cf fa fs sib] ctx']; [|open_frame Hctx Hf Hsib..]);
    cbn [ctx_par root_ref faddr] in Hx, Hy; distinct Hnd;
    (eexists; split; [unfold right_rotate; run; reflexivity|]);
    inv_finish HP Hroot Hnext.
Qed.

(** A method that returns is run through a [bindM]. *)
Lemma bind_exec {St A B} (m : M St A) (k : A -> M St B) st a st' :
  m st = (Ret a, st') -> bindM m k st = k a st'.
Proof. unfold bindM. intros ->. reflexivity. Qed.

Lemma bind_raise {St A B} (m : M St A) (k : A -> M St B) st e st' :
  m st = (Raise e, st') -> bindM m k st = (Raise e, st').
Proof. unfold bindM. intros ->. reflexivity. Qed.

Lemma bind_lift {St A B} (a : A) (k : A -> M St B) st :
  bindM (lift (Ret a)) k st = k a st.
Proof. reflexivity. Qed.

Lemma root_ref_plug_color nil ctx c c' a s l r :
  root_ref nil (plug ctx (Tr c a s l r)) = root_ref nil (plug ctx (Tr c' a s l r)).
Proof. destruct ctx; [reflexivity|apply root_ref_plug_cons]. Qed.

Lemma set_color_spec st ctx c a s l r pnil c' :
  Inv st (plug ctx (Tr c a s l r)) pnil ->
  exists st',
    set (with_color c') (Some a) st = (Ret tt, st') /\
    Inv st' (plug ctx (Tr c' a s l r)) pnil /\
    NIL st' = NIL st /\ next st' = next st.
Proof.
  intros H. apply Inv_zip in H.
  destruct H as (Hfoc & Hctx & Hroot & Hnd & Hnil & Hnext).
  simpl in Hfoc. destruct Hfoc as (Hx & Hl & Hr).
  distinct Hnd.
  eexists; split; [run; reflexivity|].
  split; [|split; reflexivity]. apply Inv_zip. red_fields.
  split; [rep_tac|]. split; [rep_tac|].
  split; [rewrite Hroot; f_equal; apply root_ref_plug_color|].
  split; [exact Hnd|]. split; [lk|next_tac Hnext].
Qed.

Lemma root_ref_plug_ne nil : forall ctx f t (x : addr),
  x <> faddr f -> x ∉ ctx_addrs ctx -> x <> root_ref nil (plug (f :: ctx) t).
Proof.
  induction ctx as [|g ctx IH]; intros f t x Hf Hc.
  - simpl. rewrite root_ref_plug1. exact Hf.
  - change (plug (f :: g :: ctx) t) with (plug (g :: ctx) (plug1 f t)).
    simpl in Hc. rewrite not_elem_of_cons, not_elem_of_app in Hc.
    apply IH; tauto.
Qed.

Ltac solve_ne2 :=
  first [ solve_ne
        | apply root_ref_plug_ne; [cbn [faddr]; congruence | assumption] ].

(** Run the reads of a method, up to its next write or call. *)
Ltac read_step :=
  first
    [ rewrite bind_assoc
    | rewrite bind_ret
    | rewrite bind_get_NIL
    | rewrite bind_get_root
    | rewrite bind_get_next
    | erewrite bind_get by lk
    | rewrite ref_eqb_refl
    | rewrite ref_eqb_ne by solve_ne2
    | erewrite get_ok by lk
    | progress (cbv beta; red_fields; cbn [color_eqb]) ].
Ltac runr := repeat read_step.

Ltac open_inv H Hroot Hnd :=
  let H' := fresh "Hi" in
  pose proof H as H'; apply Inv_zip in H';
  let Hfoc := fresh "Hfoc" in
  let Hctx := fresh "Hctx" in
  let Hnil := fresh "Hnil" in
  let Hnext := fresh "Hnext" in
  destruct H' as (Hfoc & Hctx & Hroot & Hnd & Hnil & Hnext);
  cbn [rep rep_ctx] in Hfoc, Hctx; unfold frame_node in Hctx;
  cbn [rep rep_ctx fside fcolor faddr fsong fsib ctx_par root_ref] in Hfoc, Hctx;
  distinct Hnd.

Ltac use_spec lem st1 HI1 HN :=
  let He := fresh "He" in
  let Hx := fresh "Hnx" in
  destruct lem as (st1 & He & HI1 & HN & Hx);
  unfold with_song, with_color, with_left, with_right, with_parent in He;
  first [ rewrite (bind_exec _ _ _ _ _ He) | rewrite He ]; clear He.

Lemma fix_insert_cond_root st c n s l r pnil :
  Inv st (Tr c n s l r) pnil -> fix_insert_cond (Some n) st = (Ret false, st).
Proof.
  intros HI. change (Tr c n s l r) with (plug [] (Tr c n s l r)) in HI.
  open_inv HI Hroot Hnd. simpl in Hroot.
  unfold fix_insert_cond. runr. rewrite Hroot. runr. reflexivity.
Qed.

Lemma fix_insert_cond_frame st dp cp p sp sibp ctx1 c n s l r pnil :
  Inv st (plug (Fr dp cp p sp sibp :: ctx1) (Tr c n s l r)) pnil ->
  fix_insert_cond (Some n) st = (Ret (color_eqb cp RED), st).
Proof.
  intros HI. destruct dp; open_inv HI Hroot Hnd;
    unfold fix_insert_cond; runr; rewrite Hroot; runr; reflexivity.
Qed.

Ltac body_done HI HT :=
  split; [runr; reflexivity|]; split; [exact HI|]; split; [exact HT|];
  split; [simpl; lia|]; split; congruence.

Lemma fix_insert_body_spec st dp p sp sibp dg cg g sg uncle ctx2 c n s l r pnil T :
  Inv st (plug (Fr dp RED p sp sibp :: Fr dg cg g sg uncle :: ctx2) (Tr c n s l r)) pnil ->
  ins_fix (Fr dp RED p sp sibp :: Fr dg cg g sg uncle :: ctx2) (Tr c n s l r) = Some T ->
  exists st' ctx' c' n' s' l' r',
    fix_insert_body (Some n) st = (Ret (Next (Some n')), st') /\
    Inv st' (plug ctx' (Tr c' n' s' l' r')) pnil /\
    ins_fix ctx' (Tr c' n' s' l' r') = Some T /\
    (length ctx' <= S (length ctx2))%nat /\
    NIL st' = NIL st /\ next st' = next st.
Proof.
  intros HI HT. unfold fix_insert_body.
  assert (Hred : forall u su ul ur, uncle = Tr RED u su ul ur ->
            exists st' ctx' c' n' s' l' r',
              fix_insert_body (Some n) st = (Ret (Next (Some n')), st') /\
              Inv st' (plug ctx' (Tr c' n' s' l' r')) pnil /\
              ins_fix ctx' (Tr c' n' s' l' r') = Some T /\
              (length ctx' <= S (length ctx2))%nat /\
              NIL st' = NIL st /\ next st' = next st).
  { intros u su ul ur ->. unfold fix_insert_body.
    destruct dg, dp; open_inv HI Hroot Hnd; runr;
    match type of HI with
    | Inv _ (plug (Fr _ _ _ _ _ :: Fr ?d _ _ _ _ :: _) _) _ =>
        use_spec (set_color_spec st (Fr d cg g sg (Tr RED u su ul ur) :: ctx2)
                    RED p sp _ _ pnil BLACK HI) st1 HI1 HN1;
        use_spec (set_color_spec st1 (Fr (opp d) cg g sg (Tr BLACK p sp _ _) :: ctx2)
                    RED u su ul ur pnil BLACK HI1) st2 HI2 HN2
    end;
    open_inv HI2 Hroot2 Hnd2; runr;
    use_spec (set_color_spec st2 ctx2 cg g sg _ _ pnil RED HI2) st3 HI3 HN3;
    exists st3, ctx2; do 5 eexists; body_done HI3 HT. }
  destruct uncle as [|[] u su ul ur]; [|eapply Hred; reflexivity|]; clear Hred.
  all: destruct dg, dp; open_inv HI Hroot Hnd; runr.
  all: match type of HI with
    | Inv _ (plug (Fr L _ _ _ _ :: Fr L _ _ _ ?U :: _) _) _ =>
        use_spec (set_color_spec st (Fr L cg g sg U :: ctx2) RED p sp _ _ pnil BLACK HI)
          st1 HI1 HN1;
        open_inv HI1 Hroot1 Hnd1; runr;
        use_spec (set_color_spec st1 ctx2 cg g sg _ _ pnil RED HI1) st2 HI2 HN2;
        open_inv HI2 Hroot2 Hnd2; runr;
        use_spec (right_rotate_spec st2 ctx2 RED g sg _ BLACK p sp _ _ pnil HI2) st3 HI3 HN3;
        exists st3, (Fr L BLACK p sp (Tr RED g sg sibp U) :: ctx2), c, n, s, l, r;
        body_done HI3 HT
    | Inv _ (plug (Fr R _ _ _ _ :: Fr R _ _ _ ?U :: _) _) _ =>
        use_spec (set_color_spec st (Fr R cg g sg U :: ctx2) RED p sp _ _ pnil BLACK HI)
          st1 HI1 HN1;
        open_inv HI1 Hroot1 Hnd1; runr;
        use_spec (set_color_spec st1 ctx2 cg g sg _ _ pnil RED HI1) st2 HI2 HN2;
        open_inv HI2 Hroot2 Hnd2; runr;
        use_spec (left_rotate_spec st2 ctx2 RED g sg _ BLACK p sp _ _ pnil HI2) st3 HI3 HN3;
        exists st3, (Fr R BLACK p sp (Tr RED g sg U sibp) :: ctx2), c, n, s, l, r;
        body_done HI3 HT
    | Inv _ (plug (Fr R _ _ _ _ :: Fr L _ _ _ ?U :: _) _) _ =>
        use_spec (left_rotate_spec st (Fr L cg g sg U :: ctx2) RED p sp sibp c n s l r pnil HI)
          st1 HI1 HN1;
        open_inv HI1 Hroot1 Hnd1; runr;
        use_spec (set_color_spec st1 (Fr L cg g sg U :: ctx2) c n s _ _ pnil BLACK HI1)
          st2 HI2 HN2;
        open_inv HI2 Hroot2 Hnd2; runr;
        use_spec (set_color_spec st2 ctx2 cg g sg _ _ pnil RED HI2) st3 HI3 HN3;
        open_inv HI3 Hroot3 Hnd3; runr;
        use_spec (right_rotate_spec st3 ctx2 RED g sg _ BLACK n s _ _ pnil HI3) st4 HI4 HN4;
        exists st4, (Fr L BLACK n s (Tr RED g sg r U) :: ctx2), RED, p, sp, sibp, l;
        body_done HI4 HT
    | Inv _ (plug (Fr L _ _ _ _ :: Fr R _ _ _ ?U :: _) _) _ =>
        use_spec (right_rotate_spec st (Fr R cg g sg U :: ctx2) RED p sp _ c n s _ _ pnil HI)
          st1 HI1 HN1;
        open_inv HI1 Hroot1 Hnd1; runr;
        use_spec (set_color_spec st1 (Fr R cg g sg U :: ctx2) c n s _ _ pnil BLACK HI1)
          st2 HI2 HN2;
        open_inv HI2 Hroot2 Hnd2; runr;
        use_spec (set_color_spec st2 ctx2 cg g sg _ _ pnil RED HI2) st3 HI3 HN3;
        open_inv HI3 Hroot3 Hnd3; runr;
        use_spec (left_rotate_spec st3 ctx2 RED g sg _ BLACK n s _ _ pnil HI3) st4 HI4 HN4;
        exists st4, (Fr R BLACK n s (Tr RED g sg U l) :: ctx2), RED, p, sp, r, sibp;
        body_done HI4 HT
    end.
Qed.

Lemma fix_insert_loop : forall fuel st ctx c n s l r pnil T,
  (length ctx < fuel)%nat ->
  Inv st (plug ctx (Tr c n s l r)) pnil ->
  ins_fix ctx (Tr c n s l r) = Some T ->
  exists st' v,
    whileM fuel fix_insert_cond fix_insert_body (Some n) st = (Ret (inl v), st') /\
    Inv st' T pnil /\ NIL st' = NIL st /\ next st' = next st.
Proof.
  induction fuel as [|fuel IH]; intros st ctx c n s l r pnil T Hlen HI HT;
    [simpl in Hlen; lia|].
  cbn [whileM].
  destruct ctx as [|[dp cp p sp sibp] ctx1].
  - rewrite (bind_exec _ _ _ _ _ (fix_insert_cond_root _ _ _ _ _ _ _ HI)).
    injection HT as <-. eauto 10.
  - rewrite (bind_exec _ _ _ _ _ (fix_insert_cond_frame _ _ _ _ _ _ _ _ _ _ _ _ _ HI)).
    destruct cp; cbn [color_eqb].
    + destruct ctx1 as [|[dg cg g sg uncle] ctx2]; [discriminate HT|].
      destruct (fix_insert_body_spec _ _ _ _ _ _ _ _ _ _ _ _ _ _ _ _ _ _ HI HT)
        as (st1 & ctx' & c' & n' & s' & l' & r' & He & HI1 & HT1 & Hl & HN & Hnx).
      rewrite (bind_exec _ _ _ _ _ He).
      destruct (IH st1 ctx' c' n' s' l' r' pnil T) as (st2 & v & Hw & HI2 & HN2 & Hnx2);
        [simpl in Hlen; lia|exact HI1|exact HT1|].
      exists st2, v. rewrite Hw. split; [reflexivity|]. split; [exact HI2|]. split; congruence.
    + injection HT as <-. eauto 10.
Qed.

Lemma blacken_root_spec st T pnil :
  Inv st T pnil ->
  exists st',
    (let* r := get_root in set (with_color BLACK) r) st = (Ret tt, st') /\
    Inv st' (blacken T) pnil /\ NIL st' = NIL st /\ next st' = next st.
Proof.
  intros HI. destruct T as [|c a s l r].
  - destruct HI as [Hrep Hroot Hnd Hnil Hnext]. simpl in Hroot.
    exists (set_store (<[NIL st := mkNode None BLACK None None pnil]> (store st)) st).
    split; [runr; rewrite Hroot; run; reflexivity|].
    split; [|split; reflexivity].
    rewrite insert_id by exact Hnil. destruct st; constructor; assumption.
  - change (Tr c a s l r) with (plug [] (Tr c a s l r)) in HI.
    open_inv HI Hroot Hnd. simpl in Hroot. runr. rewrite Hroot.
    destruct (set_color_spec st [] c a s l r pnil BLACK HI) as (st1 & He & HI1 & HN & Hx).
    exists st1. auto.
Qed.

Lemma fix_insert_spec st ctx c n s l r pnil T :
  (length ctx < next st)%nat ->
  Inv st (plug ctx (Tr c n s l r)) pnil ->
  ins_fix ctx (Tr c n s l r) = Some T ->
  exists st',
    fix_insert (Some n) st = (Ret tt, st') /\
    Inv st' (blacken T) pnil /\ NIL st' = NIL st /\ next st' = next st.
Proof.
  intros Hlen HI HT. unfold fix_insert. rewrite bind_get_next.
  destruct (fix_insert_loop (next st) st ctx c n s l r pnil T Hlen HI HT)
    as (st1 & v & Hw & HI1 & HN1 & Hnx1).
  rewrite (bind_exec _ _ _ _ _ Hw).
  destruct (blacken_root_spec st1 T pnil HI1) as (st2 & He & HI2 & HN2 & Hnx2).
  exists st2. rewrite He. split; [reflexivity|]. split; [exact HI2|]. split; congruence.
Qed.

(** *** [insert] *)

Lemma rep_is_Some m nil : forall t par x,
  rep m nil par t -> x ∈ addrs t -> is_Some (m !! x).
Proof.
  induction t as [|c a s l IHl r IHr]; intros par x H Hx; simpl in *.
  - apply elem_of_nil in Hx. contradiction.
  - destruct H as (Ha & Hl & Hr).
    rewrite elem_of_cons, elem_of_app in Hx. destruct Hx as [->|[Hx|Hx]]; eauto.
Qed.

Lemma Inv_bound st T pnil x :
  Inv st T pnil -> x ∈ NIL st :: addrs T -> (x < next st)%nat.
Proof.
  intros [Hrep Hroot Hnd Hnil Hnext] Hx. apply Hnext.
  rewrite elem_of_cons in Hx. destruct Hx as [->|Hx]; [eauto|].
  eapply rep_is_Some; eassumption.
Qed.

Lemma Inv_fresh st T pnil : Inv st T pnil -> next st ∉ NIL st :: addrs T.
Proof. intros HI Hx. apply (Inv_bound _ _ _ _ HI) in Hx. lia. Qed.

Lemma nodup_bounded (l : list nat) (n : nat) :
  NoDup l -> (forall x, x ∈ l -> (x < n)%nat) -> (length l <= n)%nat.
Proof.
  intros Hnd Hb.
  assert (H : (length l <= length (seq 0%nat n))%nat).
  { apply NoDup_incl_length; [apply NoDup_ListNoDup; exact Hnd|].
    intros x Hx. apply in_seq. apply list_elem_of_In, Hb in Hx. lia. }
  rewrite length_seq in H. exact H.
Qed.

Lemma Inv_size st T pnil : Inv st T pnil -> (length (addrs T) < next st)%nat.
Proof.
  intros HI.
  pose proof (nodup_bounded (NIL st :: addrs T) (next st) (inv_nodup _ _ _ HI)
                (fun x => Inv_bound st T pnil x HI)) as H.
  exact H.
Qed.

Lemma new_node_spec st T pnil s :
  Inv st T pnil ->
  exists st1,
    new_node (Some s) st = (Ret (Some (next st)), st1) /\
    Inv st1 T pnil /\
    store st1 !! next st = Some (mkNode (Some s) RED None None None) /\
    NIL st1 = NIL st /\ next st1 = S (next st).
Proof.
  intros HI. pose proof (Inv_fresh _ _ _ HI) as Hf.
  rewrite not_elem_of_cons in Hf. destruct Hf as [Hf1 Hf2].
  destruct HI as [Hrep Hroot Hnd Hnil Hnext].
  eexists. split; [reflexivity|]. cbn [store NIL next root].
  split; [|split; [apply lookup_insert_eq|split; reflexivity]].
  constructor; cbn [store NIL next root].
  - apply rep_insert_ne; assumption.
  - exact Hroot.
  - exact Hnd.
  - rewrite lookup_insert_ne by congruence. exact Hnil.
  - intros a [v Ha]. destruct (decide (a = next st)) as [->|Hne]; [lia|].
    rewrite lookup_insert_ne in Ha by congruence.
    specialize (Hnext a (ex_intro _ v Ha)). lia.
Qed.

Lemma descend_length s : forall t ctx0 ctx,
  descend s t ctx0 = Ret ctx -> (length ctx <= length ctx0 + length (addrs t))%nat.
Proof.
  induction t as [|c a s' l IHl r IHr]; intros ctx0 ctx H; simpl in H.
  - injection H as <-. lia.
  - simpl. rewrite length_app.
    destruct (song_lt s s') as [[]|]; simpl in H; try discriminate.
    + apply IHl in H. simpl in H. lia.
    + apply IHr in H. simpl in H. lia.
Qed.

Lemma descend_head s : forall t ctx0 ctx,
  descend s t ctx0 = Ret ctx ->
  ctx = ctx0 \/
  exists f rest, ctx = f :: rest /\ song_lt s (fsong f) = Ret (goes_left (fside f)).
Proof.
  induction t as [|c a s' l IHl r IHr]; intros ctx0 ctx H; simpl in H.
  - injection H as <-. left. reflexivity.
  - destruct (song_lt s s') as [[]|] eqn:E; simpl in H; try discriminate.
    + apply IHl in H. destruct H as [->|H]; [|right; exact H].
      right. eexists _, _. split; [reflexivity|exact E].
    + apply IHr in H. destruct H as [->|H]; [|right; exact H].
      right. eexists _, _. split; [reflexivity|exact E].
Qed.

(** The descent of [insert] follows [descend]. *)
Lemma insert_loop st a s na :
  store st !! a = Some na -> song na = Some s ->
  forall t ctx par fuel,
    rep (store st) (NIL st) par t -> NIL st ∉ addrs t ->
    (length (addrs t) < fuel)%nat ->
    whileM fuel insert_cond (insert_body (Some a))
      (ctx_par ctx, Some (root_ref (NIL st) t)) st =
    match descend s t ctx with
    | Ret ctx' => (Ret (inl (ctx_par ctx', Some (NIL st))), st)
    | Raise e => (Raise e, st)
    end.
Proof.
  intros Ha Hs.
  induction t as [|c b s' l IHl r IHr]; intros ctx par fuel Hrep Hnil Hfuel;
    (destruct fuel as [|fuel]; [simpl in Hfuel; lia|]);
    cbn [whileM]; unfold insert_cond at 1; cbn [snd root_ref].
  - runr. reflexivity.
  - simpl in Hrep. destruct Hrep as (Hb & Hl & Hr).
    simpl in Hnil. rewrite not_elem_of_cons, not_elem_of_app in Hnil.
    destruct Hnil as (Hn1 & Hn2 & Hn3).
    simpl in Hfuel. rewrite length_app in Hfuel.
    runr. unfold insert_body at 1. cbn [snd]. runr. rewrite Hs.
    cbn [descend osong_lt]. unfold lift, bindM at 1.
    destruct (song_lt s s') as [[]|e]; cbn [bind]; [| |reflexivity].
    + runr. apply (IHl (Fr L c b s' r :: ctx) (Some b) fuel Hl Hn2). lia.
    + runr. apply (IHr (Fr R c b s' l :: ctx) (Some b) fuel Hr Hn3). lia.
Qed.

(** The writes of [insert] on the new node leave the tree in place. *)
Lemma Inv_insert_fresh st T pnil a n :
  Inv st T pnil -> a ∉ NIL st :: addrs T -> is_Some (store st !! a) ->
  Inv (set_store (<[a := n]> (store st)) st) T pnil.
Proof.
  intros [Hrep Hroot Hnd Hnil Hnext] Ha Hs.
  rewrite not_elem_of_cons in Ha. destruct Ha as [Ha1 Ha2].
  constructor; cbn [store set_store NIL next root].
  - apply rep_insert_ne; assumption.
  - exact Hroot.
  - exact Hnd.
  - rewrite lookup_insert_ne by congruence. exact Hnil.
  - apply next_bound_insert; assumption.
Qed.

Lemma insert_spec st t pnil s :
  Inv st t pnil ->
  match RedBlackModel.insert (next st) s t with
  | Raise e =>
      exists st', RedBlackTree.insert s st = (Raise e, st') /\ Inv st' t pnil /\ NIL st' = NIL st
  | Ret (Some T) =>
      exists st', RedBlackTree.insert s st = (Ret tt, st') /\ Inv st' T pnil /\ NIL st' = NIL st
  | Ret None => True
  end.
Proof.
  intros HI. unfold RedBlackModel.insert.
  pose proof (Inv_fresh _ _ _ HI) as Hfresh.
  pose proof (Inv_size _ _ _ HI) as Hsize.
  destruct (new_node_spec st t pnil s HI) as (st1 & Hnew & HI1 & Ha & HN1 & Hnx1).
  unfold RedBlackTree.insert. rewrite (bind_exec _ _ _ _ _ Hnew). clear Hnew.
  set (a := next st) in *.
  rewrite <- HN1 in Hfresh.
  assert (Hs1 : is_Some (store st1 !! a)) by eauto.
  pose proof (Inv_insert_fresh st1 t pnil a
                (mkNode (Some s) RED (Some (NIL st1)) None None) HI1 Hfresh Hs1) as HI2.
  assert (Hs2 : is_Some (store (set_store (<[a := mkNode (Some s) RED (Some (NIL st1)) None None]>
                                  (store st1)) st1) !! a))
    by (cbn [store set_store]; rewrite lookup_insert_eq; eauto).
  pose proof (Inv_insert_fresh _ t pnil a
                (mkNode (Some s) RED (Some (NIL st1)) (Some (NIL st1)) None) HI2 Hfresh Hs2)
    as HI3.
  cbn [store set_store NIL next root] in HI3.
  run.
  set (n2 := mkNode (Some s) RED (Some (NIL st1)) (Some (NIL st1)) None) in *.
  set (n1 := mkNode (Some s) RED (Some (NIL st1)) None None) in *.
  set (st2 := set_store (<[a := n2]> (<[a := n1]> (store st1)))
                (set_store (<[a := n1]> (store st1)) st1)) in *.
  assert (Hlk2 : store st2 !! a = Some n2) by apply lookup_insert_eq.
  assert (Hloop := insert_loop st2 a s n2 Hlk2 eq_refl t [] None (next st1)).
  cbn [ctx_par] in Hloop.
  change (NIL st2) with (NIL st1) in Hloop.
  rewrite (inv_root _ _ _ HI1).
  assert (Hloop' := Hloop (inv_rep _ _ _ HI3)); clear Hloop.
  assert (Hnn : NIL st1 ∉ addrs t).
  { pose proof (inv_nodup _ _ _ HI1) as Hnd. rewrite NoDup_cons in Hnd. tauto. }
  assert (Hloop := Hloop' Hnn ltac:(rewrite Hnx1; unfold a in Hsize; lia)); clear Hloop'.
  destruct (descend s t []) as [ctx|e] eqn:Hdesc; cbn [bind].
  2:{ exists st2. rewrite (bind_raise _ _ _ _ _ Hloop).
      split; [reflexivity|]. split; [exact HI3|exact HN1]. }
  rewrite (bind_exec _ _ _ _ _ Hloop). clear Hloop.
  destruct (ins_fix ctx (Tr RED a s Leaf Leaf)) as [T|] eqn:HT; cbn [fmap option_fmap option_map];
    [|exact I].
  pose proof (descend_plug _ _ _ _ Hdesc) as Hplug. cbn [plug] in Hplug. subst t.
  rewrite addrs_plug in Hfresh. cbn [addrs app] in Hfresh.
  pose proof (descend_length _ _ _ _ Hdesc) as Hlen. cbn [length] in Hlen.
  assert (Hlen2 : (length ctx < next st2)%nat).
  { change (next st2) with (next st1). rewrite Hnx1. unfold a in Hsize.
    unfold addr in *. lia. }
  assert (HN2 : NIL st2 = NIL st1) by reflexivity.
  pose proof (descend_head _ _ _ _ Hdesc) as Hhead.
  subst n2. clear Hdesc Hsize Hlen HI HI1 HI2 Ha Hs1 Hs2 Hnn. clearbody st2. clear n1.
  rewrite <- HN2 in *.
  assert (HP : NoDup (NIL st2 :: addrs (Tr RED a s Leaf Leaf) ++ ctx_addrs ctx)).
  { pose proof (inv_nodup _ _ _ HI3) as Hnd. rewrite addrs_plug in Hnd.
    cbn [addrs app] in *. rewrite NoDup_cons in Hnd. destruct Hnd as [Hn1 Hn2].
    rewrite not_elem_of_cons in Hfresh. destruct Hfresh as [Hf1 Hf2].
    apply NoDup_cons. split; [rewrite not_elem_of_cons; split; [congruence|exact Hn1]|].
    apply NoDup_cons. split; assumption. }
  destruct ctx as [|[d cf p0 sp sib] rest].
  - open_inv HI3 Hroot Hnd. distinct HP. cbn [ctx_par]. run.
    match goal with |- exists st', fix_insert _ ?S = _ /\ _ => set (st3 := S) end.
    assert (HI4 : Inv st3 (plug [] (Tr RED a s Leaf Leaf)) pnil).
    { apply Inv_zip. unfold st3. red_fields.
      split; [rep_tac|]. split; [rep_tac|]. split; [reflexivity|].
      split; [exact HP|]. split; [lk|next_tac Hnext]. }
    destruct (fix_insert_spec st3 [] RED a s Leaf Leaf pnil T Hlen2 HI4 HT)
      as (st4 & He & HI5 & HN5 & Hnx5).
    exists st4. split; [exact He|]. split; [exact HI5|]. rewrite HN5. unfold st3. cbn [NIL set_store].
    congruence.
  - destruct Hhead as [Hhead|(f & rest' & Hf & Hhead)]; [discriminate Hhead|].
    injection Hf as <- <-. cbn [fsong fside] in Hhead.
    destruct d; open_inv HI3 Hroot Hnd; distinct HP; cbn [ctx_par faddr]; run;
      cbn [osong_lt]; rewrite Hhead; cbn [goes_left]; rewrite bind_lift; run.
    all: match goal with |- exists st', fix_insert _ ?S = _ /\ _ => set (st3 := S) end.
    all: match type of HI3 with
      | Inv _ (plug (?f :: _) _) _ =>
        assert (HI4 : Inv st3 (plug (f :: rest) (Tr RED a s Leaf Leaf)) pnil)
          by (apply Inv_zip; unfold st3; red_fields;
              split; [rep_tac|]; split; [rep_tac|];
              split; [rewrite Hroot; f_equal; apply root_ref_plug_cons|];
              split; [exact HP|]; split; [lk|next_tac Hnext]);
        destruct (fix_insert_spec st3 (f :: rest) RED a s Leaf Leaf pnil T Hlen2 HI4 HT)
          as (st4 & He & HI5 & HN5 & Hnx5)
      end.
    all: exists st4; split; [exact He|]; split; [exact HI5|]; rewrite HN5; unfold st3;
      cbn [NIL set_store]; congruence.
Qed.

End RedBlackSim.

Module RedBlackInsert.
Import RedBlackTree RedBlackModel RedBlackRep RedBlackFacts RedBlackSim.

Lemma Inv_init : Inv init Leaf None.
Proof.
  constructor; cbn [init store NIL root next rep root_ref addrs].
  - exact I.
  - reflexivity.
  - apply NoDup_singleton.
  - apply lookup_singleton_eq.
  - intros a [v Ha]. apply lookup_singleton_Some in Ha. lia.
Qed.

Lemma inorder_blacken t : inorder (blacken t) = inorder t.
Proof. destruct t; reflexivity. Qed.

Lemma insert_inorder a s t T :
  RedBlackModel.insert a s t = Ret (Some T) ->
  exists l1 l2, inorder t = l1 ++ l2 /\ inorder T = l1 ++ s :: l2.
Proof.
  unfold RedBlackModel.insert. intros H.
  destruct (descend s t []) as [ctx|] eqn:Hd; simpl in H; [|discriminate].
  destruct (ins_fix ctx (Tr RED a s Leaf Leaf)) as [T'|] eqn:HT; simpl in H; [|discriminate].
  injection H as <-.
  apply descend_plug in Hd. simpl in Hd. subst t.
  apply (ins_fix_inorder (length ctx)) in HT; [|lia].
  exists (ctx_left ctx), (ctx_right ctx).
  rewrite inorder_blacken, HT, !inorder_plug. split; reflexivity.
Qed.

Lemma song_lt_raises x y e : song_lt x y = Raise e -> e = TypeError.
Proof.
  unfold song_lt, value_lt.
  destruct (getattr x (key x)), (getattr y (key y)); intros H; congruence.
Qed.

Lemma descend_raises s : forall t ctx e, descend s t ctx = Raise e -> e = TypeError.
Proof.
  induction t as [|c a s' l IHl r IHr]; intros ctx e H; simpl in H; [discriminate|].
  destruct (song_lt s s') as [[]|e'] eqn:E; simpl in H; eauto.
  injection H as <-. eapply song_lt_raises; eassumption.
Qed.

(** One [insert] on a red-black tree: the call returns and the tree is a
    red-black tree with the song added, or the comparison of two songs
    raised [TypeError] and the tree is as it was. *)
Lemma insert_keeps_red_black st t pnil s :
  Inv st t pnil -> is_red_black t = true ->
  exists r st' t',
    RedBlackTree.insert s st = (r, st') /\
    Inv st' t' pnil /\ is_red_black t' = true /\
    ((r = Ret tt /\ exists l1 l2, inorder t = l1 ++ l2 /\ inorder t' = l1 ++ s :: l2)
     \/ (r = Raise TypeError /\ t' = t)).
Proof.
  intros HI Hrb. pose proof (insert_spec st t pnil s HI) as H.
  destruct (RedBlackModel.insert (next st) s t) as [o|e] eqn:Hins.
  - destruct (insert_rb _ _ _ _ Hrb Hins) as (t' & -> & Hrb').
    destruct H as (st' & He & HI' & _).
    exists (Ret tt), st', t'. split; [exact He|]. split; [exact HI'|]. split; [exact Hrb'|].
    left. split; [reflexivity|]. eapply insert_inorder; eassumption.
  - destruct H as (st' & He & HI' & _).
    assert (e = TypeError) as ->.
    { unfold RedBlackModel.insert in Hins.
      destruct (descend s t []) as [ctx|e'] eqn:Hd; simpl in Hins; [discriminate|].
      injection Hins as <-. eapply descend_raises; eassumption. }
    exists (Raise TypeError), st', t. auto 10.
Qed.

Lemma insert_all_red_black_from : forall songs st t pnil,
  Inv st t pnil -> is_red_black t = true ->
  exists t', Inv (insert_all songs st) t' pnil /\ is_red_black t' = true.
Proof.
  induction songs as [|s songs IH]; intros st t pnil HI Hrb; simpl.
  - eauto.
  - destruct (insert_keeps_red_black st t pnil s HI Hrb) as (r & st' & t' & He & HI' & Hrb' & _).
    rewrite He. simpl. eapply IH; eassumption.
Qed.

End RedBlackInsert.

(** ** [RedBlackTree.search] on the tree of nodes *)
Module RedBlackSearch.
Import RedBlackTree RedBlackModel RedBlackRep RedBlackFacts RedBlackSim.

(** What [search] returns for what [find] finds. *)
Definition found_ref (nil : addr) (f : option (list frame * rbtree)) : ref :=
  match f with
  | None => None
  | Some (_, t) => Some (root_ref nil t)
  end.

Lemma search_rec_spec st s : forall t ctx par fuel,
  rep (store st) (NIL st) par t -> NIL st ∉ addrs t ->
  (length (addrs t) < fuel)%nat ->
  _search_recursive fuel (Some (root_ref (NIL st) t)) s st =
  match find s t ctx with
  | Ret f => (Ret (found_ref (NIL st) f), st)
  | Raise e => (Raise e, st)
  end.
Proof.
  induction t as [|c b s' l IHl r IHr]; intros ctx par fuel Hrep Hnil Hfuel;
    (destruct fuel as [|fuel]; [simpl in Hfuel; lia|]);
    cbn [_search_recursive root_ref find].
  - runr. reflexivity.
  - simpl in Hrep. destruct Hrep as (Hb & Hl & Hr).
    simpl in Hnil. rewrite not_elem_of_cons, not_elem_of_app in Hnil.
    destruct Hnil as (Hn1 & Hn2 & Hn3).
    simpl in Hfuel. rewrite length_app in Hfuel.
    runr. cbn [osong_eq]. rewrite bind_lift.
    destruct (song_eq s' s) eqn:E.
    + runr. reflexivity.
    + runr. cbn [osong_lt]. unfold lift, bindM at 1.
      destruct (song_lt s s') as [[]|e]; cbn [bind]; [| |reflexivity].
      * runr. apply (IHl (Fr L c b s' r :: ctx) (Some b) fuel Hl Hn2). lia.
      * runr. apply (IHr (Fr R c b s' l :: ctx) (Some b) fuel Hr Hn3). lia.
Qed.

Lemma search_spec st t pnil s :
  Inv st t pnil ->
  RedBlackTree.search s st =
  match find s t [] with
  | Ret f => (Ret (found_ref (NIL st) f), st)
  | Raise e => (Raise e, st)
  end.
Proof.
  intros HI. unfold RedBlackTree.search. runr. rewrite (inv_root _ _ _ HI).
  apply (search_rec_spec st s t [] None (next st) (inv_rep _ _ _ HI)).
  - pose proof (inv_nodup _ _ _ HI) as Hnd. rewrite NoDup_cons in Hnd. tauto.
  - eapply Inv_size. exact HI.
Qed.

Lemma find_lookup m nil s : forall t ctx par ctx' c a y l r,
  rep m nil par t -> find s t ctx = Ret (Some (ctx', Tr c a y l r)) ->
  (exists n, m !! a = Some n /\ song n = Some y) /\
  song_eq y s = true /\ In y (inorder t).
Proof.
  induction t as [|c0 b s' l0 IHl r0 IHr]; intros ctx par ctx' c a y l r Hrep H;
    simpl in H; [discriminate|].
  simpl in Hrep. destruct Hrep as (Hb & Hl & Hr). simpl.
  destruct (song_eq s' s) eqn:E.
  - injection H as <- <- <- <- <- <-. split; [eauto|]. split; [exact E|].
    apply in_or_app. right. left. reflexivity.
  - destruct (song_lt s s') as [[]|e]; simpl in H; [| |discriminate].
    + destruct (IHl _ _ _ _ _ _ _ _ Hl H) as (H1 & H2 & H3).
      split; [exact H1|]. split; [exact H2|]. apply in_or_app. left. exact H3.
    + destruct (IHr _ _ _ _ _ _ _ _ Hr H) as (H1 & H2 & H3).
      split; [exact H1|]. split; [exact H2|]. apply in_or_app. right. right. exact H3.
Qed.

Lemma find_is_node s : forall t ctx ctx' z,
  find s t ctx = Ret (Some (ctx', z)) -> exists c a y l r, z = Tr c a y l r.
Proof.
  induction t as [|c0 b s' l0 IHl r0 IHr]; intros ctx ctx' z H; simpl in H; [discriminate|].
  destruct (song_eq s' s).
  - injection H as <- <-. eauto 6.
  - destruct (song_lt s s') as [[]|e]; simpl in H; [| |discriminate]; eauto.
Qed.

(** [delete] of a song that [search] does not find changes nothing. *)
Lemma delete_not_found st t pnil s :
  Inv st t pnil -> find s t [] = Ret None ->
  RedBlackTree.delete s st = (Ret (NotFound ("Song " ++ title s ++ " not found in the tree.")), st).
Proof.
  intros HI Hf. unfold RedBlackTree.delete.
  pose proof (search_spec st t pnil s HI) as Hs. rewrite Hf in Hs. cbn [found_ref] in Hs.
  rewrite (bind_exec _ _ _ _ _ Hs). reflexivity.
Qed.

End RedBlackSearch.

(** * Further properties of the code *)

(** ** Inserting into the red-black tree *)

(** *** Two trees of objects built by [insert] *)

(** The tree of objects after [insert] of [songA] and [songB] into a new
    tree: [songA] at the root, [songB] its right child. *)
Lemma Inv_two_songs :
  RedBlackRep.Inv (RedBlackRep.insert_all [songA; songB] RedBlackTree.init)
    (RedBlackModel.Tr RedBlackTree.BLACK 1%nat songA RedBlackModel.Leaf
       (RedBlackModel.Tr RedBlackTree.RED 2%nat songB
          RedBlackModel.Leaf RedBlackModel.Leaf))
    None.
Proof.
  unfold RedBlackRep.insert_all. cbn [fold_left].
  pose proof (RedBlackSim.insert_spec RedBlackTree.init RedBlackModel.Leaf None songA
                RedBlackInsert.Inv_init) as H1.
  change (RedBlackModel.insert (RedBlackTree.next RedBlackTree.init) songA
            RedBlackModel.Leaf)
    with (Ret (Some (RedBlackModel.Tr RedBlackTree.BLACK 1%nat songA
                       RedBlackModel.Leaf RedBlackModel.Leaf))) in H1.
  destruct H1 as (st1 & E1 & I1 & _).
  assert (Hn : RedBlackTree.next st1 = 2%nat).
  { replace st1 with (snd (RedBlackTree.insert songA RedBlackTree.init))
      by (rewrite E1; reflexivity).
    vm_compute. reflexivity. }
  rewrite E1. cbn [snd].
  pose proof (RedBlackSim.insert_spec st1 _ None songB I1) as H2.
  rewrite Hn in H2.
  change (RedBlackModel.insert 2%nat songB
            (RedBlackModel.Tr RedBlackTree.BLACK 1%nat songA
               RedBlackModel.Leaf RedBlackModel.Leaf))
    with (Ret (Some (RedBlackModel.Tr RedBlackTree.BLACK 1%nat songA RedBlackModel.Leaf
                       (RedBlackModel.Tr RedBlackTree.RED 2%nat songB
                          RedBlackModel.Leaf RedBlackModel.Leaf)))) in H2.
  destruct H2 as (st2 & E2 & I2 & _).
  rewrite E2. exact I2.
Qed.

(** The tree of objects after [insert] of [songA], [songB] and [songC]:
    the third [insert] rotates, [songB] is at the root. *)
Lemma Inv_three_songs :
  RedBlackRep.Inv (RedBlackRep.insert_all [songA; songB; songC] RedBlackTree.init)
    (RedBlackModel.Tr RedBlackTree.BLACK 2%nat songB
       (RedBlackModel.Tr RedBlackTree.RED 1%nat songA
          RedBlackModel.Leaf RedBlackModel.Leaf)
       (RedBlackModel.Tr RedBlackTree.RED 3%nat songC
          RedBlackModel.Leaf RedBlackModel.Leaf))
    None.
Proof.
  change (RedBlackRep.insert_all [songA; songB; songC] RedBlackTree.init)
    with (snd (RedBlackTree.insert songC
                 (RedBlackRep.insert_all [songA; songB] RedBlackTree.init))).
  pose proof (RedBlackSim.insert_spec _ _ None songC Inv_two_songs) as H.
  assert (Hn : RedBlackTree.next
                 (RedBlackRep.insert_all [songA; songB] RedBlackTree.init) = 3%nat)
    by (vm_compute; reflexivity).
  rewrite Hn in H.
  change (RedBlackModel.insert 3%nat songC
            (RedBlackModel.Tr RedBlackTree.BLACK 1%nat songA RedBlackModel.Leaf
               (RedBlackModel.Tr RedBlackTree.RED 2%nat songB
                  RedBlackModel.Leaf RedBlackModel.Leaf)))
    with (Ret (Some (RedBlackModel.Tr RedBlackTree.BLACK 2%nat songB
                       (RedBlackModel.Tr RedBlackTree.RED 1%nat songA
                          RedBlackModel.Leaf RedBlackModel.Leaf)
                       (RedBlackModel.Tr RedBlackTree.RED 3%nat songC
                          RedBlackModel.Leaf RedBlackModel.Leaf)))) in H.
  destruct H as (st' & E & I & _).
  rewrite E. exact I.
Qed.



(** X2 (RedBlackTree.__init__, insert): after any sequence of [insert]
    calls on a new [RedBlackTree], the objects reachable from the root form
    a tree that satisfies the red-black conditions: black root, no red node
    with a red child, the same number of black nodes on every path. *)
Theorem rbt_insert_sequence_red_black (songs : list Song) :
  exists t,
    RedBlackRep.Inv (RedBlackRep.insert_all songs RedBlackTree.init) t None /\
    RedBlackModel.is_red_black t = true.
Proof.
  apply (RedBlackInsert.insert_all_red_black_from songs RedBlackTree.init RedBlackModel.Leaf).
  - apply RedBlackInsert.Inv_init.
  - reflexivity.
Qed.

(** ** The playlists of the application *)

Lemma find_none_title (t : string) (l : list Song) :
  (forall s, In s l -> title s <> t) ->
  List.find (fun s => String.eqb (title s) t) l = None.
Proof.
  induction l as [|x l IH]; intros H; simpl; [reflexivity|].
  destruct (String.eqb_spec (title x) t) as [E|E].
  - exfalso. apply (H x); [left; reflexivity|exact E].
  - apply IH. intros s Hs. apply H. right. exact Hs.
Qed.

Lemma find_some_title (t : string) (l : list Song) (s : Song) :
  In s l -> title s = t ->
  exists s', List.find (fun s => String.eqb (title s) t) l = Some s'.
Proof.
  induction l as [|x l IH]; intros Hs Ht; simpl; [contradiction|].
  destruct (String.eqb_spec (title x) t) as [E|E]; [eauto|].
  destruct Hs as [->|Hs]; [contradiction|]. apply IH; assumption.
Qed.

(** X3 (MusicApp.delete_song): when no song of the playlist has the title,
    [delete_song] reports that the title was not found and changes
    nothing: not the lists, the total time or the trees of this playlist,
    nor any other playlist. *)
Theorem delete_song_absent_unchanged (depth : nat) (st : MusicApp.app) (n t : string)
    (p : MusicApp.Playlist) :
  st !! n = Some p ->
  (forall s, In s (MusicApp.songs p) -> title s <> t) ->
  MusicApp.delete_song depth n t st = (Ret (MusicApp.NotInLibrary t), st).
Proof.
  intros Hp Hs. unfold MusicApp.delete_song, MusicApp.on_playlist. rewrite Hp.
  unfold bindM at 1. unfold MusicApp.read at 1.
  rewrite (find_none_title t _ Hs). cbn. f_equal. apply insert_id. exact Hp.
Qed.

Lemma delete_song_absent_unchanged_witness :
  MusicApp.delete_song recursion_limit "mine" "Z" library
  = (Ret (MusicApp.NotInLibrary "Z"), library).
Proof.
  assert (H : exists p, library !! "mine" = Some p /\
            forallb (fun s => negb (String.eqb (title s) "Z")) (MusicApp.songs p) = true).
  { eexists. split; vm_compute; reflexivity. }
  destruct H as (p & Hp & Hs).
  apply (delete_song_absent_unchanged recursion_limit library "mine" "Z" p Hp).
  intros s Hin Ht. rewrite forallb_forall in Hs. specialize (Hs s Hin).
  rewrite <- Ht, String.eqb_refl in Hs. discriminate Hs.
Defined.

(** X4 (MusicApp.delete_song): whenever some song of the playlist has the
    title, [delete_song] raises [TypeError] (a list subscripted by a song)
    before it has changed anything: the whole application state is as
    before the call. *)
Theorem delete_song_found_raises (depth : nat) (st : MusicApp.app) (n t : string)
    (p : MusicApp.Playlist) (s : Song) :
  st !! n = Some p -> In s (MusicApp.songs p) -> title s = t ->
  MusicApp.delete_song depth n t st = (Raise TypeError, st).
Proof.
  intros Hp Hs Ht. destruct (find_some_title t _ s Hs Ht) as [s' Hf].
  unfold MusicApp.delete_song, MusicApp.on_playlist. rewrite Hp.
  unfold bindM at 1. unfold MusicApp.read at 1. rewrite Hf.
  cbn. f_equal. apply insert_id. exact Hp.
Qed.

Lemma delete_song_found_raises_witness :
  MusicApp.delete_song recursion_limit "mine" "A" library = (Raise TypeError, library).
Proof.
  assert (H : exists p, library !! "mine" = Some p /\
            MusicApp.songs p !! 0%nat = Some (Song_init "A" "artist" "album" "genre" 200)).
  { eexists. split; vm_compute; reflexivity. }
  destruct H as (p & Hp & Hs).
  apply (delete_song_found_raises recursion_limit library "mine" "A" p
           (Song_init "A" "artist" "album" "genre" 200) Hp).
  - apply list_elem_of_In. eapply list_elem_of_lookup_2. exact Hs.
  - reflexivity.
Defined.

(** X5 (MusicApp.add_song, delete_song, shuffle_playlist): a playlist name
    that is no key of [self.playlists] makes each of the three raise
    [KeyError], and the application state stays as it was. *)
Theorem missing_playlist_raises_KeyError (depth : nat) (st : MusicApp.app) (n : string)
    (title_ artist_ album_ genre_ : string) (song_time : Z) (draws : list nat) :
  st !! n = None ->
  MusicApp.add_song depth n title_ artist_ album_ genre_ song_time st
  = (Raise KeyError, st) /\
  MusicApp.delete_song depth n title_ st = (Raise KeyError, st) /\
  MusicApp.shuffle_playlist draws n st = (Raise KeyError, st).
Proof.
  intros H.
  unfold MusicApp.add_song, MusicApp.delete_song, MusicApp.shuffle_playlist,
    MusicApp.on_playlist.
  rewrite H. repeat split.
Qed.

Lemma missing_playlist_raises_KeyError_witness :
  MusicApp.add_song recursion_limit "other" "T" "a" "b" "g" 10 library
  = (Raise KeyError, library) /\
  MusicApp.delete_song recursion_limit "other" "T" library = (Raise KeyError, library) /\
  MusicApp.shuffle_playlist [1%nat] "other" library = (Raise KeyError, library).
Proof.
  apply (missing_playlist_raises_KeyError recursion_limit library
           "other" "T" "a" "b" "g" 10 [1%nat]).
  vm_compute. reflexivity.
Defined.

(** X6 (MusicApp.add_playlist, delete_playlist): [add_playlist] puts an
    empty playlist under the name, replacing a playlist that was there
    (its songs are gone), and touches no other name; [delete_playlist]
    after it undoes the addition and removes what was there; and
    [delete_playlist] of a name that is not there only reports it. *)
Theorem add_delete_playlist (st : MusicApp.app) (n : string) :
  let st' := snd (Playlists.add_playlist n st) in
  st' !! n = Some (MusicApp.Playlist_init n) /\
  (forall m, m <> n -> st' !! m = st !! m) /\
  Playlists.delete_playlist n st' = (Ret (Playlists.PlaylistDeleted n), delete n st) /\
  Playlists.delete_playlist n (delete n st) = (Ret (Playlists.DoesNotExist n), delete n st).
Proof.
  unfold Playlists.add_playlist, Playlists.delete_playlist. cbv zeta. cbn [snd].
  split; [apply lookup_insert_eq|].
  split; [intros m Hm; apply lookup_insert_ne; congruence|].
  split.
  - rewrite (lookup_insert_eq st n). f_equal. apply delete_insert_eq.
  - rewrite (lookup_delete_eq st n). reflexivity.
Qed.

(** ** Linear search *)

Lemma linear_search_from_spec (songs : list Song) (x : Song) : forall index,
  (linear_search_from index songs x = -1 /\
   Forall (fun s => song_eq s x = false) songs /\ 0 <= index
   \/ linear_search_from index songs x = -1 /\ index < 0)
  \/ exists i s,
       linear_search_from index songs x = index + Z.of_nat i /\
       songs !! i = Some s /\ song_eq s x = true /\
       Forall (fun s => song_eq s x = false) (take i songs).
Proof.
  induction songs as [|y songs IH]; intros index; simpl.
  - destruct (Z.lt_ge_cases index 0); [left; right; auto|left; left; auto].
  - destruct (song_eq y x) eqn:E.
    + right. exists 0%nat, y. rewrite Z.add_0_r. simpl. auto.
    + destruct (IH (index + 1)) as [[(H1 & H2 & H3)|(H1 & H2)]|(i & s & H1 & H2 & H3 & H4)].
      * destruct (Z.lt_ge_cases index 0); [left; right; auto|].
        left. left. auto.
      * left. right. split; [exact H1|lia].
      * right. exists (S i), s. simpl. split; [rewrite H1; lia|]. auto.
Qed.

(** X7 (MusicApp.linear_search): the result is the index of the first song
    equal to the target (equal under the songs' keys), and it is -1 exactly
    when no song of the list equals the target. *)
Theorem linear_search_first_match (songs : list Song) (x : Song) :
  (linear_search songs x = -1 /\ Forall (fun s => song_eq s x = false) songs)
  \/ exists i s,
       linear_search songs x = Z.of_nat i /\
       songs !! i = Some s /\ song_eq s x = true /\
       Forall (fun s => song_eq s x = false) (take i songs).
Proof.
  unfold linear_search.
  destruct (linear_search_from_spec songs x 0)
    as [[(H1 & H2 & _)|(_ & H)]|(i & s & H1 & H2 & H3 & H4)]; [auto|lia|].
  right. exists i, s. rewrite H1. auto.
Qed.

(** ** The binary search tree *)

(** The turns of the loop a stack entry costs: one for each of its nodes,
    and one for an empty tree. *)
Definition turns (t : BinarySearchTree.TreeNode) : nat :=
  match t with
  | BinarySearchTree.Nil => 1
  | _ => BinarySearchTree.size t
  end.

Fixpoint stack_turns (stack : list BinarySearchTree.TreeNode) : nat :=
  match stack with
  | [] => 0
  | t :: stack' => turns t + stack_turns stack'
  end.

Lemma dfs_loop_preorder : forall fuel stack,
  (stack_turns stack <= fuel)%nat ->
  omap BinarySearchTree.node_song (BinarySearchTree.dfs_loop fuel stack)
  = flat_map BinarySearchTree.preorder stack.
Proof.
  induction fuel as [|fuel IH]; intros stack Hf.
  { destruct stack as [|[|s l r] stack]; [reflexivity|simpl in Hf; lia..]. }
  destruct stack as [|[|s l r] stack]; [reflexivity| |].
  - cbn [stack_turns turns] in Hf. simpl. apply IH. lia.
  - cbn [stack_turns turns BinarySearchTree.size] in Hf.
    cbn [BinarySearchTree.dfs_loop flat_map BinarySearchTree.preorder].
    change (omap BinarySearchTree.node_song (BinarySearchTree.Node s l r :: ?x))
      with (s :: omap BinarySearchTree.node_song x).
    rewrite <- app_comm_cons. f_equal. rewrite <- app_assoc.
    destruct r as [|sr rl rr], l as [|sl ll lr]; cbn [BinarySearchTree.is_nil];
      (rewrite IH; [reflexivity|cbn [stack_turns turns BinarySearchTree.size] in *; lia]).
Qed.

(** X8 (BinarySearchTree.__iter__, node_depth_first_iter): iterating over
    a binary search tree visits every node once, in pre-order: a node, then
    its left subtree, then its right subtree. (So the songs do not come in
    ascending order unless the tree is a right spine.) *)
Theorem bst_iter_preorder (root : BinarySearchTree.TreeNode) :
  BinarySearchTree.iter_songs root = BinarySearchTree.preorder root.
Proof.
  unfold BinarySearchTree.iter_songs, BinarySearchTree.node_depth_first_iter.
  rewrite dfs_loop_preorder; [simpl; apply app_nil_r|].
  destruct root; simpl; lia.
Qed.

Lemma value_eq_refl v : value_eq v v = true.
Proof. destruct v; simpl; [apply String.eqb_refl|apply Z.eqb_refl]. Qed.

Lemma bst_insert_rec_then_search (s : Song) : forall depth t t',
  BinarySearchTree._insert_recursive depth t s = Ret t' ->
  exists n y, BinarySearchTree._search_recursive (S depth) t' s = Ret (Some n) /\
              BinarySearchTree.node_song n = Some y /\ song_eq y s = true.
Proof.
  assert (Hnew : forall d,
            exists n y,
              BinarySearchTree._search_recursive (S d)
                (BinarySearchTree.Node s BinarySearchTree.Nil BinarySearchTree.Nil) s
              = Ret (Some n) /\
              BinarySearchTree.node_song n = Some y /\ song_eq y s = true).
  { intros d. cbn [BinarySearchTree._search_recursive].
    unfold song_eq at 1. rewrite value_eq_refl.
    eexists _, s. split; [reflexivity|]. split; [reflexivity|].
    unfold song_eq. apply value_eq_refl. }
  induction depth as [|d IH]; intros t t' H; [discriminate H|].
  destruct t as [|y l r]; [discriminate H|].
  cbn [BinarySearchTree._insert_recursive] in H.
  destruct (song_lt s y) as [[]|] eqn:E; cbn [bind] in H; [| |discriminate].
  - destruct l as [|ly ll lr].
    + injection H as <-.
      cbn [BinarySearchTree._search_recursive].
      destruct (song_eq y s) eqn:Ey; [eexists _, y; auto|].
      rewrite E. cbn [bind]. destruct (Hnew d) as (n & z & H1 & H2).
      cbn [BinarySearchTree._search_recursive] in H1. exists n, z. auto.
    + destruct (BinarySearchTree._insert_recursive d _ s) as [l'|] eqn:El;
        cbn [bind] in H; [|discriminate].
      injection H as <-.
      destruct (IH _ _ El) as (n & z & H1 & H2).
      remember (S d) as d1. cbn [BinarySearchTree._search_recursive].
      destruct (song_eq y s) eqn:Ey; [eexists _, y; auto|].
      rewrite E. cbn [bind]. exists n, z. auto.
  - destruct r as [|ry rl rr].
    + injection H as <-.
      cbn [BinarySearchTree._search_recursive].
      destruct (song_eq y s) eqn:Ey; [eexists _, y; auto|].
      rewrite E. cbn [bind]. destruct (Hnew d) as (n & z & H1 & H2).
      cbn [BinarySearchTree._search_recursive] in H1. exists n, z. auto.
    + destruct (BinarySearchTree._insert_recursive d _ s) as [r'|] eqn:Er;
        cbn [bind] in H; [|discriminate].
      injection H as <-.
      destruct (IH _ _ Er) as (n & z & H1 & H2).
      remember (S d) as d1. cbn [BinarySearchTree._search_recursive].
      destruct (song_eq y s) eqn:Ey; [eexists _, y; auto|].
      rewrite E. cbn [bind]. exists n, z. auto.
Qed.

(** X9 (BinarySearchTree.insert, search): after [insert(song)] has
    returned, [search(song)] returns a node whose song equals the song
    searched for, when it may go one call deeper than the [insert] did: the
    search calls itself on the new node, too, where [insert] only assigned
    it to a field. *)
Theorem bst_insert_then_search (depth : nat) (t t' : BinarySearchTree.TreeNode) (s : Song) :
  BinarySearchTree.insert depth t s = Ret t' ->
  exists n y, BinarySearchTree.search (S depth) t' s = Ret (Some n) /\
              BinarySearchTree.node_song n = Some y /\ song_eq y s = true.
Proof.
  unfold BinarySearchTree.insert, BinarySearchTree.search.
  destruct t as [|y l r]; intros H.
  - injection H as <-. cbn [BinarySearchTree._search_recursive].
    unfold song_eq at 1. rewrite value_eq_refl.
    eexists _, s. split; [reflexivity|]. split; [reflexivity|].
    unfold song_eq. apply value_eq_refl.
  - exact (bst_insert_rec_then_search s depth _ t' H).
Qed.

Lemma bst_insert_then_search_witness :
  exists n y,
    BinarySearchTree.search 3
      (BinarySearchTree.Node songB
         (BinarySearchTree.Node songA BinarySearchTree.Nil BinarySearchTree.Nil)
         (BinarySearchTree.Node songD
            (BinarySearchTree.Node songC BinarySearchTree.Nil BinarySearchTree.Nil)
            BinarySearchTree.Nil))
      songC
      = Ret (Some n) /\
    BinarySearchTree.node_song n = Some y /\ song_eq y songC = true.
Proof.
  apply (bst_insert_then_search 2
           (BinarySearchTree.Node songB
              (BinarySearchTree.Node songA BinarySearchTree.Nil BinarySearchTree.Nil)
              (BinarySearchTree.Node songD BinarySearchTree.Nil BinarySearchTree.Nil))
           _ songC).
  reflexivity.
Defined.

(** ** The trees keep the songs in ascending order *)

(** All the songs of [l] are compared under the key [k]. *)
Definition keyed (k : Key) (l : list Song) : Prop := Forall (fun s => key s = k) l.

(** No song of [l] is below a song before it. *)
Definition ascending (k : Key) (l : list Song) : Prop :=
  StronglySorted (fun a b => key_ltb k b a = false) l.

Lemma key_ltb_lt_le k a b c :
  key_ltb k a b = true -> key_ltb k c b = false -> key_ltb k a c = true.
Proof.
  intros H1 H2. destruct (key_ltb k a c) eqn:E; [reflexivity|].
  rewrite (key_ltb_neg_trans k b c a H2 E) in H1. discriminate.
Qed.

Lemma ascending_app_inv k l1 l2 :
  ascending k (l1 ++ l2) ->
  ascending k l1 /\ ascending k l2 /\
  Forall (fun a => Forall (fun b => key_ltb k b a = false) l2) l1.
Proof.
  unfold ascending. induction l1 as [|x l1 IH]; simpl; intros H.
  - split; [constructor|]. split; [exact H|constructor].
  - apply StronglySorted_inv in H. destruct H as [H1 H2].
    destruct (IH H1) as (Ha & Hb & Hc). rewrite Forall_app in H2. destruct H2 as [H2 H3].
    split; [constructor; assumption|]. split; [exact Hb|]. constructor; assumption.
Qed.

Lemma ascending_app k l1 l2 :
  ascending k l1 -> ascending k l2 ->
  Forall (fun a => Forall (fun b => key_ltb k b a = false) l2) l1 ->
  ascending k (l1 ++ l2).
Proof.
  unfold ascending. induction l1 as [|x l1 IH]; simpl; intros H1 H2 H3; [exact H2|].
  apply StronglySorted_inv in H1. destruct H1 as [H1 H1'].
  apply Forall_cons in H3. destruct H3 as [H3 H3'].
  constructor; [apply IH; assumption|]. rewrite Forall_app. split; assumption.
Qed.

(** A song put after the songs that are not above it and before the songs
    that are above it keeps the list ascending. *)
Lemma ascending_insert k s l1 l2 :
  ascending k (l1 ++ l2) ->
  Forall (fun y => key_ltb k s y = false) l1 ->
  Forall (fun y => key_ltb k s y = true) l2 ->
  ascending k (l1 ++ s :: l2).
Proof.
  intros H H1 H2. destruct (ascending_app_inv _ _ _ H) as (Ha & Hb & Hc).
  apply ascending_app; [exact Ha| |].
  - constructor; [exact Hb|].
    eapply Forall_impl; [exact H2|]. intros y Hy. apply key_ltb_asym. exact Hy.
  - rewrite Forall_forall in *. intros a Ha'. constructor; [apply H1, Ha'|].
    apply Hc, Ha'.
Qed.

Lemma bst_height_size (t : BinarySearchTree.TreeNode) :
  (BinarySearchTree.height t <= BinarySearchTree.size t)%nat.
Proof.
  induction t as [|y l IHl r IHr]; cbn [BinarySearchTree.height BinarySearchTree.size]; lia.
Qed.

Lemma bst_size_inorder (t : BinarySearchTree.TreeNode) :
  BinarySearchTree.size t = length (BinarySearchTree.inorder t).
Proof.
  induction t as [|y l IHl r IHr]; cbn [BinarySearchTree.inorder BinarySearchTree.size];
    [reflexivity|].
  rewrite length_app. cbn [length]. lia.
Qed.

(** [_insert_recursive] at a node, with a call for every level of the
    tree below it. *)
Lemma bst_insert_rec_split k s : forall depth y l r,
  (BinarySearchTree.height (BinarySearchTree.Node y l r) <= depth)%nat ->
  keyed k (BinarySearchTree.inorder (BinarySearchTree.Node y l r)) -> key s = k ->
  ascending k (BinarySearchTree.inorder (BinarySearchTree.Node y l r)) ->
  exists t' l1 l2,
    BinarySearchTree._insert_recursive depth (BinarySearchTree.Node y l r) s = Ret t' /\
    BinarySearchTree.inorder (BinarySearchTree.Node y l r) = l1 ++ l2 /\
    BinarySearchTree.inorder t' = l1 ++ s :: l2 /\
    Forall (fun y => key_ltb k s y = false) l1 /\
    Forall (fun y => key_ltb k s y = true) l2.
Proof.
  induction depth as [|d IH]; intros y l r Hd Hk Hs Ha;
    [cbn [BinarySearchTree.height] in Hd; lia|].
  cbn [BinarySearchTree.height] in Hd.
  cbn [BinarySearchTree.inorder] in Hk, Ha.
  pose proof Hk as Hk'. unfold keyed in Hk'. rewrite Forall_app, Forall_cons in Hk'.
  destruct Hk' as (Hkl & Hy & Hkr).
  destruct (ascending_app_inv _ _ _ Ha) as (Hal & Har & Hlr).
  apply StronglySorted_inv in Har. destruct Har as [Har Hyr].
  cbn [BinarySearchTree._insert_recursive].
  rewrite (song_lt_key k s y Hs Hy). cbn [bind].
  destruct (key_ltb k s y) eqn:E.
  - assert (Hr2 : Forall (fun z => key_ltb k s z = true) (y :: BinarySearchTree.inorder r)).
    { constructor; [exact E|].
      eapply Forall_impl; [exact Hyr|]. intros z Hz. cbv beta in Hz.
      eapply key_ltb_lt_le; eassumption. }
    destruct l as [|ly ll lr].
    + exists (BinarySearchTree.Node y
                (BinarySearchTree.Node s BinarySearchTree.Nil BinarySearchTree.Nil) r),
        [], (y :: BinarySearchTree.inorder r).
      split; [reflexivity|]. split; [reflexivity|]. split; [reflexivity|].
      split; [constructor|exact Hr2].
    + destruct (IH ly ll lr) as (l' & l1 & l2 & Hi & H1 & H2 & H3 & H4);
        [lia|exact Hkl|exact Hs|exact Hal|].
      rewrite Hi. cbn [bind].
      exists (BinarySearchTree.Node y l' r), l1, (l2 ++ y :: BinarySearchTree.inorder r).
      split; [reflexivity|]. cbn [BinarySearchTree.inorder] in H1 |- *.
      rewrite H1, H2, <- !app_assoc. cbn [app].
      split; [reflexivity|]. split; [reflexivity|]. split; [exact H3|].
      rewrite Forall_app. split; [exact H4|exact Hr2].
  - assert (Hl1 : Forall (fun z => key_ltb k s z = false) (BinarySearchTree.inorder l ++ [y])).
    { rewrite Forall_app. split; [|constructor; [exact E|constructor]].
      rewrite Forall_forall in Hlr |- *. intros z Hz. specialize (Hlr z Hz).
      apply Forall_cons in Hlr. destruct Hlr as [Hzy _].
      eapply key_ltb_neg_trans; eassumption. }
    destruct r as [|ry rl rr].
    + exists (BinarySearchTree.Node y l
                (BinarySearchTree.Node s BinarySearchTree.Nil BinarySearchTree.Nil)),
        (BinarySearchTree.inorder l ++ [y]), [].
      split; [reflexivity|]. cbn [BinarySearchTree.inorder].
      rewrite <- !app_assoc, app_nil_r. cbn [app].
      split; [reflexivity|]. split; [reflexivity|]. split; [exact Hl1|constructor].
    + destruct (IH ry rl rr) as (r' & l1 & l2 & Hi & H1 & H2 & H3 & H4);
        [lia|exact Hkr|exact Hs|exact Har|].
      rewrite Hi. cbn [bind].
      exists (BinarySearchTree.Node y l r'), ((BinarySearchTree.inorder l ++ [y]) ++ l1), l2.
      split; [reflexivity|]. cbn [BinarySearchTree.inorder] in H1 |- *.
      rewrite H1, H2, <- !app_assoc. cbn [app].
      split; [reflexivity|]. split; [reflexivity|]. split; [|exact H4].
      rewrite Forall_app, Forall_cons in Hl1. rewrite Forall_app, Forall_cons. tauto.
Qed.

Lemma bst_insert_split k s depth t :
  (BinarySearchTree.height t <= depth)%nat ->
  keyed k (BinarySearchTree.inorder t) -> key s = k ->
  ascending k (BinarySearchTree.inorder t) ->
  exists t' l1 l2,
    BinarySearchTree.insert depth t s = Ret t' /\
    BinarySearchTree.inorder t = l1 ++ l2 /\
    BinarySearchTree.inorder t' = l1 ++ s :: l2 /\
    Forall (fun y => key_ltb k s y = false) l1 /\
    Forall (fun y => key_ltb k s y = true) l2.
Proof.
  intros Hd Hk Hs Ha. unfold BinarySearchTree.insert. destruct t as [|y l r].
  - exists (BinarySearchTree.Node s BinarySearchTree.Nil BinarySearchTree.Nil), [], [].
    repeat split; constructor.
  - apply (bst_insert_rec_split k s depth y l r Hd Hk Hs Ha).
Qed.

Lemma bst_insert_order_step (k : Key) (s : Song) (depth : nat)
    (t : BinarySearchTree.TreeNode) :
  (BinarySearchTree.height t <= depth)%nat ->
  keyed k (BinarySearchTree.inorder t) -> key s = k ->
  ascending k (BinarySearchTree.inorder t) ->
  exists t' l1 l2,
    BinarySearchTree.insert depth t s = Ret t' /\
    BinarySearchTree.inorder t = l1 ++ l2 /\
    BinarySearchTree.inorder t' = l1 ++ s :: l2 /\
    Forall (fun y => key_ltb k s y = false) l1 /\
    Forall (fun y => key_ltb k s y = true) l2 /\
    ascending k (BinarySearchTree.inorder t').
Proof.
  intros Hd Hk Hs Ha.
  destruct (bst_insert_split k s depth t Hd Hk Hs Ha)
    as (t' & l1 & l2 & Hi & H1 & H2 & H3 & H4).
  exists t', l1, l2. repeat split; try assumption.
  rewrite H2. apply ascending_insert; [rewrite <- H1; exact Ha|exact H3|exact H4].
Qed.

(** X10 (BinarySearchTree.insert, _insert_recursive): on a tree whose
    songs are all compared under one key and read in ascending order from
    left to right, [insert] of a song with that key returns when the
    recursion may go as deep as the tree is high, with two frames to spare
    for the call of [insert] itself and for the comparison or the
    constructor called at the bottom. The song is put into the
    left-to-right reading after every song that is not greater and before
    every song that is greater: the reading is again ascending, and no song
    is lost or moved. *)
Theorem bst_insert_keeps_order (k : Key) (s : Song) (depth : nat)
    (t : BinarySearchTree.TreeNode) :
  (BinarySearchTree.height t + 2 <= depth)%nat ->
  keyed k (BinarySearchTree.inorder t) -> key s = k ->
  ascending k (BinarySearchTree.inorder t) ->
  exists t' l1 l2,
    BinarySearchTree.insert depth t s = Ret t' /\
    BinarySearchTree.inorder t = l1 ++ l2 /\
    BinarySearchTree.inorder t' = l1 ++ s :: l2 /\
    Forall (fun y => key_ltb k s y = false) l1 /\
    Forall (fun y => key_ltb k s y = true) l2 /\
    ascending k (BinarySearchTree.inorder t').
Proof. intros Hd. apply bst_insert_order_step. lia. Qed.

Lemma bst_insert_keeps_order_witness :
  let t := BinarySearchTree.Node songB
             (BinarySearchTree.Node songA BinarySearchTree.Nil BinarySearchTree.Nil)
             (BinarySearchTree.Node songD BinarySearchTree.Nil BinarySearchTree.Nil) in
  exists t' l1 l2,
    BinarySearchTree.insert 4 t songC = Ret t' /\
    BinarySearchTree.inorder t = l1 ++ l2 /\
    BinarySearchTree.inorder t' = l1 ++ songC :: l2 /\
    Forall (fun y => key_ltb Title songC y = false) l1 /\
    Forall (fun y => key_ltb Title songC y = true) l2 /\
    ascending Title (BinarySearchTree.inorder t').
Proof.
  intros t. apply (bst_insert_keeps_order Title songC 4 t).
  - cbn. lia.
  - repeat constructor.
  - reflexivity.
  - repeat constructor.
Defined.

Lemma descend_split k s : forall t ctx,
  keyed k (RedBlackModel.inorder t) -> key s = k ->
  ascending k (RedBlackModel.inorder t) ->
  exists ctx' l1 l2,
    RedBlackModel.descend s t ctx = Ret ctx' /\
    RedBlackModel.inorder t = l1 ++ l2 /\
    RedBlackFacts.ctx_left ctx' = RedBlackFacts.ctx_left ctx ++ l1 /\
    RedBlackFacts.ctx_right ctx' = l2 ++ RedBlackFacts.ctx_right ctx /\
    Forall (fun y => key_ltb k s y = false) l1 /\
    Forall (fun y => key_ltb k s y = true) l2.
Proof.
  induction t as [|c a y l IHl r IHr]; intros ctx Hk Hs Ha; simpl in *.
  - exists ctx, [], []. rewrite !app_nil_r. repeat split; constructor.
  - unfold keyed in Hk. rewrite Forall_app, Forall_cons in Hk. destruct Hk as (Hkl & Hy & Hkr).
    destruct (ascending_app_inv _ _ _ Ha) as (Hal & Har & Hlr).
    apply StronglySorted_inv in Har. destruct Har as [Har Hyr].
    rewrite (song_lt_key k s y Hs Hy).
    destruct (key_ltb k s y) eqn:E; simpl.
    + destruct (IHl (RedBlackModel.Fr RedBlackModel.L c a y r :: ctx) Hkl Hs Hal)
        as (ctx' & l1 & l2 & Hd & H1 & H2 & H3 & H4 & H5).
      exists ctx', l1, (l2 ++ y :: RedBlackModel.inorder r).
      split; [exact Hd|]. simpl in H2, H3. rewrite app_nil_r in H2.
      rewrite H1, H2, H3. repeat (progress (rewrite <- ?app_assoc; simpl)).
      repeat split; [exact H4|]. rewrite Forall_app, Forall_cons.
      split; [exact H5|]. split; [exact E|].
      eapply Forall_impl; [exact Hyr|]. intros z Hz. cbv beta in Hz.
      eapply key_ltb_lt_le; eassumption.
    + destruct (IHr (RedBlackModel.Fr RedBlackModel.R c a y l :: ctx) Hkr Hs Har)
        as (ctx' & l1 & l2 & Hd & H1 & H2 & H3 & H4 & H5).
      exists ctx', (RedBlackModel.inorder l ++ y :: l1), l2.
      split; [exact Hd|]. simpl in H2, H3.
      rewrite H1, H2, H3. repeat (progress (rewrite <- ?app_assoc; simpl)).
      repeat split; [|exact H5]. rewrite Forall_app, Forall_cons.
      split; [|split; [exact E|exact H4]].
      rewrite Forall_forall in Hlr |- *. intros z Hz. specialize (Hlr z Hz).
      apply Forall_cons in Hlr. destruct Hlr as [Hzy _].
      eapply key_ltb_neg_trans; eassumption.
Qed.

Lemma rbt_model_insert_split k a s t :
  RedBlackModel.is_red_black t = true ->
  keyed k (RedBlackModel.inorder t) -> key s = k ->
  ascending k (RedBlackModel.inorder t) ->
  exists t' l1 l2,
    RedBlackModel.insert a s t = Ret (Some t') /\
    RedBlackModel.is_red_black t' = true /\
    RedBlackModel.inorder t = l1 ++ l2 /\
    RedBlackModel.inorder t' = l1 ++ s :: l2 /\
    Forall (fun y => key_ltb k s y = false) l1 /\
    Forall (fun y => key_ltb k s y = true) l2.
Proof.
  intros Hrb Hk Hs Ha.
  destruct (descend_split k s t [] Hk Hs Ha) as (ctx & l1 & l2 & Hd & H1 & H2 & H3 & H4 & H5).
  simpl in H2, H3. rewrite app_nil_r in H3.
  destruct (RedBlackModel.insert a s t) as [o|e] eqn:Hi.
  2:{ unfold RedBlackModel.insert in Hi. rewrite Hd in Hi. discriminate Hi. }
  destruct (RedBlackFacts.insert_rb _ _ _ _ Hrb Hi) as (t' & -> & Hrb').
  exists t', l1, l2. split; [reflexivity|]. split; [exact Hrb'|]. split; [exact H1|].
  split; [|split; assumption].
  unfold RedBlackModel.insert in Hi. rewrite Hd in Hi. simpl in Hi.
  destruct (RedBlackModel.ins_fix ctx _) as [T|] eqn:HT; simpl in Hi; [|discriminate].
  injection Hi as <-. apply (RedBlackFacts.ins_fix_inorder (length ctx)) in HT; [|lia].
  rewrite RedBlackInsert.inorder_blacken, HT, RedBlackFacts.inorder_plug. simpl.
  rewrite H2, H3. reflexivity.
Qed.

Lemma rbt_insert_order_step (k : Key) (s : Song) st t pnil :
  RedBlackRep.Inv st t pnil -> RedBlackModel.is_red_black t = true ->
  keyed k (RedBlackModel.inorder t) -> key s = k ->
  ascending k (RedBlackModel.inorder t) ->
  exists st' t' l1 l2,
    RedBlackTree.insert s st = (Ret tt, st') /\
    RedBlackRep.Inv st' t' pnil /\ RedBlackModel.is_red_black t' = true /\
    RedBlackModel.inorder t = l1 ++ l2 /\
    RedBlackModel.inorder t' = l1 ++ s :: l2 /\
    Forall (fun y => key_ltb k s y = false) l1 /\
    Forall (fun y => key_ltb k s y = true) l2 /\
    keyed k (RedBlackModel.inorder t') /\
    ascending k (RedBlackModel.inorder t').
Proof.
  intros HI Hrb Hk Hs Ha.
  destruct (rbt_model_insert_split k (RedBlackTree.next st) s t Hrb Hk Hs Ha)
    as (t' & l1 & l2 & Hi & Hrb' & H1 & H2 & H3 & H4).
  pose proof (RedBlackSim.insert_spec st t pnil s HI) as H. rewrite Hi in H.
  destruct H as (st' & He & HI' & _).
  exists st', t', l1, l2.
  split; [exact He|]. split; [exact HI'|]. split; [exact Hrb'|]. split; [exact H1|].
  split; [exact H2|]. split; [exact H3|]. split; [exact H4|]. split.
  - rewrite H2. rewrite H1 in Hk. unfold keyed in *. rewrite Forall_app in *.
    rewrite Forall_cons. tauto.
  - rewrite H2. apply ascending_insert; [rewrite <- H1; exact Ha|exact H3|exact H4].
Qed.

(** X11 (RedBlackTree.insert, fix_insert): on a red-black tree whose
    songs are all compared under one key and read in ascending order from
    left to right, [insert] of a song with that key returns normally; the
    nodes again form a red-black tree, and the song sits in the
    left-to-right reading after every song that is not greater and before
    every song that is greater, so the reading stays ascending and the
    rotations and recolorings lose or move no song. *)
Theorem rbt_insert_keeps_order (k : Key) (s : Song) st t pnil :
  RedBlackRep.Inv st t pnil -> RedBlackModel.is_red_black t = true ->
  keyed k (RedBlackModel.inorder t) -> key s = k ->
  ascending k (RedBlackModel.inorder t) ->
  exists st' t' l1 l2,
    RedBlackTree.insert s st = (Ret tt, st') /\
    RedBlackRep.Inv st' t' pnil /\ RedBlackModel.is_red_black t' = true /\
    RedBlackModel.inorder t = l1 ++ l2 /\
    RedBlackModel.inorder t' = l1 ++ s :: l2 /\
    Forall (fun y => key_ltb k s y = false) l1 /\
    Forall (fun y => key_ltb k s y = true) l2 /\
    keyed k (RedBlackModel.inorder t') /\
    ascending k (RedBlackModel.inorder t').
Proof. apply rbt_insert_order_step. Qed.

Lemma rbt_insert_keeps_order_witness :
  let st := RedBlackRep.insert_all [songA; songB; songC] RedBlackTree.init in
  let t := RedBlackModel.Tr RedBlackTree.BLACK 2%nat songB
             (RedBlackModel.Tr RedBlackTree.RED 1%nat songA
                RedBlackModel.Leaf RedBlackModel.Leaf)
             (RedBlackModel.Tr RedBlackTree.RED 3%nat songC
                RedBlackModel.Leaf RedBlackModel.Leaf) in
  exists st' t' l1 l2,
    RedBlackTree.insert songD st = (Ret tt, st') /\
    RedBlackRep.Inv st' t' None /\ RedBlackModel.is_red_black t' = true /\
    RedBlackModel.inorder t = l1 ++ l2 /\
    RedBlackModel.inorder t' = l1 ++ songD :: l2 /\
    Forall (fun y => key_ltb Title songD y = false) l1 /\
    Forall (fun y => key_ltb Title songD y = true) l2 /\
    keyed Title (RedBlackModel.inorder t') /\
    ascending Title (RedBlackModel.inorder t').
Proof.
  intros st t. apply (rbt_insert_keeps_order Title songD st t None).
  - exact Inv_three_songs.
  - reflexivity.
  - repeat constructor.
  - reflexivity.
  - repeat constructor.
Defined.

(** [insert] song after song into the binary search tree. *)
Fixpoint bst_insert_songs (depth : nat) (songs : list Song) (t : BinarySearchTree.TreeNode)
    : res BinarySearchTree.TreeNode :=
  match songs with
  | [] => Ret t
  | s :: songs' =>
      let! t' := BinarySearchTree.insert depth t s in bst_insert_songs depth songs' t'
  end.

Lemma bst_insert_songs_sorted k depth : forall songs t,
  (length (BinarySearchTree.inorder t) + length songs <= depth)%nat ->
  keyed k songs -> keyed k (BinarySearchTree.inorder t) ->
  ascending k (BinarySearchTree.inorder t) ->
  exists t',
    bst_insert_songs depth songs t = Ret t' /\
    BinarySearchTree.inorder t' ≡ₚ BinarySearchTree.inorder t ++ songs /\
    keyed k (BinarySearchTree.inorder t') /\
    ascending k (BinarySearchTree.inorder t').
Proof.
  induction songs as [|s songs IH]; intros t Hd Hs Hk Ha; cbn [bst_insert_songs].
  - exists t. rewrite app_nil_r. auto.
  - apply Forall_cons in Hs. destruct Hs as [Hs Hs']. cbn [length] in Hd.
    destruct (bst_insert_order_step k s depth t)
      as (t1 & l1 & l2 & Hi & H1 & H2 & H3 & H4 & H5); [|exact Hk|exact Hs|exact Ha|].
    { pose proof (bst_height_size t). rewrite bst_size_inorder in *. lia. }
    rewrite Hi. cbn [bind].
    assert (Hk1 : keyed k (BinarySearchTree.inorder t1)).
    { rewrite H2. rewrite H1 in Hk. unfold keyed in *. rewrite Forall_app in *.
      rewrite Forall_cons. tauto. }
    destruct (IH t1) as (t' & Hr & Hp & Hk' & Ha'); [|exact Hs'|exact Hk1|exact H5|].
    { rewrite H2. rewrite H1 in Hd. rewrite length_app in *. cbn [length]. lia. }
    exists t'. split; [exact Hr|]. split; [|auto].
    rewrite Hp, H2, H1. rewrite <- Permutation_middle.
    rewrite (Permutation_middle (l1 ++ l2) songs s). reflexivity.
Qed.

Lemma rbt_insert_all_sorted k : forall songs st t pnil,
  keyed k songs ->
  RedBlackRep.Inv st t pnil -> RedBlackModel.is_red_black t = true ->
  keyed k (RedBlackModel.inorder t) -> ascending k (RedBlackModel.inorder t) ->
  exists t',
    RedBlackRep.Inv (RedBlackRep.insert_all songs st) t' pnil /\
    RedBlackModel.is_red_black t' = true /\
    RedBlackModel.inorder t' ≡ₚ RedBlackModel.inorder t ++ songs /\
    keyed k (RedBlackModel.inorder t') /\
    ascending k (RedBlackModel.inorder t').
Proof.
  induction songs as [|s songs IH]; intros st t pnil Hs HI Hrb Hk Ha; simpl.
  - exists t. rewrite app_nil_r. auto.
  - apply Forall_cons in Hs. destruct Hs as [Hs Hs'].
    destruct (rbt_insert_order_step k s st t pnil HI Hrb Hk Hs Ha)
      as (st1 & t1 & l1 & l2 & Hi & HI1 & Hrb1 & H1 & H2 & H3 & H4 & Hk1 & Ha1).
    rewrite Hi. simpl.
    destruct (IH st1 t1 pnil Hs' HI1 Hrb1 Hk1 Ha1) as (t' & HI' & Hrb' & Hp & Hk' & Ha').
    exists t'. split; [exact HI'|]. split; [exact Hrb'|]. split; [|auto].
    rewrite Hp, H2, H1. rewrite <- Permutation_middle.
    rewrite (Permutation_middle (l1 ++ l2) songs s). reflexivity.
Qed.

(** X12 (BinarySearchTree.insert; RedBlackTree.insert): songs that are all
    compared under one key, inserted one after the other into a new
    [BinarySearchTree] and into a new [RedBlackTree]: every call returns,
    for the binary search tree when the recursion may go as deep as there
    are songs, with two frames to spare, and the left-to-right reading of
    each tree is an ascending arrangement of exactly the inserted songs;
    the red-black tree satisfies the red-black conditions. *)
Theorem trees_hold_inserted_songs_in_order (k : Key) (depth : nat) (songs : list Song) :
  keyed k songs -> (length songs + 2 <= depth)%nat ->
  (exists b,
     bst_insert_songs depth songs BinarySearchTree.init = Ret b /\
     BinarySearchTree.inorder b ≡ₚ songs /\
     ascending k (BinarySearchTree.inorder b)) /\
  (exists t,
     RedBlackRep.Inv (RedBlackRep.insert_all songs RedBlackTree.init) t None /\
     RedBlackModel.is_red_black t = true /\
     RedBlackModel.inorder t ≡ₚ songs /\
     ascending k (RedBlackModel.inorder t)).
Proof.
  intros Hs Hd. split.
  - destruct (bst_insert_songs_sorted k depth songs BinarySearchTree.init)
      as (b & H1 & H2 & _ & H3); [cbn; lia|exact Hs|constructor|constructor|].
    exists b. auto.
  - destruct (rbt_insert_all_sorted k songs RedBlackTree.init RedBlackModel.Leaf None Hs)
      as (t & H1 & H2 & H3 & _ & H4);
      [apply RedBlackInsert.Inv_init|reflexivity|constructor|constructor|].
    exists t. auto.
Qed.

Lemma trees_hold_inserted_songs_in_order_witness :
  (exists b,
     bst_insert_songs 5 [songB; songA; songC] BinarySearchTree.init = Ret b /\
     BinarySearchTree.inorder b ≡ₚ [songB; songA; songC] /\
     ascending Title (BinarySearchTree.inorder b)) /\
  (exists t,
     RedBlackRep.Inv (RedBlackRep.insert_all [songB; songA; songC] RedBlackTree.init) t None /\
     RedBlackModel.is_red_black t = true /\
     RedBlackModel.inorder t ≡ₚ [songB; songA; songC] /\
     ascending Title (RedBlackModel.inorder t)).
Proof.
  apply (trees_hold_inserted_songs_in_order Title 5 [songB; songA; songC]).
  - repeat constructor.
  - cbn. lia.
Defined.

(** ** [Song.set_key] *)

(** The attribute name of a key. *)
Definition key_name (k : Key) : string :=
  match k with
  | Title => "title"
  | Artist => "artist"
  | Album => "album"
  | Genre => "genre"
  | Playtime => "playtime"
  end.

(** X13 (Song.set_key): [set_key] with one of the five attribute names
    returns and changes the key and nothing else of the song, so that the
    song is then compared by that attribute; with any other string it
    raises [ValueError]. *)
Theorem set_key_five_names (s : Song) (name : string) :
  (exists k, name = key_name k /\ set_key s name = Ret (with_key s k) /\
             key (with_key s k) = k /\
             getattr (with_key s k) (key (with_key s k)) = getattr s k /\
             title (with_key s k) = title s /\ artist (with_key s k) = artist s /\
             album (with_key s k) = album s /\ genre (with_key s k) = genre s /\
             playtime (with_key s k) = playtime s)
  \/ ((forall k, name <> key_name k) /\ set_key s name = Raise ValueError).
Proof.
  unfold set_key, key_of_string.
  destruct (String.eqb_spec name "title") as [->|H1];
    [left; exists Title; repeat split|].
  destruct (String.eqb_spec name "artist") as [->|H2];
    [left; exists Artist; repeat split|].
  destruct (String.eqb_spec name "album") as [->|H3];
    [left; exists Album; repeat split|].
  destruct (String.eqb_spec name "genre") as [->|H4];
    [left; exists Genre; repeat split|].
  destruct (String.eqb_spec name "playtime") as [->|H5];
    [left; exists Playtime; repeat split|].
  right. split; [|reflexivity]. intros []; assumption.
Qed.

(** ** [AVLTree.minimum] and [maximum] *)

Lemma avl_walk_reads_only (f : AVLTree.AVLNode -> ref) : forall fuel v t r t',
  whileM (R := Empty_set) fuel
    (fun '(previous, current) => ret (negb (ref_eqb current None)))
    (fun '(previous, current) =>
       let* l := AVLTree.get f current in ret (Next (current, l)))
    v t = (r, t') -> t' = t.
Proof.
  induction fuel as [|fuel IH]; intros [p c] t r t' H; simpl in H.
  - injection H as _ <-. reflexivity.
  - unfold bindM, ret in H. simpl in H.
    destruct c as [a|]; simpl in H; [|injection H as _ <-; reflexivity].
    unfold AVLTree.get in H. destruct (AVLTree.store t !! a) as [n|]; simpl in H.
    + apply IH in H. exact H.
    + injection H as _ <-. reflexivity.
Qed.

Lemma avl_leftmost_reads_only r t :
  exists x, AVLTree.leftmost r t = (x, t).
Proof.
  unfold AVLTree.leftmost, AVLTree.get_next. unfold bindM at 1. cbv beta iota.
  unfold bindM at 1.
  destruct (whileM _ _ _ _ t) as [[[[p c0]|[]]|e] t'] eqn:Hw;
    apply (avl_walk_reads_only AVLTree.left) in Hw; subst t'; eexists; reflexivity.
Qed.

Lemma avl_rightmost_reads_only r t :
  exists x, AVLTree.rightmost r t = (x, t).
Proof.
  unfold AVLTree.rightmost, AVLTree.get_next. unfold bindM at 1. cbv beta iota.
  unfold bindM at 1.
  destruct (whileM _ _ _ _ t) as [[[[p c0]|[]]|e] t'] eqn:Hw;
    apply (avl_walk_reads_only AVLTree.right) in Hw; subst t'; eexists; reflexivity.
Qed.

(** X14 (AVLTree.minimum, maximum, leftmost, rightmost): [minimum] and
    [maximum] never return a value and never change the tree. On an empty
    tree they raise [Exception("Empty  tree")]; on a tree with a root they
    walk to the leftmost (rightmost) node and then read its attribute
    [value], which an [AVLNode] does not have: on the tree with one song
    that is an [AttributeError]. *)
Theorem avl_minimum_maximum_raise (t : AVLTree.tree) (s : Song) :
  (exists e, AVLQueries.minimum t = (Raise e, t) /\
             (AVLTree.root t = None -> e = PyException AVLQueries.empty_tree)) /\
  (exists e, AVLQueries.maximum t = (Raise e, t) /\
             (AVLTree.root t = None -> e = PyException AVLQueries.empty_tree)) /\
  (let t1 := snd (AVLTree.insert s AVLTree.init) in
   AVLQueries.minimum t1 = (Raise AttributeError, t1) /\
   AVLQueries.maximum t1 = (Raise AttributeError, t1)).
Proof.
  split; [|split].
  - unfold AVLQueries.minimum, AVLTree.get_root. unfold bindM at 1.
    destruct (AVLTree.root t) as [a|] eqn:Hr; [|eexists; split; reflexivity].
    unfold bindM. destruct (avl_leftmost_reads_only (Some a) t) as [[n|e] ->];
      eexists; (split; [reflexivity|discriminate]).
  - unfold AVLQueries.maximum, AVLTree.get_root. unfold bindM at 1.
    destruct (AVLTree.root t) as [a|] eqn:Hr; [|eexists; split; reflexivity].
    unfold bindM. destruct (avl_rightmost_reads_only (Some a) t) as [[n|e] ->];
      eexists; (split; [reflexivity|discriminate]).
  - split; vm_compute; reflexivity.
Qed.

(** ** Searching the trees *)

Lemma key_ltb_le_lt k a b c :
  key_ltb k b a = false -> key_ltb k b c = true -> key_ltb k a c = true.
Proof.
  intros H1 H2. destruct (key_ltb k a c) eqn:E; [reflexivity|].
  rewrite (key_ltb_neg_trans k c a b E H1) in H2. discriminate.
Qed.

Lemma song_eq_false_lt k a b :
  key a = k -> key b = k -> key_ltb k a b = true -> song_eq a b = false /\ song_eq b a = false.
Proof.
  intros Ha Hb H. rewrite (song_eq_key k a b Ha Hb), (song_eq_key k b a Hb Ha).
  unfold key_ltb in H. rewrite (key_cmp_antisym k b a).
  destruct (key_cmp k a b); try discriminate. split; reflexivity.
Qed.

Lemma key_gt_of_not_lt_ne k a b :
  key a = k -> key b = k -> key_ltb k a b = false -> song_eq b a = false ->
  key_ltb k b a = true.
Proof.
  intros Ha Hb H1 H2. rewrite (song_eq_key k b a Hb Ha) in H2.
  unfold key_ltb in *. rewrite (key_cmp_antisym k a b) in H1.
  destruct (key_cmp k b a); simpl in *; congruence.
Qed.

(** In an ascending list of which [y] is an element, with the songs before
    [y] in [l] and those after it in [r]: a song below [y] equals none of
    [y :: r], and a song above [y] none of [l ++ [y]]. *)
Lemma no_match_right k s y r :
  key s = k -> key y = k -> keyed k r ->
  Forall (fun b => key_ltb k b y = false) r -> key_ltb k s y = true ->
  Forall (fun x => song_eq x s = false) (y :: r).
Proof.
  intros Hs Hy Hr Hyr E. constructor; [apply (song_eq_false_lt k s y Hs Hy E)|].
  unfold keyed in Hr. rewrite Forall_forall in *. intros z Hz.
  apply (song_eq_false_lt k s z Hs (Hr z Hz)).
  eapply key_ltb_lt_le; [exact E|apply Hyr, Hz].
Qed.

Lemma no_match_left k s y l :
  key s = k -> key y = k -> keyed k l ->
  Forall (fun a => key_ltb k y a = false) l -> key_ltb k y s = true ->
  Forall (fun x => song_eq x s = false) l.
Proof.
  intros Hs Hy Hl Hly E. unfold keyed in Hl. rewrite Forall_forall in *. intros z Hz.
  apply (song_eq_false_lt k z s (Hl z Hz) Hs).
  eapply key_ltb_le_lt; [apply Hly, Hz|exact E].
Qed.

(** What [search] returns in the tree [t] when the depth of the recursion
    does not stop it. *)
Fixpoint found (s : Song) (t : BinarySearchTree.TreeNode)
    : option BinarySearchTree.TreeNode :=
  match t with
  | BinarySearchTree.Nil => None
  | BinarySearchTree.Node y l r =>
      if song_eq y s then Some t
      else
        match song_lt s y with
        | Ret true => found s l
        | Ret false => found s r
        | Raise _ => None
        end
  end.

Lemma search_found k s : forall depth t,
  (BinarySearchTree.height t < depth)%nat ->
  keyed k (BinarySearchTree.inorder t) -> key s = k ->
  BinarySearchTree.search depth t s = Ret (found s t).
Proof.
  unfold BinarySearchTree.search.
  induction depth as [|d IH]; intros t Hd Hk Hs; [lia|].
  destruct t as [|y l r]; [reflexivity|].
  cbn [BinarySearchTree.height] in Hd. cbn [BinarySearchTree.inorder] in Hk.
  unfold keyed in Hk. rewrite Forall_app, Forall_cons in Hk. destruct Hk as (Hkl & Hy & Hkr).
  cbn [BinarySearchTree._search_recursive found].
  destruct (song_eq y s); [reflexivity|].
  rewrite (song_lt_key k s y Hs Hy). cbn [bind].
  destruct (key_ltb k s y); apply IH; try assumption; lia.
Qed.

Lemma found_ordered k s : forall t,
  keyed k (BinarySearchTree.inorder t) -> key s = k ->
  ascending k (BinarySearchTree.inorder t) ->
  (found s t = None /\
   Forall (fun x => song_eq x s = false) (BinarySearchTree.inorder t))
  \/ exists y l r,
       found s t = Some (BinarySearchTree.Node y l r) /\
       song_eq y s = true /\ In y (BinarySearchTree.inorder t).
Proof.
  induction t as [|y l IHl r IHr]; intros Hk Hs Ha;
    cbn [found BinarySearchTree.inorder] in *.
  - left. split; [reflexivity|constructor].
  - unfold keyed in Hk. rewrite Forall_app, Forall_cons in Hk. destruct Hk as (Hkl & Hy & Hkr).
    destruct (ascending_app_inv _ _ _ Ha) as (Hal & Har & Hlr).
    apply StronglySorted_inv in Har. destruct Har as [Har Hyr].
    destruct (song_eq y s) eqn:Ey.
    { right. exists y, l, r. split; [reflexivity|]. split; [exact Ey|].
      apply in_or_app. right. left. reflexivity. }
    rewrite (song_lt_key k s y Hs Hy).
    destruct (key_ltb k s y) eqn:E.
    + destruct (IHl Hkl Hs Hal) as [[H1 H2]|(y' & l' & r' & H1 & H2 & H3)].
      * left. split; [exact H1|]. rewrite Forall_app. split; [exact H2|].
        apply (no_match_right k); assumption.
      * right. exists y', l', r'. split; [exact H1|]. split; [exact H2|].
        apply in_or_app. left. exact H3.
    + pose proof (key_gt_of_not_lt_ne k s y Hs Hy E Ey) as Hgt.
      destruct (IHr Hkr Hs Har) as [[H1 H2]|(y' & l' & r' & H1 & H2 & H3)].
      * left. split; [exact H1|]. rewrite Forall_app, Forall_cons.
        split; [|split; [exact Ey|exact H2]].
        apply (no_match_left k s y); try assumption.
        eapply Forall_impl; [exact Hlr|]. intros z Hz. cbv beta in Hz.
        apply Forall_cons in Hz. tauto.
      * right. exists y', l', r'. split; [exact H1|]. split; [exact H2|].
        apply in_or_app. right. right. exact H3.
Qed.

Lemma bst_search_ordered k s depth t :
  (BinarySearchTree.height t < depth)%nat ->
  keyed k (BinarySearchTree.inorder t) -> key s = k ->
  ascending k (BinarySearchTree.inorder t) ->
  (BinarySearchTree.search depth t s = Ret None /\
   Forall (fun x => song_eq x s = false) (BinarySearchTree.inorder t))
  \/ exists y l r,
       BinarySearchTree.search depth t s = Ret (Some (BinarySearchTree.Node y l r)) /\
       song_eq y s = true /\ In y (BinarySearchTree.inorder t).
Proof.
  intros Hd Hk Hs Ha. rewrite (search_found k s depth t Hd Hk Hs).
  destruct (found_ordered k s t Hk Hs Ha) as [[H1 H2]|(y & l & r & H1 & H2)].
  - left. rewrite H1. auto.
  - right. exists y, l, r. rewrite H1. auto.
Qed.

(** X15 (BinarySearchTree.search, _search_recursive): on a tree whose
    songs are compared under one key and read in ascending order,
    [search] returns when the recursion may go as deep as the tree is
    high, with two frames to spare for the call of [search] itself and for
    the comparison called at the bottom; it returns [None] exactly when no
    song of the tree equals the target, and otherwise a node of the tree
    whose song equals it. *)
Theorem bst_search_finds (k : Key) (s : Song) (depth : nat)
    (t : BinarySearchTree.TreeNode) :
  (BinarySearchTree.height t + 2 <= depth)%nat ->
  keyed k (BinarySearchTree.inorder t) -> key s = k ->
  ascending k (BinarySearchTree.inorder t) ->
  (BinarySearchTree.search depth t s = Ret None /\
   Forall (fun x => song_eq x s = false) (BinarySearchTree.inorder t))
  \/ exists y l r,
       BinarySearchTree.search depth t s = Ret (Some (BinarySearchTree.Node y l r)) /\
       song_eq y s = true /\ In y (BinarySearchTree.inorder t).
Proof. intros Hd. apply bst_search_ordered. lia. Qed.

Lemma bst_search_finds_witness :
  let t := BinarySearchTree.Node songB
             (BinarySearchTree.Node songA BinarySearchTree.Nil BinarySearchTree.Nil)
             (BinarySearchTree.Node songD
                (BinarySearchTree.Node songC BinarySearchTree.Nil BinarySearchTree.Nil)
                BinarySearchTree.Nil) in
  (BinarySearchTree.search 5 t (probe "C") = Ret None /\
   Forall (fun x => song_eq x (probe "C") = false) (BinarySearchTree.inorder t))
  \/ exists y l r,
       BinarySearchTree.search 5 t (probe "C") = Ret (Some (BinarySearchTree.Node y l r)) /\
       song_eq y (probe "C") = true /\ In y (BinarySearchTree.inorder t).
Proof.
  intros t. apply (bst_search_finds Title (probe "C") 5 t).
  - cbn. lia.
  - repeat constructor.
  - reflexivity.
  - repeat constructor.
Defined.

Lemma rbt_find_ordered k s : forall t ctx,
  keyed k (RedBlackModel.inorder t) -> key s = k ->
  ascending k (RedBlackModel.inorder t) ->
  (RedBlackModel.find s t ctx = Ret None /\
   Forall (fun x => song_eq x s = false) (RedBlackModel.inorder t))
  \/ exists ctx' z, RedBlackModel.find s t ctx = Ret (Some (ctx', z)).
Proof.
  induction t as [|c a y l IHl r IHr]; intros ctx Hk Hs Ha; simpl in *.
  - left. split; [reflexivity|constructor].
  - unfold keyed in Hk. rewrite Forall_app, Forall_cons in Hk. destruct Hk as (Hkl & Hy & Hkr).
    destruct (ascending_app_inv _ _ _ Ha) as (Hal & Har & Hlr).
    apply StronglySorted_inv in Har. destruct Har as [Har Hyr].
    destruct (song_eq y s) eqn:Ey; [right; eauto|].
    rewrite (song_lt_key k s y Hs Hy).
    destruct (key_ltb k s y) eqn:E; simpl.
    + destruct (IHl (RedBlackModel.Fr RedBlackModel.L c a y r :: ctx) Hkl Hs Hal)
        as [[H1 H2]|H]; [|right; exact H].
      left. split; [exact H1|]. rewrite Forall_app. split; [exact H2|].
      apply (no_match_right k); assumption.
    + pose proof (key_gt_of_not_lt_ne k s y Hs Hy E Ey) as Hgt.
      destruct (IHr (RedBlackModel.Fr RedBlackModel.R c a y l :: ctx) Hkr Hs Har)
        as [[H1 H2]|H]; [|right; exact H].
      left. split; [exact H1|]. rewrite Forall_app, Forall_cons.
      split; [|split; [exact Ey|exact H2]].
      apply (no_match_left k s y); try assumption.
      eapply Forall_impl; [exact Hlr|]. intros z Hz. cbv beta in Hz.
      apply Forall_cons in Hz. tauto.
Qed.

Lemma rbt_search_ordered (k : Key) (s : Song) st t pnil :
  RedBlackRep.Inv st t pnil ->
  keyed k (RedBlackModel.inorder t) -> key s = k ->
  ascending k (RedBlackModel.inorder t) ->
  (RedBlackTree.search s st = (Ret None, st) /\
   RedBlackModel.find s t [] = Ret None /\
   Forall (fun x => song_eq x s = false) (RedBlackModel.inorder t))
  \/ exists a n y,
       RedBlackTree.search s st = (Ret (Some a), st) /\
       RedBlackTree.store st !! a = Some n /\ RedBlackTree.song n = Some y /\
       song_eq y s = true /\ In y (RedBlackModel.inorder t).
Proof.
  intros HI Hk Hs Ha. rewrite (RedBlackSearch.search_spec st t pnil s HI).
  destruct (rbt_find_ordered k s t [] Hk Hs Ha) as [[H1 H2]|(ctx' & z & H)].
  - left. rewrite H1. auto.
  - right. rewrite H.
    destruct (RedBlackSearch.find_is_node _ _ _ _ _ H) as (c & a & y & l & r & ->).
    destruct (RedBlackSearch.find_lookup _ _ _ _ _ _ _ _ _ _ _ _
                (RedBlackRep.inv_rep _ _ _ HI) H) as ((n & Hn & Hy) & He & Hin).
    exists a, n, y. auto.
Qed.

(** X16 (RedBlackTree.search, _search_recursive): on a red-black tree
    whose songs are compared under one key and read in ascending order,
    [search] leaves the tree as it is and returns [None] exactly when no
    song of the tree equals the target; otherwise it returns a node of the
    tree whose song equals the target. *)
Theorem rbt_search_finds (k : Key) (s : Song) st t pnil :
  RedBlackRep.Inv st t pnil ->
  keyed k (RedBlackModel.inorder t) -> key s = k ->
  ascending k (RedBlackModel.inorder t) ->
  (RedBlackTree.search s st = (Ret None, st) /\
   Forall (fun x => song_eq x s = false) (RedBlackModel.inorder t))
  \/ exists a n y,
       RedBlackTree.search s st = (Ret (Some a), st) /\
       RedBlackTree.store st !! a = Some n /\ RedBlackTree.song n = Some y /\
       song_eq y s = true /\ In y (RedBlackModel.inorder t).
Proof.
  intros HI Hk Hs Ha.
  destruct (rbt_search_ordered k s st t pnil HI Hk Hs Ha) as [(H1 & _ & H2)|H]; auto.
Qed.

Lemma rbt_search_finds_witness :
  let st := RedBlackRep.insert_all [songA; songB; songC] RedBlackTree.init in
  let t := RedBlackModel.Tr RedBlackTree.BLACK 2%nat songB
             (RedBlackModel.Tr RedBlackTree.RED 1%nat songA
                RedBlackModel.Leaf RedBlackModel.Leaf)
             (RedBlackModel.Tr RedBlackTree.RED 3%nat songC
                RedBlackModel.Leaf RedBlackModel.Leaf) in
  (RedBlackTree.search (probe "C") st = (Ret None, st) /\
   Forall (fun x => song_eq x (probe "C") = false) (RedBlackModel.inorder t))
  \/ exists a n y,
       RedBlackTree.search (probe "C") st = (Ret (Some a), st) /\
       RedBlackTree.store st !! a = Some n /\ RedBlackTree.song n = Some y /\
       song_eq y (probe "C") = true /\ In y (RedBlackModel.inorder t).
Proof.
  intros st t. apply (rbt_search_finds Title (probe "C") st t None).
  - exact Inv_three_songs.
  - repeat constructor.
  - reflexivity.
  - repeat constructor.
Defined.

(** X17 (RedBlackTree.delete): [delete] of a song that equals no song
    of the tree (songs of one key, ascending) reports that the song was
    not found and changes nothing in the tree. *)
Theorem rbt_delete_absent_unchanged (k : Key) (s : Song) st t pnil :
  RedBlackRep.Inv st t pnil ->
  keyed k (RedBlackModel.inorder t) -> key s = k ->
  ascending k (RedBlackModel.inorder t) ->
  Forall (fun x => song_eq x s = false) (RedBlackModel.inorder t) ->
  RedBlackTree.delete s st =
  (Ret (RedBlackTree.NotFound ("Song " ++ title s ++ " not found in the tree.")), st).
Proof.
  intros HI Hk Hs Ha Hno.
  destruct (rbt_search_ordered k s st t pnil HI Hk Hs Ha)
    as [(_ & Hf & _)|(a & n & y & _ & _ & _ & He & Hin)].
  - apply (RedBlackSearch.delete_not_found st t pnil s HI Hf).
  - rewrite Forall_forall in Hno. apply list_elem_of_In in Hin.
    rewrite (Hno y Hin) in He. discriminate.
Qed.

Lemma rbt_delete_absent_unchanged_witness :
  let st := RedBlackRep.insert_all [songA; songB; songC] RedBlackTree.init in
  RedBlackTree.delete (probe "D") st =
  (Ret (RedBlackTree.NotFound ("Song " ++ title (probe "D") ++ " not found in the tree.")),
   st).
Proof.
  intros st.
  apply (rbt_delete_absent_unchanged Title (probe "D") st
           (RedBlackModel.Tr RedBlackTree.BLACK 2%nat songB
              (RedBlackModel.Tr RedBlackTree.RED 1%nat songA
                 RedBlackModel.Leaf RedBlackModel.Leaf)
              (RedBlackModel.Tr RedBlackTree.RED 3%nat songC
                 RedBlackModel.Leaf RedBlackModel.Leaf))
           None).
  - exact Inv_three_songs.
  - repeat constructor.
  - reflexivity.
  - repeat constructor.
  - repeat constructor.
Defined.

(** ** Merge sort *)

Lemma keyed_perm k l l' : l ≡ₚ l' -> keyed k l -> keyed k l'.
Proof. intros H. unfold keyed. rewrite H. auto. Qed.

Lemma merge_loop_sorted k : forall fuel left right acc,
  keyed k left -> keyed k right ->
  (length left + length right < fuel)%nat ->
  exists out,
    merge_loop fuel left right acc = Ret (acc ++ out) /\
    out ≡ₚ left ++ right /\
    (ascending k left -> ascending k right -> ascending k out).
Proof.
  induction fuel as [|fuel IH]; intros left right acc Hl Hr Hf; [lia|].
  destruct left as [|li left'].
  { exists right. simpl. destruct right; auto. }
  destruct right as [|rj right'].
  { exists (li :: left'). simpl. rewrite app_nil_r. auto. }
  cbn [merge_loop].
  apply Forall_cons in Hl. destruct Hl as [Hli Hl'].
  apply Forall_cons in Hr. destruct Hr as [Hrj Hr'].
  rewrite (song_lt_key k li rj Hli Hrj).
  destruct (key_ltb k li rj) eqn:E; cbn [bind].
  - destruct (IH left' (rj :: right') (acc ++ [li]) Hl') as (out & H1 & H2 & H3);
      [constructor; assumption|simpl in *; lia|].
    exists (li :: out). rewrite H1, <- app_assoc. split; [reflexivity|].
    split; [rewrite H2; reflexivity|].
    intros Hal Har. apply StronglySorted_inv in Hal. destruct Hal as [Hal Hli'].
    constructor; [apply H3; assumption|].
    rewrite H2, Forall_app. split; [exact Hli'|].
    pose proof Har as Har'. apply StronglySorted_inv in Har'. destruct Har' as [_ Hrj'].
    constructor; [apply key_ltb_asym; exact E|].
    eapply Forall_impl; [exact Hrj'|]. intros z Hz. cbv beta in Hz.
    apply (key_ltb_neg_trans k li rj z); [apply key_ltb_asym; exact E|exact Hz].
  - destruct (IH (li :: left') right' (acc ++ [rj])) as (out & H1 & H2 & H3);
      [constructor; assumption|assumption|simpl in *; lia|].
    exists (rj :: out). rewrite H1, <- app_assoc. split; [reflexivity|].
    split; [rewrite H2; apply Permutation_middle|].
    intros Hal Har. apply StronglySorted_inv in Har. destruct Har as [Har Hrj'].
    constructor; [apply H3; assumption|].
    rewrite H2, Forall_app. split; [|exact Hrj'].
    pose proof Hal as Hal'. apply StronglySorted_inv in Hal'. destruct Hal' as [_ Hli'].
    constructor; [exact E|].
    eapply Forall_impl; [exact Hli'|]. intros z Hz. cbv beta in Hz.
    apply (key_ltb_neg_trans k rj li z); assumption.
Qed.

Lemma merge_sorted k left right :
  keyed k left -> keyed k right ->
  exists out,
    merge left right = Ret out /\ out ≡ₚ left ++ right /\
    (ascending k left -> ascending k right -> ascending k out).
Proof.
  intros Hl Hr. unfold merge.
  destruct (merge_loop_sorted k (S (length left + length right)) left right [] Hl Hr)
    as (out & H1 & H2 & H3); [lia|].
  exists out. auto.
Qed.

Lemma merge_sort_sorted k : forall depth songs,
  keyed k songs -> (length songs <= depth)%nat -> (0 < depth)%nat ->
  exists out,
    merge_sort depth songs = Ret out /\ out ≡ₚ songs /\ ascending k out.
Proof.
  induction depth as [|depth IH]; intros songs Hk Hd Hpos; [lia|].
  cbn [merge_sort]. unfold len.
  destruct (Z.leb_spec (Z.of_nat (length songs)) 1) as [Hle|Hgt].
  - exists songs. split; [reflexivity|]. split; [reflexivity|].
    destruct songs as [|x [|y songs]]; [constructor|repeat constructor|simpl in Hle; lia].
  - set (mid := Z.to_nat (Z.of_nat (length songs) / 2)).
    assert (Hmid : (0 < mid < length songs)%nat).
    { unfold mid. pose proof (Z.div_lt (Z.of_nat (length songs)) 2 ltac:(lia) ltac:(lia)).
      pose proof (Z.div_str_pos (Z.of_nat (length songs)) 2 ltac:(lia)). lia. }
    pose proof (take_drop mid songs) as Htd.
    assert (Hkl : keyed k (take mid songs)).
    { unfold keyed in *. rewrite <- Htd, Forall_app in Hk. tauto. }
    assert (Hkr : keyed k (drop mid songs)).
    { unfold keyed in *. rewrite <- Htd, Forall_app in Hk. tauto. }
    destruct (IH (take mid songs) Hkl) as (lo & Hl1 & Hl2 & Hl3);
      [rewrite length_take; lia|lia|].
    destruct (IH (drop mid songs) Hkr) as (ro & Hr1 & Hr2 & Hr3);
      [rewrite length_drop; lia|lia|].
    rewrite Hl1, Hr1. cbn [bind].
    destruct (merge_sorted k lo ro) as (out & H1 & H2 & H3).
    { apply (keyed_perm k (take mid songs)); [symmetry; exact Hl2|exact Hkl]. }
    { apply (keyed_perm k (drop mid songs)); [symmetry; exact Hr2|exact Hkr]. }
    exists out. split; [exact H1|]. split; [|apply H3; assumption].
    rewrite H2, Hl2, Hr2. rewrite Htd. reflexivity.
Qed.

(** X18 (MusicApp.merge): for two lists whose songs are compared under
    one key, [merge] returns a list holding exactly the songs of both; when
    both lists are ascending the result is ascending. *)
Theorem merge_merges_sorted (k : Key) (left right : list Song) :
  keyed k left -> keyed k right ->
  exists out,
    merge left right = Ret out /\ out ≡ₚ left ++ right /\
    (ascending k left -> ascending k right -> ascending k out).
Proof. apply merge_sorted. Qed.

Lemma merge_merges_sorted_witness :
  exists out,
    merge [songA; songC] [songB; songD] = Ret out /\
    out ≡ₚ [songA; songC] ++ [songB; songD] /\
    (ascending Title [songA; songC] -> ascending Title [songB; songD] ->
     ascending Title out).
Proof.
  apply (merge_merges_sorted Title [songA; songC] [songB; songD]);
    repeat constructor.
Defined.

(** X19 (MusicApp.merge_sort): for a list whose songs are all compared
    under one key, [merge_sort] returns an ascending list holding exactly
    the songs of the input, when the recursion may go two frames deeper
    than the list is long. (That is enough and more than the code needs:
    the calls of [merge_sort] nest about as deep as the logarithm of the
    length, and [merge] and the comparison it calls take two frames
    more.) *)
Theorem merge_sort_sorts (k : Key) (depth : nat) (songs : list Song) :
  keyed k songs -> (length songs + 2 <= depth)%nat ->
  exists out,
    merge_sort depth songs = Ret out /\ out ≡ₚ songs /\ ascending k out.
Proof. intros Hk Hd. apply merge_sort_sorted; [exact Hk|lia|lia]. Qed.

Lemma merge_sort_sorts_witness :
  exists out,
    merge_sort 6 [songC; songA; songD; songB] = Ret out /\
    out ≡ₚ [songC; songA; songD; songB] /\ ascending Title out.
Proof.
  apply (merge_sort_sorts Title 6 [songC; songA; songD; songB]).
  - repeat constructor.
  - simpl. lia.
Defined.

(** ** Sorting in place: lists read and written by index *)

Lemma range_nil (a b : Z) : b <= a -> range a b = [].
Proof. intros H. unfold range. replace (Z.to_nat (b - a)) with 0%nat by lia. reflexivity. Qed.

Lemma range_cons (a b : Z) : a < b -> range a b = a :: range (a + 1) b.
Proof.
  intros H. unfold range.
  replace (Z.to_nat (b - a)) with (S (Z.to_nat (b - (a + 1)))) by lia.
  cbn [seq map]. f_equal; [lia|].
  rewrite <- seq_shift, map_map. apply map_ext. intros x. lia.
Qed.

Lemma getitem_mid {A} (pre : list A) (x : A) (rest : list A) (j : Z) :
  j = Z.of_nat (length pre) -> getitem (pre ++ x :: rest) j = Ret x.
Proof.
  intros ->. unfold getitem, norm_index, len. rewrite length_app. cbn [length].
  destruct (Z.ltb_spec (Z.of_nat (length pre)) 0); [lia|].
  destruct (Z.ltb_spec (Z.of_nat (length pre)) 0); [lia|].
  destruct (Z.leb_spec (Z.of_nat (length pre + S (length rest))) (Z.of_nat (length pre)));
    [lia|].
  cbn [orb]. rewrite Nat2Z.id.
  rewrite lookup_app_r by lia. rewrite Nat.sub_diag. reflexivity.
Qed.

Lemma setitem_mid {A} (pre : list A) (x y : A) (rest : list A) (j : Z) :
  j = Z.of_nat (length pre) ->
  setitem (pre ++ x :: rest) j y = Ret (pre ++ y :: rest).
Proof.
  intros ->. unfold setitem, norm_index, len. rewrite length_app. cbn [length].
  destruct (Z.ltb_spec (Z.of_nat (length pre)) 0); [lia|].
  destruct (Z.ltb_spec (Z.of_nat (length pre)) 0); [lia|].
  destruct (Z.leb_spec (Z.of_nat (length pre + S (length rest))) (Z.of_nat (length pre)));
    [lia|].
  cbn [orb]. rewrite Nat2Z.id. f_equal.
  replace (length pre) with (length pre + 0)%nat at 1 by lia.
  rewrite insert_app_r. reflexivity.
Qed.

(** The two places of a swap, the lower one first. *)
Lemma swap_places {A} (pre : list A) (x : A) (mid : list A) (y : A) (rest : list A)
    (i j : Z) :
  i = Z.of_nat (length pre) -> j = Z.of_nat (length pre + S (length mid)) ->
  swap (pre ++ x :: mid ++ y :: rest) i j = Ret (pre ++ y :: mid ++ x :: rest).
Proof.
  intros Hi Hj. unfold swap.
  assert (E : forall a b, pre ++ a :: mid ++ b :: rest = (pre ++ a :: mid) ++ b :: rest)
    by (intros; rewrite <- app_assoc; reflexivity).
  rewrite (E x y), (getitem_mid (pre ++ x :: mid) y rest j)
    by (rewrite length_app; cbn [length]; lia).
  rewrite <- (E x y), (getitem_mid pre x _ i Hi). cbn [bind].
  rewrite (setitem_mid pre x y _ i Hi). cbn [bind].
  rewrite (E y y), (setitem_mid (pre ++ y :: mid) y x rest j)
    by (rewrite length_app; cbn [length]; lia).
  rewrite <- (E y x). reflexivity.
Qed.

Lemma swap_same {A} (pre : list A) (x : A) (rest : list A) (i : Z) :
  i = Z.of_nat (length pre) -> swap (pre ++ x :: rest) i i = Ret (pre ++ x :: rest).
Proof.
  intros Hi. unfold swap. rewrite (getitem_mid pre x rest i Hi). cbn [bind].
  rewrite (setitem_mid pre x x rest i Hi). cbn [bind].
  apply (setitem_mid pre x x rest i Hi).
Qed.

(** ** Bubble sort *)

Lemma getitem_next {A} (pre : list A) (x y : A) (rest : list A) (j : Z) :
  j = Z.of_nat (length pre) -> getitem (pre ++ x :: y :: rest) (j + 1) = Ret y.
Proof.
  intros Hj.
  replace (pre ++ x :: y :: rest) with ((pre ++ [x]) ++ y :: rest)
    by (rewrite <- app_assoc; reflexivity).
  apply getitem_mid. rewrite length_app. cbn [length]. lia.
Qed.

Lemma bubble_step_at k (pre : list Song) (x y : Song) (rest : list Song) (j : Z) :
  j = Z.of_nat (length pre) -> key x = k -> key y = k ->
  bubble_step j (pre ++ x :: y :: rest) =
  Ret (if key_ltb k y x then (pre ++ y :: x :: rest, true)
       else (pre ++ x :: y :: rest, false)).
Proof.
  intros Hj Hx Hy. unfold bubble_step.
  rewrite (getitem_mid pre x _ j Hj), (getitem_next pre x y rest j Hj). cbn [bind].
  rewrite (song_gt_key k x y Hx Hy). cbn [bind].
  destruct (key_ltb k y x); [|reflexivity].
  pose proof (swap_places pre x [] y rest j (j + 1) Hj) as Hsw.
  cbn [app length] in Hsw. rewrite Hsw by lia. reflexivity.
Qed.

(** One pass: the greatest song of the part passed over is carried to its
    end; what lies beyond is not touched. *)
Lemma bubble_pass k : forall n pre x rest,
  (n <= length rest)%nat -> keyed k (pre ++ x :: rest) ->
  Forall (fun a => key_ltb k x a = false) pre ->
  exists pre' x',
    for_each (range (Z.of_nat (length pre)) (Z.of_nat (length pre + n)))
      (fun j songs => let! (songs, _) := bubble_step j songs in Ret songs)
      (pre ++ x :: rest)
    = Ret (pre' ++ x' :: drop n rest) /\
    length pre' = (length pre + n)%nat /\
    pre' ++ [x'] ≡ₚ pre ++ x :: take n rest /\
    Forall (fun a => key_ltb k x' a = false) pre'.
Proof.
  induction n as [|n IH]; intros pre x rest Hn Hk Hpre.
  - exists pre, x. rewrite range_nil by lia. cbn [for_each take drop].
    rewrite Nat.add_0_r. split; [reflexivity|]. split; [reflexivity|].
    split; [reflexivity|exact Hpre].
  - destruct rest as [|y rest]; [simpl in Hn; lia|].
    rewrite range_cons by lia. cbn [for_each].
    pose proof Hk as Hk'. unfold keyed in Hk'.
    rewrite Forall_app, !Forall_cons in Hk'. destruct Hk' as (Hkp & Hx & Hy & Hkr).
    rewrite (bubble_step_at k pre x y rest _ eq_refl Hx Hy).
    destruct (key_ltb k y x) eqn:E; cbn [bind].
    + destruct (IH (pre ++ [y]) x rest) as (pre' & x' & H1 & H2 & H3 & H4).
      { simpl in Hn. lia. }
      { eapply keyed_perm; [|exact Hk]. rewrite <- app_assoc. cbn [app].
        apply Permutation_app_head. apply perm_swap. }
      { rewrite Forall_app. split; [exact Hpre|]. constructor; [|constructor].
        apply key_ltb_asym. exact E. }
      rewrite length_app in H1, H2. cbn [length] in H1, H2.
      rewrite <- app_assoc in H1. cbn [app] in H1.
      replace (Z.of_nat (length pre) + 1) with (Z.of_nat (length pre + 1)) by lia.
      replace (length pre + S n)%nat with (length pre + 1 + n)%nat by lia.
      exists pre', x'. rewrite H1. cbn [drop take]. split; [reflexivity|].
      split; [lia|]. split; [|exact H4].
      rewrite H3, <- app_assoc. cbn [app]. apply Permutation_app_head. apply perm_swap.
    + destruct (IH (pre ++ [x]) y rest) as (pre' & x' & H1 & H2 & H3 & H4).
      { simpl in Hn. lia. }
      { rewrite <- app_assoc. exact Hk. }
      { rewrite Forall_app. split; [|constructor; [exact E|constructor]].
        eapply Forall_impl; [exact Hpre|]. intros z Hz. cbv beta in Hz.
        apply (key_ltb_neg_trans k z x y); assumption. }
      rewrite length_app in H1, H2. cbn [length] in H1, H2.
      rewrite <- app_assoc in H1. cbn [app] in H1.
      replace (Z.of_nat (length pre) + 1) with (Z.of_nat (length pre + 1)) by lia.
      replace (length pre + S n)%nat with (length pre + 1 + n)%nat by lia.
      exists pre', x'. rewrite H1. cbn [drop take]. split; [reflexivity|].
      split; [lia|]. split; [|exact H4].
      rewrite H3, <- app_assoc. reflexivity.
Qed.

(** The passes of [bubble_sort] from the [i]-th on: the last [i] places
    hold, in ascending order, songs that are not below any song before
    them. *)
Lemma bubble_passes k (n : Z) : forall cnt u s,
  n = Z.of_nat (length u + length s) -> length u = S cnt ->
  keyed k (u ++ s) -> ascending k s ->
  Forall (fun a => Forall (fun b => key_ltb k b a = false) s) u ->
  exists out,
    for_each (range (Z.of_nat (length s)) (n - 1))
      (fun i songs =>
         for_each (range 0 (n - i - 1))
           (fun j songs => let! (songs, _) := bubble_step j songs in Ret songs)
           songs)
      (u ++ s)
    = Ret out /\ out ≡ₚ u ++ s /\ ascending k out.
Proof.
  induction cnt as [|cnt IH]; intros u s Hn Hu Hk Hs Hus.
  - rewrite range_nil by lia. cbn [for_each].
    exists (u ++ s). split; [reflexivity|]. split; [reflexivity|].
    destruct u as [|a [|b u]]; try discriminate Hu. cbn [app].
    apply Forall_cons in Hus. destruct Hus as [Ha _]. constructor; assumption.
  - destruct u as [|x0 ru]; [discriminate Hu|]. cbn [length] in Hu.
    rewrite range_cons by (cbn [length] in Hn; lia).
    cbn [for_each].
    destruct (bubble_pass k (length ru) [] x0 (ru ++ s)) as (pre' & x' & H1 & H2 & H3 & H4).
    { rewrite length_app. lia. }
    { exact Hk. }
    { constructor. }
    cbn [length app] in H1, H2, H3. change (Z.of_nat 0) with 0 in H1.
    replace (n - Z.of_nat (length s) - 1) with (Z.of_nat (0 + length ru))
      by (cbn [length] in Hn; lia).
    cbn [app]. rewrite H1. cbn [bind].
    rewrite drop_app_length in *. rewrite take_app_length in H3.
    assert (Hx' : In x' (x0 :: ru)).
    { apply list_elem_of_In. rewrite <- H3. apply list_elem_of_In, in_or_app. right. left.
      reflexivity. }
    assert (Hpre' : forall a, In a pre' -> In a (x0 :: ru)).
    { intros a Ha. apply list_elem_of_In. rewrite <- H3.
      apply list_elem_of_In, in_or_app. left. exact Ha. }
    assert (Hperm : pre' ++ x' :: s ≡ₚ (x0 :: ru) ++ s).
    { rewrite <- H3, <- app_assoc. reflexivity. }
    rewrite Forall_forall in Hus.
    destruct (IH pre' (x' :: s)) as (out & Ho1 & Ho2 & Ho3).
    { cbn [length] in *. lia. }
    { lia. }
    { eapply keyed_perm; [symmetry; exact Hperm|exact Hk]. }
    { constructor; [exact Hs|]. apply Hus, list_elem_of_In, Hx'. }
    { rewrite Forall_forall. intros a Ha. apply list_elem_of_In in Ha.
      constructor; [|apply Hus, list_elem_of_In, Hpre', Ha].
      rewrite Forall_forall in H4. apply H4, list_elem_of_In, Ha. }
    replace (Z.of_nat (length s) + 1) with (Z.of_nat (length (x' :: s)))
      by (cbn [length]; lia).
    exists out. split; [exact Ho1|]. split; [|exact Ho3].
    rewrite Ho2. exact Hperm.
Qed.

(** X20 (MusicApp.bubble_sort): for a list whose songs are all compared
    under one key, [bubble_sort] returns without an exception (every index
    it reads is inside the list) an ascending list that holds exactly the
    songs of the input. *)
Theorem bubble_sort_sorts (k : Key) (songs : list Song) :
  keyed k songs ->
  exists out, bubble_sort songs = Ret out /\ out ≡ₚ songs /\ ascending k out.
Proof.
  intros Hk. unfold bubble_sort.
  destruct songs as [|x songs].
  - exists []. split; [reflexivity|]. split; [reflexivity|constructor].
  - destruct (bubble_passes k (len (x :: songs)) (length songs) (x :: songs) [])
      as (out & H1 & H2 & H3).
    + unfold len. cbn [length]. lia.
    + reflexivity.
    + rewrite app_nil_r. exact Hk.
    + constructor.
    + rewrite Forall_forall. intros a _. constructor.
    + rewrite app_nil_r in H1, H2. cbn [length] in H1. exists out. auto.
Qed.

Lemma bubble_sort_sorts_witness :
  exists out,
    bubble_sort [songC; songA; songB] = Ret out /\
    out ≡ₚ [songC; songA; songB] /\ ascending Title out.
Proof.
  apply (bubble_sort_sorts Title [songC; songA; songB]). repeat constructor.
Defined.

(** ** Selection sort *)

Ltac norm_app :=
  repeat (progress (rewrite <- ?app_assoc, <- ?app_comm_cons; cbn [app])).

Ltac lens :=
  subst; unfold len; repeat (rewrite ?length_app; cbn [length]); lia.

(** The inner loop: [scanned] is the part looked at so far, [s1 ++ y :: s2],
    with the least song [y] at [min_index]. *)
Lemma selection_scan k (songs : list Song) (size : Z) : forall todo pre s1 y s2,
  songs = pre ++ (s1 ++ y :: s2) ++ todo -> size = len songs ->
  keyed k songs ->
  Forall (fun a => key_ltb k a y = false) (s1 ++ y :: s2) ->
  exists r1 m r2,
    for_each (range (Z.of_nat (length pre + length (s1 ++ y :: s2))) size)
      (fun j min_index =>
         let! sj := getitem songs j in
         let! sm := getitem songs min_index in
         let! b := song_lt sj sm in
         Ret (if b then j else min_index))
      (Z.of_nat (length pre + length s1))
    = Ret (Z.of_nat (length pre + length r1)) /\
    (s1 ++ y :: s2) ++ todo = r1 ++ m :: r2 /\
    Forall (fun a => key_ltb k a m = false) (r1 ++ m :: r2).
Proof.
  induction todo as [|z todo IH]; intros pre s1 y s2 Hsongs Hsize Hk Hmin.
  - rewrite range_nil by lens.
    exists s1, y, s2. rewrite app_nil_r. auto.
  - rewrite range_cons by lens.
    cbn [for_each].
    assert (Hz : getitem songs (Z.of_nat (length pre + length (s1 ++ y :: s2))) = Ret z).
    { rewrite Hsongs, app_assoc. apply getitem_mid.
      repeat (rewrite ?length_app; cbn [length]); lia. }
    assert (Hy : getitem songs (Z.of_nat (length pre + length s1)) = Ret y).
    { rewrite Hsongs, <- (app_assoc s1), app_assoc. cbn [app].
      apply getitem_mid. repeat (rewrite ?length_app; cbn [length]); lia. }
    rewrite Hz, Hy. cbn [bind].
    pose proof Hk as Hk'. unfold keyed in Hk'. rewrite Hsongs in Hk'.
    rewrite !Forall_app, !Forall_cons in Hk'.
    destruct Hk' as (_ & (_ & Hky & _) & Hkz & _).
    rewrite (song_lt_key k z y Hkz Hky). cbn [bind].
    destruct (key_ltb k z y) eqn:E.
    + destruct (IH pre (s1 ++ y :: s2) z []) as (r1 & m & r2 & H1 & H2 & H3).
      { rewrite Hsongs. norm_app. reflexivity. }
      { exact Hsize. }
      { exact Hk. }
      { rewrite Forall_app. split; [|constructor; [apply key_ltb_irrefl|constructor]].
        eapply Forall_impl; [exact Hmin|]. intros a Ha. cbv beta in Ha.
        apply (key_ltb_neg_trans k z y a); [apply key_ltb_asym; exact E|exact Ha]. }
      exists r1, m, r2. split; [|split; [|exact H3]].
      * rewrite <- H1. f_equal. f_equal. lens.
      * rewrite <- H2. norm_app. reflexivity.
    + destruct (IH pre s1 y (s2 ++ [z])) as (r1 & m & r2 & H1 & H2 & H3).
      { rewrite Hsongs. norm_app. reflexivity. }
      { exact Hsize. }
      { exact Hk. }
      { rewrite app_comm_cons, app_assoc, Forall_app.
        split; [exact Hmin|constructor; [exact E|constructor]]. }
      exists r1, m, r2. split; [|split; [|exact H3]].
      * rewrite <- H1. f_equal. f_equal. lens.
      * rewrite <- H2. norm_app. reflexivity.
Qed.

Lemma selection_passes k (size : Z) : forall n rest sorted,
  length rest = n -> size = len (sorted ++ rest) ->
  keyed k (sorted ++ rest) -> ascending k sorted ->
  Forall (fun a => Forall (fun b => key_ltb k b a = false) rest) sorted ->
  exists out,
    for_each (range (Z.of_nat (length sorted)) size)
      (fun ind songs =>
         let! min_index :=
           for_each (range (ind + 1) size)
             (fun j min_index =>
                let! sj := getitem songs j in
                let! sm := getitem songs min_index in
                let! b := song_lt sj sm in
                Ret (if b then j else min_index))
             ind in
         swap songs ind min_index)
      (sorted ++ rest)
    = Ret out /\ out ≡ₚ sorted ++ rest /\ ascending k out.
Proof.
  induction n as [|n IH]; intros rest sorted Hn Hsize Hk Hs Hcross.
  - destruct rest; [|discriminate Hn]. rewrite app_nil_r in *.
    rewrite range_nil by lens. exists sorted. auto.
  - destruct rest as [|x rest']; [discriminate Hn|]. cbn [length] in Hn.
    rewrite range_cons by lens. cbn [for_each].
    destruct (selection_scan k (sorted ++ x :: rest') size rest' sorted [] x [])
      as (r1 & m & r2 & H1 & H2 & H3).
    { reflexivity. }
    { exact Hsize. }
    { exact Hk. }
    { constructor; [apply key_ltb_irrefl|constructor]. }
    cbn [app length] in H1, H2.
    replace (Z.of_nat (length sorted + 1)) with (Z.of_nat (length sorted) + 1) in H1 by lia.
    replace (Z.of_nat (length sorted + 0)) with (Z.of_nat (length sorted)) in H1
      by (f_equal; lia).
    rewrite H1. cbn [bind].
    assert (Hsw : exists mid',
              swap (sorted ++ x :: rest') (Z.of_nat (length sorted))
                (Z.of_nat (length sorted + length r1)) = Ret (sorted ++ m :: mid') /\
              mid' ≡ₚ r1 ++ r2 /\ length mid' = length rest').
    { destruct r1 as [|x1 mid].
      - cbn [app] in H2. injection H2 as <- <-. exists rest'.
        replace (Z.of_nat (length sorted + length (@nil Song)))
          with (Z.of_nat (length sorted)) by (f_equal; cbn [length]; lia).
        rewrite (swap_same sorted x rest') by lia. auto.
      - cbn [app] in H2. injection H2 as <- ->. exists (mid ++ x :: r2).
        rewrite (swap_places sorted x mid m r2) by (cbn [length]; lia).
        split; [reflexivity|]. split; [symmetry; apply Permutation_middle|].
        repeat (rewrite ?length_app; cbn [length]). lia. }
    destruct Hsw as (mid' & Hsw & Hp & Hl). rewrite Hsw.
    assert (Hrest : x :: rest' ≡ₚ m :: mid').
    { rewrite H2, Hp. symmetry. apply Permutation_middle. }
    assert (Hperm : (sorted ++ [m]) ++ mid' ≡ₚ sorted ++ x :: rest').
    { rewrite <- app_assoc. cbn [app]. rewrite Hrest. reflexivity. }
    rewrite Forall_forall in Hcross.
    assert (Hm_in : forall b, b ∈ m :: mid' -> b ∈ x :: rest')
      by (intros b Hb; rewrite Hrest; exact Hb).
    destruct (IH mid' (sorted ++ [m])) as (out & Ho1 & Ho2 & Ho3).
    { lia. }
    { rewrite Hsize. unfold len. f_equal. apply Permutation_length. symmetry. exact Hperm. }
    { eapply keyed_perm; [symmetry; exact Hperm|exact Hk]. }
    { apply ascending_app; [exact Hs|repeat constructor|].
      rewrite Forall_forall. intros a Ha. constructor; [|constructor].
      specialize (Hcross a Ha). rewrite Forall_forall in Hcross.
      apply Hcross, Hm_in. left. }
    { rewrite Forall_app. split.
      - rewrite Forall_forall. intros a Ha. rewrite Forall_forall. intros b Hb.
        specialize (Hcross a Ha). rewrite Forall_forall in Hcross.
        apply Hcross, Hm_in. right. exact Hb.
      - constructor; [|constructor]. rewrite Forall_forall. intros b Hb.
        rewrite Forall_forall in H3. apply H3. rewrite <- H2. apply Hm_in. right. exact Hb. }
    rewrite length_app in Ho1. cbn [length] in Ho1.
    rewrite <- app_assoc in Ho1. cbn [app] in Ho1.
    replace (Z.of_nat (length sorted + 1)) with (Z.of_nat (length sorted) + 1) in Ho1 by lia.
    exists out. split; [exact Ho1|]. split; [|exact Ho3].
    rewrite Ho2. exact Hperm.
Qed.

(** X21 (MusicApp.selection_sort): for a list whose songs are all
    compared under one key, [selection_sort] returns without an exception
    an ascending list that holds exactly the songs of the input. *)
Theorem selection_sort_sorts (k : Key) (songs : list Song) :
  keyed k songs ->
  exists out, selection_sort songs = Ret out /\ out ≡ₚ songs /\ ascending k out.
Proof.
  intros Hk. unfold selection_sort.
  destruct (selection_passes k (len songs) (length songs) songs [])
    as (out & H1 & H2 & H3); try reflexivity; try assumption; try constructor.
  exists out. auto.
Qed.

Lemma selection_sort_sorts_witness :
  exists out,
    selection_sort [songC; songA; songB] = Ret out /\
    out ≡ₚ [songC; songA; songB] /\ ascending Title out.
Proof.
  apply (selection_sort_sorts Title [songC; songA; songB]). repeat constructor.
Defined.

(** ** Insertion sort *)

(** The inner loop: the songs of the ascending part still to be looked at
    are [p]; those passed over, [q], have been moved one place up and are
    all above [key]; at the place between them is a stale copy [h]. *)
Lemma insertion_shift k (key_ : Song) (rest : list Song) : forall p q h fuel,
  (length p < fuel)%nat -> key key_ = k -> keyed k p -> ascending k p ->
  exists p1 q1 h1,
    while (R := Empty_set) fuel
      (fun '(songs, j) =>
         and_then (j >=? 0) (let! sj := getitem songs j in song_lt key_ sj))
      (fun '(songs, j) =>
         let! sj := getitem songs j in
         let! songs := setitem songs (j + 1) sj in
         Ret (Next (songs, j - 1)))
      (p ++ h :: q ++ rest, Z.of_nat (length p) - 1)
    = Ret (inl (p1 ++ h1 :: q1 ++ rest, Z.of_nat (length p1) - 1)) /\
    p ++ q = p1 ++ q1 /\
    Forall (fun a => key_ltb k key_ a = false) p1 /\
    (Forall (fun a => key_ltb k key_ a = true) q ->
     Forall (fun a => key_ltb k key_ a = true) q1).
Proof.
  induction p as [|y p' IH] using rev_ind; intros q h fuel Hf Hkey Hk Ha;
    (destruct fuel as [|fuel]; [lia|]); cbn [while].
  - cbn [length app]. change (Z.of_nat 0 - 1 >=? 0) with false. cbn [and_then bind].
    exists [], q, h. repeat split; auto.
  - rewrite length_app in *. cbn [length] in *.
    replace (Z.of_nat (length p' + 1) - 1) with (Z.of_nat (length p')) by lia.
    destruct (Z.geb_spec (Z.of_nat (length p')) 0) as [_|]; [|lia].
    cbn [and_then].
    assert (Hy : forall l, getitem ((p' ++ [y]) ++ l) (Z.of_nat (length p')) = Ret y).
    { intros l. rewrite <- app_assoc. cbn [app]. apply getitem_mid. reflexivity. }
    rewrite !(Hy (h :: q ++ rest)). cbn [bind].
    unfold keyed in Hk. rewrite Forall_app, Forall_cons in Hk. destruct Hk as (Hkp & Hky & _).
    destruct (ascending_app_inv _ _ _ Ha) as (Hap & _ & Hpy).
    rewrite (song_lt_key k key_ y Hkey Hky).
    destruct (key_ltb k key_ y) eqn:E; cbn [bind].
    + rewrite (setitem_mid (p' ++ [y]) h y (q ++ rest))
        by (rewrite length_app; cbn [length]; lia).
      cbn [bind].
      destruct (IH (y :: q) y fuel) as (p1 & q1 & h1 & H1 & H2 & H3 & H4);
        [lia|exact Hkey|exact Hkp|exact Hap|].
      rewrite <- app_assoc. cbn [app].
      cbn [app] in H1. rewrite H1.
      exists p1, q1, h1. split; [reflexivity|]. split; [|split; [exact H3|]].
      * rewrite <- app_assoc. cbn [app]. exact H2.
      * intros Hq. apply H4. constructor; assumption.
    + exists (p' ++ [y]), q, h. rewrite length_app. cbn [length].
      replace (Z.of_nat (length p' + 1) - 1) with (Z.of_nat (length p')) by lia.
      split; [reflexivity|]. split; [reflexivity|]. split; [|auto].
      rewrite Forall_app. split; [|constructor; [exact E|constructor]].
      eapply Forall_impl; [exact Hpy|]. intros a Hay. cbv beta in Hay.
      apply Forall_cons in Hay. destruct Hay as [Hay _].
      apply (key_ltb_neg_trans k a y key_); assumption.
Qed.

Lemma insertion_passes k (size : Z) : forall n rest sorted,
  length rest = n -> size = len (sorted ++ rest) ->
  keyed k (sorted ++ rest) -> ascending k sorted ->
  exists out,
    for_each (range (Z.of_nat (length sorted)) size)
      (fun i songs =>
         let! key := getitem songs i in
         let j := i - 1 in
         let! r :=
           while (S (Z.to_nat i))
             (fun '(songs, j) =>
                and_then (j >=? 0) (let! sj := getitem songs j in song_lt key sj))
             (fun '(songs, j) =>
                let! sj := getitem songs j in
                let! songs := setitem songs (j + 1) sj in
                Ret (Next (R := Empty_set) (songs, j - 1)))
             (songs, j) in
         match r with
         | inr v => match v with end
         | inl (songs, j) => setitem songs (j + 1) key
         end)
      (sorted ++ rest)
    = Ret out /\ out ≡ₚ sorted ++ rest /\ ascending k out.
Proof.
  induction n as [|n IH]; intros rest sorted Hn Hsize Hk Hs.
  - destruct rest; [|discriminate Hn]. rewrite app_nil_r in *.
    rewrite range_nil by lens. exists sorted. auto.
  - destruct rest as [|x rest']; [discriminate Hn|]. cbn [length] in Hn.
    rewrite range_cons by lens. cbn [for_each].
    rewrite (getitem_mid sorted x rest' _ eq_refl). cbn [bind]. cbv zeta.
    pose proof Hk as Hk'. unfold keyed in Hk'. rewrite Forall_app, Forall_cons in Hk'.
    destruct Hk' as (Hks & Hkx & Hkr).
    destruct (insertion_shift k x rest' sorted [] x (S (Z.to_nat (Z.of_nat (length sorted)))))
      as (p1 & q1 & h1 & H1 & H2 & H3 & H4); [lia|exact Hkx|exact Hks|exact Hs|].
    cbn [app] in H1. rewrite H1. cbn [bind].
    replace (Z.of_nat (length p1) - 1 + 1) with (Z.of_nat (length p1)) by lia.
    rewrite (setitem_mid p1 h1 x (q1 ++ rest') _ eq_refl).
    rewrite app_nil_r in H2.
    assert (Hperm : (p1 ++ x :: q1) ++ rest' ≡ₚ sorted ++ x :: rest').
    { rewrite H2, <- !app_assoc. cbn [app]. rewrite <- !Permutation_middle. reflexivity. }
    destruct (IH rest' (p1 ++ x :: q1)) as (out & Ho1 & Ho2 & Ho3).
    { lia. }
    { rewrite Hsize. unfold len. f_equal. apply Permutation_length. symmetry. exact Hperm. }
    { eapply keyed_perm; [symmetry; exact Hperm|exact Hk]. }
    { apply ascending_insert; [rewrite <- H2; exact Hs|exact H3|apply H4; constructor]. }
    replace (length (p1 ++ x :: q1)) with (length sorted + 1)%nat in Ho1
      by (rewrite H2, !length_app; cbn [length]; lia).
    replace (Z.of_nat (length sorted + 1)) with (Z.of_nat (length sorted) + 1) in Ho1 by lia.
    rewrite <- app_assoc in Ho1. cbn [app] in Ho1.
    exists out. split; [exact Ho1|]. split; [|exact Ho3].
    rewrite Ho2. exact Hperm.
Qed.

(** X22 (MusicApp.insertion_sort): for a list of at least two songs, all
    compared under one key, [insertion_sort] returns the list object it was
    given, whose contents are then ascending and exactly the songs of the
    input; the shifting loop stays inside the list and ends. *)
Theorem insertion_sort_sorts (k : Key) (songs : list Song) :
  keyed k songs -> (2 <= length songs)%nat ->
  exists out,
    insertion_sort songs = Ret (out, Some out) /\ out ≡ₚ songs /\ ascending k out.
Proof.
  intros Hk Hlen. unfold insertion_sort.
  destruct (Z.leb_spec (len songs) 1) as [H|_]; [unfold len in H; lia|].
  destruct songs as [|x rest]; [simpl in Hlen; lia|].
  destruct (insertion_passes k (len (x :: rest)) (length rest) rest [x])
    as (out & H1 & H2 & H3); try reflexivity; try assumption; [repeat constructor|].
  cbn [length app] in H1. change (Z.of_nat 1) with 1 in H1.
  rewrite H1. cbn [bind]. exists out. auto.
Qed.

Lemma insertion_sort_sorts_witness :
  exists out,
    insertion_sort [songC; songA; songB] = Ret (out, Some out) /\
    out ≡ₚ [songC; songA; songB] /\ ascending Title out.
Proof.
  apply (insertion_sort_sorts Title [songC; songA; songB]).
  - repeat constructor.
  - simpl. lia.
Defined.

(** ** Quick sort *)

(** The loop of [partition]: between [low] and the place looked at, first
    the songs not above the pivot ([le]), then those above it ([gt]). *)
Lemma partition_loop k (pivot : Song) (high : Z) : forall todo pre le gt post,
  high = Z.of_nat (length pre + length le + length gt + length todo) ->
  key pivot = k -> keyed k (le ++ gt ++ todo) ->
  Forall (fun a => key_ltb k pivot a = false) le ->
  Forall (fun a => key_ltb k pivot a = true) gt ->
  exists le' gt',
    for_each (range (Z.of_nat (length pre + length le + length gt)) high)
      (fun j '(songs, i) =>
         let! sj := getitem songs j in
         let! b := song_le sj pivot in
         if b then
           let i := i + 1 in
           let! songs := swap songs i j in
           Ret (songs, i)
         else Ret (songs, i))
      (pre ++ le ++ gt ++ todo ++ pivot :: post, Z.of_nat (length pre + length le) - 1)
    = Ret (pre ++ le' ++ gt' ++ pivot :: post, Z.of_nat (length pre + length le') - 1) /\
    le' ++ gt' ≡ₚ le ++ gt ++ todo /\
    Forall (fun a => key_ltb k pivot a = false) le' /\
    Forall (fun a => key_ltb k pivot a = true) gt'.
Proof.
  induction todo as [|z todo IH]; intros pre le gt post Hhigh Hp Hk Hle Hgt.
  - rewrite range_nil by lens. cbn [for_each app]. exists le, gt.
    rewrite app_nil_r. auto.
  - rewrite range_cons by lens. cbn [for_each].
    assert (Hz : getitem (pre ++ le ++ gt ++ (z :: todo) ++ pivot :: post)
                   (Z.of_nat (length pre + length le + length gt)) = Ret z).
    { rewrite !app_assoc. rewrite <- (app_assoc _ (z :: todo)). cbn [app].
      apply getitem_mid. repeat (rewrite ?length_app; cbn [length]). lia. }
    rewrite Hz. cbn [bind].
    pose proof Hk as Hk'. unfold keyed in Hk'. rewrite !Forall_app, Forall_cons in Hk'.
    destruct Hk' as (Hkl & Hkg & Hkz & Hkt).
    rewrite (song_le_key k z pivot Hkz Hp). cbn [bind].
    destruct (key_ltb k pivot z) eqn:E; cbn [negb bind].
    + destruct (IH pre le (gt ++ [z]) post) as (le' & gt' & H1 & H2 & H3 & H4).
      { rewrite Hhigh. repeat (rewrite ?length_app; cbn [length]). f_equal. lia. }
      { exact Hp. }
      { eapply keyed_perm; [|exact Hk]. norm_app. reflexivity. }
      { exact Hle. }
      { rewrite Forall_app. split; [exact Hgt|constructor; [exact E|constructor]]. }
      exists le', gt'.
      replace (Z.of_nat (length pre + length le + length gt) + 1)
        with (Z.of_nat (length pre + length le + length (gt ++ [z])))
        by (rewrite length_app; cbn [length]; lia).
      revert H1. norm_app. intros H1. rewrite H1.
      split; [reflexivity|]. split; [|auto]. rewrite H2. norm_app. reflexivity.
    + assert (Hsw : exists gt2,
                swap (pre ++ le ++ gt ++ (z :: todo) ++ pivot :: post)
                  (Z.of_nat (length pre + length le) - 1 + 1)
                  (Z.of_nat (length pre + length le + length gt))
                = Ret (pre ++ (le ++ [z]) ++ gt2 ++ todo ++ pivot :: post) /\
                gt2 ≡ₚ gt /\ length gt2 = length gt).
      { replace (Z.of_nat (length pre + length le) - 1 + 1)
          with (Z.of_nat (length pre + length le)) by lia.
        destruct gt as [|g gt1].
        - exists []. cbn [app length]. rewrite Nat.add_0_r.
          replace (pre ++ le ++ z :: todo ++ pivot :: post)
            with ((pre ++ le) ++ z :: todo ++ pivot :: post) by (norm_app; reflexivity).
          rewrite swap_same by (rewrite length_app; reflexivity).
          split; [norm_app; reflexivity|auto].
        - exists (gt1 ++ [g]).
          replace (pre ++ le ++ (g :: gt1) ++ (z :: todo) ++ pivot :: post)
            with ((pre ++ le) ++ g :: gt1 ++ z :: todo ++ pivot :: post)
            by (norm_app; reflexivity).
          rewrite (swap_places (pre ++ le) g gt1 z)
            by (repeat (rewrite ?length_app; cbn [length]); lia).
          split; [norm_app; reflexivity|].
          split; [symmetry; apply Permutation_cons_append|].
          rewrite length_app. cbn [length]. lia. }
      destruct Hsw as (gt2 & Hsw & Hp2 & Hl2). rewrite Hsw. cbn [bind].
      destruct (IH pre (le ++ [z]) gt2 post) as (le' & gt' & H1 & H2 & H3 & H4).
      { rewrite Hhigh. repeat (rewrite ?length_app; cbn [length]). f_equal. lia. }
      { exact Hp. }
      { eapply keyed_perm; [|exact Hk]. rewrite Hp2. norm_app.
        rewrite !Permutation_middle. reflexivity. }
      { rewrite Forall_app. split; [exact Hle|constructor; [exact E|constructor]]. }
      { rewrite Hp2. exact Hgt. }
      exists le', gt'.
      replace (Z.of_nat (length pre + length le + length gt) + 1)
        with (Z.of_nat (length pre + length (le ++ [z]) + length gt2))
        by (rewrite length_app; cbn [length]; lia).
      replace (Z.of_nat (length pre + length le) - 1 + 1)
        with (Z.of_nat (length pre + length (le ++ [z])) - 1)
        by (rewrite length_app; cbn [length]; lia).
      cbv zeta in H1 |- *. rewrite H1.
      split; [reflexivity|]. split; [|auto]. rewrite H2, Hp2. norm_app.
      rewrite !Permutation_middle. reflexivity.
Qed.

(** [partition] on the songs from [low] to [high]: the pivot, the last of
    them, ends between those not above it and those above it. *)
Lemma partition_spec k (pre seg : list Song) (pivot : Song) (post : list Song) :
  keyed k (seg ++ [pivot]) ->
  exists le gt,
    partition (pre ++ seg ++ pivot :: post)
      (Z.of_nat (length pre)) (Z.of_nat (length pre + length seg))
    = Ret (pre ++ le ++ pivot :: gt ++ post, Z.of_nat (length pre + length le)) /\
    le ++ gt ≡ₚ seg /\
    Forall (fun a => key_ltb k pivot a = false) le /\
    Forall (fun a => key_ltb k pivot a = true) gt.
Proof.
  intros Hk. unfold keyed in Hk. rewrite Forall_app, Forall_cons in Hk.
  destruct Hk as (Hks & Hkp & _).
  unfold partition.
  replace (pre ++ seg ++ pivot :: post) with ((pre ++ seg) ++ pivot :: post)
    by (norm_app; reflexivity).
  rewrite (getitem_mid (pre ++ seg) pivot post) by lens. cbn [bind].
  destruct (partition_loop k pivot (Z.of_nat (length pre + length seg)) seg pre [] [] post)
    as (le & gt & H1 & H2 & H3 & H4).
  { cbn [length]. f_equal. lia. }
  { exact Hkp. }
  { exact Hks. }
  { constructor. }
  { constructor. }
  cbn [app length] in H1, H2. rewrite !Nat.add_0_r in H1.
  cbv zeta in H1 |- *. norm_app. rewrite H1. cbn [bind].
  replace (Z.of_nat (length pre + length le) - 1 + 1)
    with (Z.of_nat (length pre + length le)) by lia.
  destruct gt as [|g gt1].
  - exists le, []. cbn [app].
    replace (pre ++ le ++ pivot :: post) with ((pre ++ le) ++ pivot :: post)
      by (norm_app; reflexivity).
    assert (Hl : length seg = length le).
    { rewrite <- H2, length_app. cbn [length]. lia. }
    rewrite Hl.
    rewrite swap_same by (rewrite length_app; reflexivity). cbn [bind].
    auto.
  - exists le, (gt1 ++ [g]).
    assert (Hl : length seg = (length le + S (length gt1))%nat).
    { rewrite <- H2, length_app. cbn [length]. lia. }
    replace (pre ++ le ++ (g :: gt1) ++ pivot :: post)
      with ((pre ++ le) ++ g :: gt1 ++ pivot :: post) by (norm_app; reflexivity).
    rewrite (swap_places (pre ++ le) g gt1 pivot post)
      by (rewrite ?Hl, ?length_app; lia).
    cbn [bind]. split; [norm_app; reflexivity|].
    split; [rewrite <- H2; apply Permutation_app_head; symmetry;
            apply Permutation_cons_append|].
    split; [exact H3|].
    rewrite <- Permutation_cons_append. exact H4.
Qed.

(** [quick_sort] on the songs from [low] to [high], the part [seg] of the
    list: that part is put in order, the rest stays. *)
Lemma quick_sort_rec_sorts k : forall depth seg pre post,
  (length seg <= depth)%nat -> keyed k seg ->
  exists out,
    quick_sort_rec (S depth) (pre ++ seg ++ post)
      (Z.of_nat (length pre)) (Z.of_nat (length pre + length seg) - 1)
    = Ret (pre ++ out ++ post) /\
    out ≡ₚ seg /\ ascending k out.
Proof.
  induction depth as [|d IH]; intros seg pre post Hlen Hk.
  - destruct seg; [|cbn [length] in Hlen; lia].
    exists []. cbn [quick_sort_rec length].
    destruct (Z.ltb_spec (Z.of_nat (length pre)) (Z.of_nat (length pre + 0) - 1)); [lia|].
    split; [reflexivity|]. split; [reflexivity|constructor].
  - destruct (le_lt_dec (length seg) 1) as [Hs|Hs].
    + exists seg. cbn [quick_sort_rec].
      destruct (Z.ltb_spec (Z.of_nat (length pre))
                  (Z.of_nat (length pre + length seg) - 1)); [lia|].
      split; [reflexivity|]. split; [reflexivity|].
      destruct seg as [|a [|b seg]]; [constructor|repeat constructor|].
      cbn [length] in Hs. lia.
    + destruct (exists_last (l := seg)) as (seg0 & pivot & ->).
      { intros ->. cbn [length] in Hs. lia. }
      rewrite length_app in Hlen, Hs. cbn [length] in Hlen, Hs.
      change (quick_sort_rec (S (S d))) with
        (fun songs low high =>
           if low <? high then
             let! (songs, pi) := partition songs low high in
             let! songs := quick_sort_rec (S d) songs low (pi - 1) in
             quick_sort_rec (S d) songs (pi + 1) high
           else Ret songs).
      cbv beta.
      destruct (Z.ltb_spec (Z.of_nat (length pre))
                  (Z.of_nat (length pre + length (seg0 ++ [pivot])) - 1)) as [_|Hc];
        [|rewrite length_app in Hc; cbn [length] in Hc; lia].
      destruct (partition_spec k pre seg0 pivot post Hk) as (le & gt & H1 & H2 & H3 & H4).
      replace (Z.of_nat (length pre + length (seg0 ++ [pivot])) - 1)
        with (Z.of_nat (length pre + length seg0))
        by (rewrite length_app; cbn [length]; lia).
      replace (pre ++ (seg0 ++ [pivot]) ++ post) with (pre ++ seg0 ++ pivot :: post)
        by (norm_app; reflexivity).
      rewrite H1. cbn [bind].
      assert (Hl : length seg0 = (length le + length gt)%nat).
      { rewrite <- H2, length_app. reflexivity. }
      assert (Hk0 : keyed k (le ++ gt)).
      { eapply keyed_perm; [symmetry; exact H2|].
        unfold keyed in *. rewrite Forall_app in Hk. tauto. }
      pose proof Hk0 as Hk1. unfold keyed in Hk1. rewrite Forall_app in Hk1.
      destruct Hk1 as [Hkl Hkg].
      destruct (IH le pre (pivot :: gt ++ post)) as (ol & Ha & Hb & Hc); [lia|exact Hkl|].
      rewrite Ha. cbn [bind].
      destruct (IH gt (pre ++ ol ++ [pivot]) post) as (og & Ha' & Hb' & Hc'); [lia|exact Hkg|].
      assert (Hlo : length ol = length le) by (rewrite Hb; reflexivity).
      replace (Z.of_nat (length (pre ++ ol ++ [pivot])))
        with (Z.of_nat (length pre + length le) + 1) in Ha'
        by (rewrite !length_app, Hlo; cbn [length]; lia).
      replace (Z.of_nat (length (pre ++ ol ++ [pivot]) + length gt) - 1)
        with (Z.of_nat (length pre + length seg0)) in Ha'
        by (rewrite !length_app, Hlo, Hl; cbn [length]; lia).
      revert Ha'. norm_app. intros Ha'. rewrite Ha'.
      exists (ol ++ pivot :: og). split; [norm_app; reflexivity|].
      split.
      * rewrite Hb, Hb', <- H2. rewrite <- app_assoc.
        apply Permutation_app_head. apply Permutation_cons_append.
      * apply ascending_insert.
        -- apply ascending_app; [exact Hc|exact Hc'|].
           rewrite Hb. eapply Forall_impl; [exact H3|].
           intros a Ha1. cbv beta in Ha1. rewrite Hb'.
           eapply Forall_impl; [exact H4|].
           intros b Hb1. cbv beta in Hb1.
           apply key_ltb_asym. exact (key_ltb_le_lt k a pivot b Ha1 Hb1).
        -- rewrite Hb. exact H3.
        -- rewrite Hb'. exact H4.
Qed.

(** X23: [quick_sort] returns a rearrangement of its songs that is in
    order of the key they share, when the recursion is allowed a depth of
    the number of songs. *)
Theorem quick_sort_sorts (k : Key) (depth : nat) (songs : list Song) :
  keyed k songs -> (length songs <= depth)%nat ->
  exists out,
    quick_sort (S depth) songs = Ret out /\ out ≡ₚ songs /\ ascending k out.
Proof.
  intros Hk Hd. unfold quick_sort.
  destruct (quick_sort_rec_sorts k depth songs [] [] Hd Hk) as (out & H1 & H2 & H3).
  exists out. cbn [app length] in H1. rewrite !app_nil_r in H1.
  unfold len. rewrite <- H1. auto.
Qed.

Lemma quick_sort_sorts_witness :
  exists out,
    quick_sort 4 [songC; songA; songB] = Ret out /\
    out ≡ₚ [songC; songA; songB] /\ ascending Title out.
Proof.
  apply (quick_sort_sorts Title 3 [songC; songA; songB]).
  - repeat constructor.
  - simpl. lia.
Defined.

(** ** Bubble sort that stops early *)

(** One pass that records whether it swapped: when it did not, the part
    passed over was in order already. *)
Lemma flagged_pass k : forall n pre x rest sw0,
  (n <= length rest)%nat -> keyed k (pre ++ x :: rest) ->
  Forall (fun a => key_ltb k x a = false) pre ->
  (sw0 = false -> ascending k pre) ->
  exists pre' x' sw,
    for_each (range (Z.of_nat (length pre)) (Z.of_nat (length pre + n)))
      (fun j '(songs, swapped) =>
         let! (songs, sw) := bubble_step j songs in
         Ret (songs, sw || swapped))
      (pre ++ x :: rest, sw0)
    = Ret (pre' ++ x' :: drop n rest, sw) /\
    length pre' = (length pre + n)%nat /\
    pre' ++ [x'] ≡ₚ pre ++ x :: take n rest /\
    Forall (fun a => key_ltb k x' a = false) pre' /\
    (sw = false -> ascending k pre').
Proof.
  induction n as [|n IH]; intros pre x rest sw0 Hn Hk Hpre Hsw.
  - exists pre, x, sw0. rewrite range_nil by lia. cbn [for_each take drop].
    rewrite Nat.add_0_r. split; [reflexivity|]. split; [reflexivity|].
    split; [reflexivity|]. split; [exact Hpre|exact Hsw].
  - destruct rest as [|y rest]; [simpl in Hn; lia|].
    rewrite range_cons by lia. cbn [for_each].
    pose proof Hk as Hk'. unfold keyed in Hk'.
    rewrite Forall_app, !Forall_cons in Hk'. destruct Hk' as (Hkp & Hx & Hy & Hkr).
    rewrite (bubble_step_at k pre x y rest _ eq_refl Hx Hy).
    destruct (key_ltb k y x) eqn:E; cbn [bind orb].
    + destruct (IH (pre ++ [y]) x rest true) as (pre' & x' & sw & H1 & H2 & H3 & H4 & H5).
      { simpl in Hn. lia. }
      { eapply keyed_perm; [|exact Hk]. rewrite <- app_assoc. cbn [app].
        apply Permutation_app_head. apply perm_swap. }
      { rewrite Forall_app. split; [exact Hpre|]. constructor; [|constructor].
        apply key_ltb_asym. exact E. }
      { discriminate. }
      rewrite length_app in H1, H2. cbn [length] in H1, H2.
      rewrite <- app_assoc in H1. cbn [app] in H1.
      replace (Z.of_nat (length pre) + 1) with (Z.of_nat (length pre + 1)) by lia.
      replace (length pre + S n)%nat with (length pre + 1 + n)%nat by lia.
      exists pre', x', sw. rewrite H1. cbn [drop take]. split; [reflexivity|].
      split; [lia|]. split; [|auto].
      rewrite H3, <- app_assoc. cbn [app]. apply Permutation_app_head. apply perm_swap.
    + assert (Hall : Forall (fun a => key_ltb k y a = false) (pre ++ [x])).
      { rewrite Forall_app. split; [|constructor; [exact E|constructor]].
        eapply Forall_impl; [exact Hpre|]. intros z Hz. cbv beta in Hz.
        apply (key_ltb_neg_trans k z x y); assumption. }
      destruct (IH (pre ++ [x]) y rest sw0) as (pre' & x' & sw & H1 & H2 & H3 & H4 & H5).
      { simpl in Hn. lia. }
      { rewrite <- app_assoc. exact Hk. }
      { exact Hall. }
      { intros H0. apply ascending_app; [exact (Hsw H0)|repeat constructor|].
        eapply Forall_impl; [exact Hpre|]. intros z Hz. cbv beta in Hz.
        constructor; [exact Hz|constructor]. }
      rewrite length_app in H1, H2. cbn [length] in H1, H2.
      rewrite <- app_assoc in H1. cbn [app] in H1.
      replace (Z.of_nat (length pre) + 1) with (Z.of_nat (length pre + 1)) by lia.
      replace (length pre + S n)%nat with (length pre + 1 + n)%nat by lia.
      exists pre', x', sw. rewrite H1. cbn [drop take]. split; [reflexivity|].
      split; [lia|]. split; [|auto].
      rewrite H3, <- app_assoc. reflexivity.
Qed.

(** The passes of [optimized_bubble_sort] from the [i]-th on, whether the
    loop runs to its end or is left early. *)
Lemma flagged_passes k (n : Z) : forall cnt u s,
  n = Z.of_nat (length u + length s) -> length u = S cnt ->
  keyed k (u ++ s) -> ascending k s ->
  Forall (fun a => Forall (fun b => key_ltb k b a = false) s) u ->
  exists out,
    for_break (range (Z.of_nat (length s)) (n - 1))
      (fun i songs =>
         let! (songs, swapped) :=
           for_each (range 0 (n - i - 1))
             (fun j '(songs, swapped) =>
                let! (songs, sw) := bubble_step j songs in
                Ret (songs, sw || swapped))
             (songs, false) in
         if negb swapped then Ret (Break songs) else Ret (Next songs))
      (u ++ s)
    = Ret out /\ out ≡ₚ u ++ s /\ ascending k out.
Proof.
  induction cnt as [|cnt IH]; intros u s Hn Hu Hk Hs Hus.
  - rewrite range_nil by lia. cbn [for_break].
    exists (u ++ s). split; [reflexivity|]. split; [reflexivity|].
    destruct u as [|a [|b u]]; try discriminate Hu. cbn [app].
    apply Forall_cons in Hus. destruct Hus as [Ha _]. constructor; assumption.
  - destruct u as [|x0 ru]; [discriminate Hu|]. cbn [length] in Hu.
    rewrite range_cons by (cbn [length] in Hn; lia).
    cbn [for_break].
    destruct (flagged_pass k (length ru) [] x0 (ru ++ s) false)
      as (pre' & x' & sw & H1 & H2 & H3 & H4 & H5).
    { rewrite length_app. lia. }
    { exact Hk. }
    { constructor. }
    { intros _. constructor. }
    cbn [length app] in H1, H2, H3. change (Z.of_nat 0) with 0 in H1.
    replace (n - Z.of_nat (length s) - 1) with (Z.of_nat (0 + length ru))
      by (cbn [length] in Hn; lia).
    cbn [app]. rewrite H1. cbn [bind].
    rewrite drop_app_length in *. rewrite take_app_length in H3.
    assert (Hx' : In x' (x0 :: ru)).
    { apply list_elem_of_In. rewrite <- H3. apply list_elem_of_In, in_or_app. right. left.
      reflexivity. }
    assert (Hpre' : forall a, In a pre' -> In a (x0 :: ru)).
    { intros a Ha. apply list_elem_of_In. rewrite <- H3.
      apply list_elem_of_In, in_or_app. left. exact Ha. }
    assert (Hperm : pre' ++ x' :: s ≡ₚ (x0 :: ru) ++ s).
    { rewrite <- H3, <- app_assoc. reflexivity. }
    rewrite Forall_forall in Hus.
    assert (Hxs : ascending k (x' :: s)).
    { constructor; [exact Hs|]. apply Hus, list_elem_of_In, Hx'. }
    assert (Hps : Forall (fun a => Forall (fun b => key_ltb k b a = false) (x' :: s)) pre').
    { rewrite Forall_forall. intros a Ha. apply list_elem_of_In in Ha.
      constructor; [|apply Hus, list_elem_of_In, Hpre', Ha].
      rewrite Forall_forall in H4. apply H4, list_elem_of_In, Ha. }
    destruct sw; cbn [negb].
    + destruct (IH pre' (x' :: s)) as (out & Ho1 & Ho2 & Ho3).
      { cbn [length] in *. lia. }
      { lia. }
      { eapply keyed_perm; [symmetry; exact Hperm|exact Hk]. }
      { exact Hxs. }
      { exact Hps. }
      replace (Z.of_nat (length s) + 1) with (Z.of_nat (length (x' :: s)))
        by (cbn [length]; lia).
      exists out. split; [exact Ho1|]. split; [|exact Ho3].
      rewrite Ho2. exact Hperm.
    + exists (pre' ++ x' :: s). split; [reflexivity|]. split; [exact Hperm|].
      apply ascending_app; [exact (H5 eq_refl)|exact Hxs|exact Hps].
Qed.

(** X24 (MusicApp.optimized_bubble_sort): for a list whose songs are all
    compared by the key [k], the call returns a rearrangement of the list
    that is in order of [k]. *)
Theorem optimized_bubble_sort_sorts (k : Key) (songs : list Song) :
  keyed k songs ->
  exists out,
    optimized_bubble_sort songs = Ret out /\ out ≡ₚ songs /\ ascending k out.
Proof.
  intros Hk. unfold optimized_bubble_sort.
  destruct songs as [|s0 rest].
  - exists []. split; [reflexivity|]. split; [reflexivity|constructor].
  - destruct (flagged_passes k (len (s0 :: rest)) (length rest) (s0 :: rest) [])
      as (out & H1 & H2 & H3).
    + unfold len. cbn [length]. f_equal. lia.
    + reflexivity.
    + rewrite app_nil_r. exact Hk.
    + constructor.
    + apply Forall_forall. intros. constructor.
    + rewrite app_nil_r in H1, H2. cbn [length] in H1. change (Z.of_nat 0) with 0 in H1.
      exists out. auto.
Qed.

Lemma optimized_bubble_sort_sorts_witness :
  exists out,
    optimized_bubble_sort [songC; songA; songB] = Ret out /\
    out ≡ₚ [songC; songA; songB] /\ ascending Title out.
Proof.
  apply (optimized_bubble_sort_sorts Title [songC; songA; songB]).
  repeat constructor.
Defined.

(** ** All places of a song in a sorted list *)

Lemma find_all_from_spec k (s : Song) : forall songs index acc,
  key s = k -> keyed k songs -> ascending k songs ->
  exists out,
    find_all_from index songs s acc = Ret (acc ++ out) /\
    forall i : Z,
      i ∈ out <->
      exists (n : nat) (x : Song),
        i = index + Z.of_nat n /\ songs !! n = Some x /\ song_eq x s = true.
Proof.
  induction songs as [|y rest IH]; intros index acc Hs Hk Hasc.
  - exists []. cbn [find_all_from]. rewrite app_nil_r. split; [reflexivity|].
    intros i. split.
    + intros H. apply elem_of_nil in H. contradiction.
    + intros (n & x & _ & H & _). rewrite lookup_nil in H. discriminate.
  - pose proof Hk as Hk'. unfold keyed in Hk'. rewrite Forall_cons in Hk'.
    destruct Hk' as [Hy Hr].
    unfold ascending in Hasc. apply StronglySorted_inv in Hasc.
    destruct Hasc as [Hasc Hyr].
    cbn [find_all_from].
    destruct (song_eq y s) eqn:E.
    + destruct (IH (index + 1) (acc ++ [index]) Hs Hr Hasc) as (out & H1 & H2).
      exists (index :: out). rewrite H1, <- app_assoc. split; [reflexivity|].
      intros i. rewrite elem_of_cons, H2. split.
      * intros [->|(n & x & -> & Hn & Hx)].
        -- exists 0%nat, y. split; [lia|]. split; [reflexivity|exact E].
        -- exists (S n), x. split; [lia|]. split; [exact Hn|exact Hx].
      * intros (n & x & -> & Hn & Hx). destruct n as [|n].
        -- left. lia.
        -- right. exists n, x. split; [lia|]. split; [exact Hn|exact Hx].
    + rewrite (song_gt_key k y s Hy Hs). cbn [bind].
      destruct (key_ltb k s y) eqn:G.
      * exists []. rewrite app_nil_r. split; [reflexivity|].
        pose proof (no_match_right k s y rest Hs Hy Hr Hyr G) as Hno.
        intros i. split.
        -- intros H. apply elem_of_nil in H. contradiction.
        -- intros (n & x & _ & Hn & Hx). rewrite Forall_forall in Hno.
           rewrite (Hno x) in Hx; [discriminate|].
           eapply list_elem_of_lookup_2. exact Hn.
      * destruct (IH (index + 1) acc Hs Hr Hasc) as (out & H1 & H2).
        exists out. split; [exact H1|].
        intros i. rewrite H2. split.
        -- intros (n & x & -> & Hn & Hx). exists (S n), x.
           split; [lia|]. split; [exact Hn|exact Hx].
        -- intros (n & x & -> & Hn & Hx). destruct n as [|n].
           ++ cbn in Hn. injection Hn as <-. rewrite E in Hx. discriminate.
           ++ exists n, x. split; [lia|]. split; [exact Hn|exact Hx].
Qed.

(** X25 (MusicApp.linear_search_find_all_elements): on a list in ascending
    order of the key [k] the call returns the indices of exactly the songs
    that are equal to the song looked for; leaving the loop at the first
    greater song loses none of them. *)
Theorem find_all_elements_complete (k : Key) (songs : list Song) (s : Song) :
  key s = k -> keyed k songs -> ascending k songs ->
  exists out,
    linear_search_find_all_elements songs s = Ret out /\
    forall i : Z,
      i ∈ out <->
      exists (n : nat) (x : Song),
        i = Z.of_nat n /\ songs !! n = Some x /\ song_eq x s = true.
Proof.
  intros Hs Hk Hasc. unfold linear_search_find_all_elements.
  destruct (find_all_from_spec k s songs 0 [] Hs Hk Hasc) as (out & H1 & H2).
  exists out. split; [exact H1|].
  intros i. rewrite H2. split; intros (n & x & Hn & Hx); exists n, x; (split; [lia|exact Hx]).
Qed.

Lemma find_all_elements_complete_witness :
  exists out,
    linear_search_find_all_elements [songA; songB; songB; songC] songB = Ret out /\
    forall i : Z,
      i ∈ out <->
      exists (n : nat) (x : Song),
        i = Z.of_nat n /\ [songA; songB; songB; songC] !! n = Some x /\
        song_eq x songB = true.
Proof.
  apply (find_all_elements_complete Title [songA; songB; songB; songC] songB).
  - reflexivity.
  - repeat constructor.
  - repeat constructor.
Defined.

(** ** Binary search on a sorted list *)

Lemma getitem_lookup {A} (l : list A) (i : Z) :
  0 <= i < len l ->
  exists x, getitem l i = Ret x /\ l !! Z.to_nat i = Some x.
Proof.
  intros Hi. unfold getitem, norm_index.
  destruct (Z.ltb_spec i 0); [lia|].
  destruct (Z.ltb_spec i 0); [lia|].
  destruct (Z.leb_spec (len l) i); [lia|]. cbn [orb].
  destruct (l !! Z.to_nat i) eqn:E; [eauto|].
  apply lookup_ge_None in E. unfold len in Hi. lia.
Qed.

(** In an ascending list a later song is not below an earlier one. *)
Lemma ascending_lookup k (l : list Song) : forall (i j : nat) (a b : Song),
  ascending k l -> l !! i = Some a -> l !! j = Some b -> (i < j)%nat ->
  key_ltb k b a = false.
Proof.
  unfold ascending. induction l as [|y l IH]; intros i j a b Hasc Hi Hj Hij.
  - rewrite lookup_nil in Hi. discriminate.
  - apply StronglySorted_inv in Hasc. destruct Hasc as [Hasc Hy].
    destruct j as [|j]; [lia|]. cbn in Hj.
    destruct i as [|i].
    + cbn in Hi. injection Hi as <-. rewrite Forall_forall in Hy.
      apply Hy. eapply list_elem_of_lookup_2. exact Hj.
    + cbn in Hi. apply (IH i j a b Hasc Hi Hj). lia.
Qed.

(** The search between [low] and [high] when a song equal to the one
    looked for stands at a place [p >= 1] between them. *)
Lemma binary_search_between k (songs : list Song) (s : Song) (p : nat) (x : Song) :
  key s = k -> keyed k songs -> ascending k songs ->
  songs !! p = Some x -> song_eq x s = true -> (1 <= p)%nat ->
  forall depth low high,
    0 <= low <= Z.of_nat p -> Z.of_nat p <= high < len songs ->
    high - low < Z.of_nat depth ->
    exists (i : nat) (y : Song),
      binary_search depth songs s low (Some high) = Ret (Z.of_nat i) /\
      songs !! i = Some y /\ song_eq y s = true.
Proof.
  intros Hs Hk Hasc Hp Hx Hp1.
  assert (Hkx : key x = k).
  { unfold keyed in Hk. rewrite Forall_forall in Hk. apply Hk.
    eapply list_elem_of_lookup_2. exact Hp. }
  assert (Hxs : key_cmp k x s = Eq).
  { rewrite (song_eq_key k x s Hkx Hs) in Hx.
    destruct (key_cmp k x s); [reflexivity|discriminate|discriminate]. }
  induction depth as [|d IH]; intros low high Hlow Hhigh Hd; [lia|].
  cbn [binary_search or_default].
  destruct (Z.eqb_spec high 0) as [H0|_]; [lia|].
  destruct (Z.gtb_spec low high) as [Hgt|_]; [lia|].
  assert (Hmid : low <= (low + high) / 2 <= high).
  { split; [apply Z.div_le_lower_bound; lia|apply Z.div_le_upper_bound; lia]. }
  destruct (getitem_lookup songs ((low + high) / 2)) as (m & Hg & Hm); [lia|].
  rewrite Hg. cbn [bind].
  assert (Hkm : key m = k).
  { unfold keyed in Hk. rewrite Forall_forall in Hk. apply Hk.
    eapply list_elem_of_lookup_2. exact Hm. }
  destruct (song_eq m s) eqn:E.
  - exists (Z.to_nat ((low + high) / 2)), m.
    rewrite Z2Nat.id by lia. auto.
  - rewrite (song_lt_key k m s Hkm Hs). cbn [bind].
    destruct (key_ltb k m s) eqn:L.
    + apply IH; [|lia|lia].
      split; [lia|].
      destruct (Z_lt_le_dec ((low + high) / 2) (Z.of_nat p)) as [|Hle]; [lia|].
      exfalso.
      destruct (Z.eq_dec ((low + high) / 2) (Z.of_nat p)) as [Heq|Hne].
      * rewrite Heq, Nat2Z.id, Hp in Hm. injection Hm as <-. congruence.
      * assert (Hlt : key_ltb k m x = false).
        { apply (ascending_lookup k songs p (Z.to_nat ((low + high) / 2)) x m Hasc Hp Hm).
          lia. }
        unfold key_ltb in Hlt, L. rewrite (key_cmp_eq_r k x s m Hxs) in Hlt.
        rewrite L in Hlt. discriminate.
    + pose proof (key_gt_of_not_lt_ne k m s Hkm Hs L) as G.
      assert (E' : song_eq s m = false).
      { rewrite (song_eq_key k s m Hs Hkm). rewrite (song_eq_key k m s Hkm Hs) in E.
        rewrite (key_cmp_antisym k s m). destruct (key_cmp k m s); simpl; congruence. }
      specialize (G E').
      assert (Hpm : Z.of_nat p < (low + high) / 2).
      { destruct (Z_lt_le_dec (Z.of_nat p) ((low + high) / 2)) as [|Hle]; [assumption|].
        exfalso.
        destruct (Z.eq_dec ((low + high) / 2) (Z.of_nat p)) as [Heq|Hne].
        * rewrite Heq, Nat2Z.id, Hp in Hm. injection Hm as <-. congruence.
        * assert (Hlt : key_ltb k x m = false).
          { apply (ascending_lookup k songs (Z.to_nat ((low + high) / 2)) p m x Hasc Hm Hp).
            lia. }
          unfold key_ltb in Hlt, G. rewrite (key_cmp_eq_l k x s m Hxs) in Hlt.
          rewrite G in Hlt. discriminate. }
      apply IH; lia.
Qed.

(** X26 (MusicApp.binary_search): on a list in ascending order of the key
    [k], a song that has an equal at a place other than the first is
    found: with the default [low] and [high] and a recursion depth above
    the number of songs, the call returns the index of a song equal to the
    one looked for. *)
Theorem binary_search_finds_beyond_first (k : Key) (songs : list Song) (s : Song)
    (p : nat) (x : Song) (depth : nat) :
  key s = k -> keyed k songs -> ascending k songs ->
  songs !! p = Some x -> song_eq x s = true -> (1 <= p)%nat ->
  (length songs < depth)%nat ->
  exists (i : nat) (y : Song),
    binary_search depth songs s 0 None = Ret (Z.of_nat i) /\
    songs !! i = Some y /\ song_eq y s = true.
Proof.
  intros Hs Hk Hasc Hp Hx Hp1 Hd.
  assert (Hlen : Z.of_nat p < len songs).
  { apply lookup_lt_Some in Hp. unfold len. lia. }
  destruct (binary_search_between k songs s p x Hs Hk Hasc Hp Hx Hp1
              depth 0 (len songs - 1)) as (i & y & H1 & H2); [lia|lia|unfold len; lia|].
  exists i, y. split; [|exact H2]. rewrite <- H1.
  destruct depth as [|d]; [reflexivity|].
  cbn [binary_search or_default].
  destruct (Z.eqb_spec (len songs - 1) 0) as [H0|_]; [lia|reflexivity].
Qed.

Lemma binary_search_finds_beyond_first_witness :
  exists (i : nat) (y : Song),
    binary_search 4 [songA; songB; songC] songC 0 None = Ret (Z.of_nat i) /\
    [songA; songB; songC] !! i = Some y /\ song_eq y songC = true.
Proof.
  apply (binary_search_finds_beyond_first Title [songA; songB; songC] songC 2 songC 4).
  - reflexivity.
  - repeat constructor.
  - repeat constructor.
  - reflexivity.
  - reflexivity.
  - lia.
  - simpl. lia.
Defined.

(** ** Cocktail sort *)

(** Behind a prefix [lo] the list operations act as on the rest alone. *)
Lemma getitem_shift {A} (lo l : list A) (j : Z) :
  0 <= j -> getitem (lo ++ l) (len lo + j) = getitem l j.
Proof.
  intros Hj. unfold getitem, norm_index, len. rewrite length_app.
  destruct (Z.ltb_spec (Z.of_nat (length lo) + j) 0); [lia|].
  destruct (Z.ltb_spec j 0); [lia|].
  destruct (Z.ltb_spec (Z.of_nat (length lo) + j) 0); [lia|].
  destruct (Z.ltb_spec j 0); [lia|]. cbn [orb].
  destruct (Z.leb_spec (Z.of_nat (length lo + length l)) (Z.of_nat (length lo) + j));
    destruct (Z.leb_spec (Z.of_nat (length l)) j); try lia; [reflexivity|].
  replace (Z.to_nat (Z.of_nat (length lo) + j)) with (length lo + Z.to_nat j)%nat by lia.
  rewrite lookup_app_r by lia.
  replace (length lo + Z.to_nat j - length lo)%nat with (Z.to_nat j) by lia.
  reflexivity.
Qed.

Lemma setitem_shift {A} (lo l : list A) (j : Z) (x : A) :
  0 <= j ->
  setitem (lo ++ l) (len lo + j) x = let! l' := setitem l j x in Ret (lo ++ l').
Proof.
  intros Hj. unfold setitem, norm_index, len. rewrite length_app.
  destruct (Z.ltb_spec (Z.of_nat (length lo) + j) 0); [lia|].
  destruct (Z.ltb_spec j 0); [lia|].
  destruct (Z.ltb_spec (Z.of_nat (length lo) + j) 0); [lia|].
  destruct (Z.ltb_spec j 0); [lia|]. cbn [orb].
  destruct (Z.leb_spec (Z.of_nat (length lo + length l)) (Z.of_nat (length lo) + j));
    destruct (Z.leb_spec (Z.of_nat (length l)) j); try lia; [reflexivity|].
  cbn [bind]. f_equal.
  replace (Z.to_nat (Z.of_nat (length lo) + j)) with (length lo + Z.to_nat j)%nat by lia.
  apply insert_app_r.
Qed.

Lemma swap_shift {A} (lo l : list A) (i j : Z) :
  0 <= i -> 0 <= j ->
  swap (lo ++ l) (len lo + i) (len lo + j) = let! l' := swap l i j in Ret (lo ++ l').
Proof.
  intros Hi Hj. unfold swap.
  rewrite (getitem_shift lo l j Hj). destruct (getitem l j) as [a|e]; [|reflexivity].
  cbn [bind].
  rewrite (getitem_shift lo l i Hi). destruct (getitem l i) as [b|e]; [|reflexivity].
  cbn [bind].
  rewrite (setitem_shift lo l i a Hi). destruct (setitem l i a) as [l1|e]; [|reflexivity].
  cbn [bind].
  rewrite (setitem_shift lo l1 j b Hj). destruct (setitem l1 j b); reflexivity.
Qed.

Lemma bubble_step_shift (lo l : list Song) (j : Z) :
  0 <= j ->
  bubble_step (len lo + j) (lo ++ l) =
  let! (l', sw) := bubble_step j l in Ret (lo ++ l', sw).
Proof.
  intros Hj. unfold bubble_step.
  rewrite (getitem_shift lo l j Hj). destruct (getitem l j) as [a|e]; [|reflexivity].
  cbn [bind].
  replace (len lo + j + 1) with (len lo + (j + 1)) by lia.
  rewrite (getitem_shift lo l (j + 1)) by lia.
  destruct (getitem l (j + 1)) as [b|e]; [|reflexivity].
  cbn [bind].
  destruct (song_gt a b) as [[|]|e]; cbn [bind]; try reflexivity.
  rewrite (swap_shift lo l j (j + 1)) by lia.
  destruct (swap l j (j + 1)); reflexivity.
Qed.

Lemma pass_shift (lo : list Song) : forall (js : list Z) (l : list Song) (sw : bool),
  Forall (fun j => 0 <= j) js ->
  for_each (map (fun j => len lo + j) js)
    (fun i '(songs, swapped) =>
       let! (songs, sw) := bubble_step i songs in
       Ret (songs, sw || swapped))
    (lo ++ l, sw)
  = let! (l', sw') :=
      for_each js
        (fun i '(songs, swapped) =>
           let! (songs, sw) := bubble_step i songs in
           Ret (songs, sw || swapped))
        (l, sw) in
    Ret (lo ++ l', sw').
Proof.
  induction js as [|j js IH]; intros l sw Hjs; [reflexivity|].
  apply Forall_cons in Hjs. destruct Hjs as [Hj Hjs].
  cbn [map for_each]. rewrite (bubble_step_shift lo l j Hj).
  destruct (bubble_step j l) as [[l1 s1]|e]; [|reflexivity].
  cbn [bind]. apply IH. exact Hjs.
Qed.

Lemma range_shift (c a b : Z) : range (c + a) (c + b) = map (fun j => c + j) (range a b).
Proof.
  unfold range. rewrite map_map.
  replace (c + b - (c + a)) with (b - a) by lia.
  apply map_ext. intros x. lia.
Qed.

Lemma range_down_shift (c a b : Z) :
  range_down (c + a) (c + b) = map (fun j => c + j) (range_down a b).
Proof.
  unfold range_down. rewrite map_map.
  replace (c + a - (c + b)) with (a - b) by lia.
  apply map_ext. intros x. lia.
Qed.

Lemma range_down_nil (a b : Z) : a <= b -> range_down a b = [].
Proof.
  intros H. unfold range_down. replace (Z.to_nat (a - b)) with 0%nat by lia. reflexivity.
Qed.

Lemma range_down_cons (a b : Z) : b < a -> range_down a b = a :: range_down (a - 1) b.
Proof.
  intros H. unfold range_down.
  replace (Z.to_nat (a - b)) with (S (Z.to_nat (a - 1 - b))) by lia.
  cbn [seq map]. f_equal; [lia|].
  rewrite <- seq_shift, map_map. apply map_ext. intros x. lia.
Qed.

Lemma range_nonneg (a b : Z) : 0 <= a -> Forall (fun j => 0 <= j) (range a b).
Proof.
  intros H. unfold range. rewrite Forall_forall. intros j Hj.
  apply list_elem_of_In, in_map_iff in Hj. destruct Hj as (x & <- & _). lia.
Qed.

Lemma range_down_nonneg (a b : Z) : -1 <= b -> Forall (fun j => 0 <= j) (range_down a b).
Proof.
  intros H. unfold range_down. rewrite Forall_forall. intros j Hj.
  apply list_elem_of_In, in_map_iff in Hj. destruct Hj as (x & <- & Hx).
  apply in_seq in Hx. lia.
Qed.

(** The pass from right to left: the least song of the part passed over is
    carried to its front; when nothing was swapped that part was in order. *)
Lemma backward_pass k : forall init x suf post sw0,
  keyed k (init ++ x :: suf) ->
  Forall (fun b => key_ltb k b x = false) suf ->
  (sw0 = false -> ascending k suf) ->
  exists x' suf' sw,
    for_each (range_down (Z.of_nat (length init) - 1) (-1))
      (fun i '(songs, swapped) =>
         let! (songs, sw) := bubble_step i songs in
         Ret (songs, sw || swapped))
      (init ++ x :: suf ++ post, sw0)
    = Ret (x' :: suf' ++ post, sw) /\
    x' :: suf' ≡ₚ init ++ x :: suf /\
    Forall (fun b => key_ltb k b x' = false) suf' /\
    (sw = false -> ascending k (x' :: suf')).
Proof.
  intros init. induction init as [|w init IH] using rev_ind;
    intros x suf post sw0 Hk Hx Hsw.
  - exists x, suf, sw0. cbn [length app]. rewrite range_down_nil by lia.
    cbn [for_each]. split; [reflexivity|]. split; [reflexivity|].
    split; [exact Hx|]. intros H0. constructor; [exact (Hsw H0)|exact Hx].
  - rewrite length_app. cbn [length].
    rewrite range_down_cons by lia. cbn [for_each].
    pose proof Hk as Hk'. unfold keyed in Hk'.
    rewrite <- app_assoc in Hk'. cbn [app] in Hk'.
    rewrite Forall_app, !Forall_cons in Hk'. destruct Hk' as (Hki & Hkw & Hkx & Hks).
    rewrite <- app_assoc. cbn [app].
    rewrite (bubble_step_at k init w x (suf ++ post) _) by (auto; lia).
    replace (Z.of_nat (length init + 1) - 1 - 1) with (Z.of_nat (length init) - 1) by lia.
    destruct (key_ltb k x w) eqn:E; cbn [bind orb].
    + destruct (IH x (w :: suf) post true) as (x' & suf' & sw & H1 & H2 & H3 & H4).
      { eapply keyed_perm; [|exact Hk]. rewrite <- app_assoc. cbn [app].
        apply Permutation_app_head. apply perm_swap. }
      { constructor; [apply key_ltb_asym; exact E|exact Hx]. }
      { discriminate. }
      exists x', suf', sw. cbn [app] in H1. rewrite H1. split; [reflexivity|].
      split; [|auto]. rewrite H2, <- app_assoc. cbn [app].
      apply Permutation_app_head. apply perm_swap.
    + destruct (IH w (x :: suf) post sw0) as (x' & suf' & sw & H1 & H2 & H3 & H4).
      { rewrite <- app_assoc in Hk. exact Hk. }
      { constructor; [exact E|].
        eapply Forall_impl; [exact Hx|]. intros b Hb. cbv beta in Hb.
        apply (key_ltb_neg_trans k w x b); assumption. }
      { intros H0. constructor; [exact (Hsw H0)|exact Hx]. }
      exists x', suf', sw. cbn [app] in H1. rewrite H1. split; [reflexivity|].
      split; [|auto]. rewrite H2, <- app_assoc. reflexivity.
Qed.

Lemma ascending_three k (lo mid hi : list Song) :
  ascending k lo -> ascending k mid -> ascending k hi ->
  (forall a b, a ∈ lo -> b ∈ mid ++ hi -> key_ltb k b a = false) ->
  (forall a b, a ∈ mid -> b ∈ hi -> key_ltb k b a = false) ->
  ascending k (lo ++ mid ++ hi).
Proof.
  intros Hl Hm Hh H1 H2.
  apply ascending_app; [exact Hl| |].
  - apply ascending_app; [exact Hm|exact Hh|].
    rewrite Forall_forall. intros a Ha. rewrite Forall_forall. intros b Hb.
    exact (H2 a b Ha Hb).
  - rewrite Forall_forall. intros a Ha. rewrite Forall_forall. intros b Hb.
    exact (H1 a b Ha Hb).
Qed.

(** The loop of [cocktail_sort]: [lo] and [hi] are the parts already in
    place at the two ends, [mid] lies between [start] and [end]. *)
Lemma cocktail_loop k : forall fuel lo mid hi sw,
  (length mid < fuel)%nat ->
  keyed k (lo ++ mid ++ hi) ->
  ascending k lo -> ascending k hi ->
  (forall a b, a ∈ lo -> b ∈ mid ++ hi -> key_ltb k b a = false) ->
  (forall a b, a ∈ mid -> b ∈ hi -> key_ltb k b a = false) ->
  (sw = false -> ascending k mid) ->
  exists out sw' st en,
    while fuel
      (fun '(songs, swapped, start, end_) => Ret swapped)
      (fun '(songs, swapped, start, end_) =>
         let! (songs, swapped) :=
           for_each (range start end_)
             (fun i '(songs, swapped) =>
                let! (songs, sw) := bubble_step i songs in
                Ret (songs, sw || swapped))
             (songs, false) in
         if negb swapped then Ret (Break (songs, swapped, start, end_))
         else
           let end_ := end_ - 1 in
           let! (songs, swapped) :=
             for_each (range_down (end_ - 1) (start - 1))
               (fun i '(songs, swapped) =>
                  let! (songs, sw) := bubble_step i songs in
                  Ret (songs, sw || swapped))
               (songs, false) in
           Ret (Next (R := Empty_set) (songs, swapped, start + 1, end_)))
      (lo ++ mid ++ hi, sw, len lo, len lo + len mid - 1)
    = Ret (inl (out, sw', st, en)) /\
    out ≡ₚ lo ++ mid ++ hi /\ ascending k out.
Proof.
  induction fuel as [|fuel IH]; intros lo mid hi sw Hf Hk Hlo Hhi Hlm Hmh Hsw; [lia|].
  cbn [while bind].
  destruct sw.
  2:{ exists (lo ++ mid ++ hi), false, (len lo), (len lo + len mid - 1).
      split; [reflexivity|]. split; [reflexivity|].
      apply ascending_three; auto. }
  destruct mid as [|x rest].
  { rewrite range_nil by (unfold len; cbn [length]; lia). cbn [for_each bind negb].
    exists (lo ++ [] ++ hi), false, (len lo), (len lo + len (@nil Song) - 1).
    split; [reflexivity|]. split; [reflexivity|].
    apply ascending_three; auto. constructor. }
  destruct rest as [|y rest0].
  { rewrite range_nil by (unfold len; cbn [length]; lia). cbn [for_each bind negb].
    exists (lo ++ [x] ++ hi), false, (len lo), (len lo + len [x] - 1).
    split; [reflexivity|]. split; [reflexivity|].
    apply ascending_three; auto. repeat constructor. }
  remember (y :: rest0) as rest eqn:Hrest.
  assert (Hrl : (1 <= length rest)%nat) by (subst rest; cbn [length]; lia).
  clear Hrest y rest0.
  destruct (flagged_pass k (length rest) [] x (rest ++ hi) false)
    as (pre' & x' & sw1 & H1 & H2 & H3 & H4 & H5).
  { rewrite length_app. lia. }
  { unfold keyed in *. rewrite Forall_app in Hk. apply Hk. }
  { constructor. }
  { intros _. constructor. }
  cbn [length app] in H1, H2, H3. change (Z.of_nat 0) with 0 in H1.
  change (0 + length rest)%nat with (length rest) in H1, H2.
  rewrite drop_app_length in H1. rewrite take_app_length in H3.
  assert (Hr : range (len lo) (len lo + len (x :: rest) - 1)
               = map (fun j => len lo + j) (range 0 (Z.of_nat (length rest)))).
  { rewrite <- range_shift. f_equal; unfold len; cbn [length]; lia. }
  rewrite Hr.
  rewrite (pass_shift lo (range 0 (Z.of_nat (length rest))) ((x :: rest) ++ hi) false)
    by (apply range_nonneg; lia).
  cbn [app]. rewrite H1. cbn [bind].
  assert (Hin : forall a, a ∈ pre' ++ [x'] <-> a ∈ x :: rest).
  { intros a. rewrite H3. reflexivity. }
  assert (Hperm1 : lo ++ pre' ++ x' :: hi ≡ₚ lo ++ (x :: rest) ++ hi).
  { apply Permutation_app_head. rewrite <- H3, <- app_assoc. reflexivity. }
  destruct sw1; cbn [negb].
  2:{ exists (lo ++ pre' ++ x' :: hi), false, (len lo),
        (len lo + len (x :: rest) - 1).
      split; [reflexivity|]. split; [exact Hperm1|].
      replace (lo ++ pre' ++ x' :: hi) with (lo ++ (pre' ++ [x']) ++ hi)
        by (rewrite <- app_assoc; reflexivity).
      apply ascending_three; [exact Hlo| |exact Hhi| |].
      - apply ascending_app; [exact (H5 eq_refl)|repeat constructor|].
        eapply Forall_impl; [exact H4|]. intros z Hz. cbv beta in Hz.
        constructor; [exact Hz|constructor].
      - intros a b Ha Hb. apply (Hlm a b Ha).
        rewrite elem_of_app in Hb |- *. rewrite Hin in Hb. exact Hb.
      - intros a b Ha Hb. apply (Hmh a b); [apply Hin, Ha|exact Hb]. }
  destruct (exists_last (l := pre')) as (init & x0 & ->).
  { intros ->. cbn [length] in H2. lia. }
  rewrite length_app in H2. cbn [length] in H2.
  assert (Hkp : keyed k (init ++ [x0] ++ [x'])).
  { eapply keyed_perm; [rewrite app_assoc; symmetry; exact H3|].
    unfold keyed in *. rewrite !Forall_app in Hk. tauto. }
  destruct (backward_pass k init x0 [] (x' :: hi) false)
    as (x2 & suf' & sw2 & B1 & B2 & B3 & B4).
  { unfold keyed in *. rewrite !Forall_app in Hkp. rewrite Forall_app. tauto. }
  { constructor. }
  { intros _. constructor. }
  cbn [app] in B1.
  assert (Hrd : range_down (len lo + len (x :: rest) - 1 - 1 - 1) (len lo - 1)
                = map (fun j => len lo + j)
                    (range_down (Z.of_nat (length init) - 1) (-1))).
  { rewrite <- range_down_shift. f_equal; unfold len; cbn [length]; lia. }
  cbv zeta. rewrite Hrd.
  replace (lo ++ (init ++ [x0]) ++ x' :: hi) with (lo ++ init ++ x0 :: x' :: hi)
    by (rewrite <- app_assoc; reflexivity).
  rewrite (pass_shift lo _ (init ++ x0 :: x' :: hi) false)
    by (apply range_down_nonneg; lia).
  rewrite B1. cbn [bind].
  assert (Hlen : length suf' = length init).
  { apply Permutation_length in B2. rewrite length_app in B2. cbn [length] in B2. lia. }
  assert (Hin2 : forall a, a ∈ x2 :: suf' <-> a ∈ init ++ [x0]).
  { intros a. rewrite B2. reflexivity. }
  assert (Hmid : forall a, a ∈ x :: rest <-> a ∈ x2 :: suf' \/ a = x').
  { intros a. rewrite <- Hin, Hin2, !elem_of_app, !list_elem_of_singleton. reflexivity. }
  assert (Hpx : forall a, a ∈ init ++ [x0] -> key_ltb k x' a = false).
  { rewrite Forall_forall in H4. exact H4. }
  assert (Hperm2 : (lo ++ [x2]) ++ suf' ++ x' :: hi ≡ₚ lo ++ (x :: rest) ++ hi).
  { rewrite <- app_assoc. apply Permutation_app_head.
    change ([x2] ++ suf' ++ x' :: hi) with ((x2 :: suf') ++ [x'] ++ hi).
    rewrite B2, app_assoc, H3. reflexivity. }
  destruct (IH (lo ++ [x2]) suf' (x' :: hi) sw2)
    as (out & sw' & st & en & W1 & W2 & W3).
  { cbn [length] in Hf. lia. }
  { eapply keyed_perm; [symmetry; exact Hperm2|exact Hk]. }
  { apply ascending_app; [exact Hlo|repeat constructor|].
    rewrite Forall_forall. intros a Ha. constructor; [|constructor].
    apply (Hlm a x2 Ha). rewrite elem_of_app. left. apply Hmid. left. left. }
  { constructor; [exact Hhi|]. rewrite Forall_forall. intros b Hb.
    apply (Hmh x' b); [|exact Hb]. apply Hmid. right. reflexivity. }
  { intros a b Ha Hb. rewrite elem_of_app, list_elem_of_singleton in Ha.
    rewrite elem_of_app, elem_of_cons in Hb.
    destruct Ha as [Ha | ->].
    - apply (Hlm a b Ha). rewrite elem_of_app.
      destruct Hb as [Hb | [-> | Hb]]; [left|left|right; exact Hb].
      + apply Hmid. left. right. exact Hb.
      + apply Hmid. right. reflexivity.
    - destruct Hb as [Hb | [-> | Hb]].
      + rewrite Forall_forall in B3. apply B3, Hb.
      + apply Hpx, Hin2. left.
      + apply (Hmh x2 b); [|exact Hb]. apply Hmid. left. left. }
  { intros a b Ha Hb. rewrite elem_of_cons in Hb. destruct Hb as [-> | Hb].
    - apply Hpx, Hin2. right. exact Ha.
    - apply (Hmh a b); [|exact Hb]. apply Hmid. left. right. exact Ha. }
  { intros H0. specialize (B4 H0). unfold ascending in B4.
    apply StronglySorted_inv in B4. apply B4. }
  exists out, sw', st, en.
  replace (len lo + 1) with (len (lo ++ [x2]))
    by (unfold len; rewrite length_app; cbn [length]; lia).
  replace (len lo + len (x :: rest) - 1 - 1) with (len (lo ++ [x2]) + len suf' - 1)
    by (unfold len; rewrite length_app; cbn [length]; lia).
  replace (lo ++ x2 :: suf' ++ x' :: hi) with ((lo ++ [x2]) ++ suf' ++ x' :: hi)
    by (rewrite <- app_assoc; reflexivity).
  split; [exact W1|]. split; [|exact W3].
  rewrite W2. exact Hperm2.
Qed.

(** X27 (MusicApp.cocktail_sort): for a list whose songs are all compared
    by the key [k], the call returns a rearrangement of the list that is in
    order of [k]; the loop ends within as many turns as there are songs. *)
Theorem cocktail_sort_sorts (k : Key) (songs : list Song) :
  keyed k songs ->
  exists out,
    cocktail_sort songs = Ret out /\ out ≡ₚ songs /\ ascending k out.
Proof.
  intros Hk. unfold cocktail_sort.
  destruct (cocktail_loop k (S (length songs)) [] songs [] true)
    as (out & sw' & st & en & H1 & H2 & H3).
  - lia.
  - cbn [app]. rewrite app_nil_r. exact Hk.
  - constructor.
  - constructor.
  - intros a b Ha. apply elem_of_nil in Ha. contradiction.
  - intros a b _ Hb. apply elem_of_nil in Hb. contradiction.
  - discriminate.
  - cbn [app] in H1, H2. rewrite app_nil_r in H1, H2.
    change (len (@nil Song)) with 0 in H1.
    replace (0 + len songs - 1) with (len songs - 1) in H1 by lia.
    cbv zeta. rewrite H1. cbn [bind]. exists out. auto.
Qed.

Lemma cocktail_sort_sorts_witness :
  exists out,
    cocktail_sort [songC; songA; songB] = Ret out /\
    out ≡ₚ [songC; songA; songB] /\ ascending Title out.
Proof.
  apply (cocktail_sort_sorts Title [songC; songA; songB]).
  repeat constructor.
Defined.

(** ** Shell sort *)

Lemma setitem_insert {A} (l : list A) (i : Z) (x : A) :
  0 <= i < len l -> setitem l i x = Ret (<[Z.to_nat i := x]> l).
Proof.
  intros Hi. unfold setitem, norm_index.
  destruct (Z.ltb_spec i 0); [lia|].
  destruct (Z.ltb_spec i 0); [lia|].
  destruct (Z.leb_spec (len l) i); [lia|]. reflexivity.
Qed.

Lemma insert_head_perm {A} (x y : A) : forall (l : list A) (n : nat),
  (n < length l)%nat -> x :: <[n := y]> l ≡ₚ y :: <[n := x]> l.
Proof.
  induction l as [|h l IH]; intros n Hn; [cbn [length] in Hn; lia|].
  destruct n as [|n]; cbn [length] in Hn.
  - cbn. apply perm_swap.
  - cbn. etransitivity; [apply perm_swap|]. etransitivity; [|apply perm_swap].
    constructor. apply IH. lia.
Qed.

(** Moving the song at place [a] up to place [b] and writing [t] at [a]
    gives the same songs as writing [t] at [b]. *)
Lemma insert_move_perm {A} (t y : A) : forall (l : list A) (a b : nat),
  (a < b)%nat -> (b < length l)%nat -> l !! a = Some y ->
  <[a := t]> (<[b := y]> l) ≡ₚ <[b := t]> l.
Proof.
  induction l as [|h l IH]; intros a b Hab Hb Ha; [cbn [length] in Hb; lia|].
  destruct b as [|b]; [lia|]. cbn [length] in Hb.
  destruct a as [|a].
  - cbn in Ha. injection Ha as ->. cbn. apply insert_head_perm. lia.
  - cbn in Ha. cbn. constructor. apply IH; [lia|lia|exact Ha].
Qed.

(** The inner loop for any gap: with [temp] written at the place [j] the
    list holds the songs it held before. *)
Lemma shell_inner k (gap : Z) (temp : Song) (orig : list Song) : forall fuel songs j,
  1 <= gap -> 0 <= j < len songs -> (Z.to_nat j < fuel)%nat ->
  key temp = k -> keyed k songs ->
  <[Z.to_nat j := temp]> songs ≡ₚ orig ->
  exists songs' j',
    while (R := Empty_set) fuel
      (fun '(songs, j) =>
         and_then (j >=? gap)
           (let! sj := getitem songs (j - gap) in song_gt sj temp))
      (fun '(songs, j) =>
         let! sj := getitem songs (j - gap) in
         let! songs := setitem songs j sj in
         Ret (Next (songs, j - gap)))
      (songs, j)
    = Ret (inl (songs', j')) /\
    0 <= j' < len songs' /\ <[Z.to_nat j' := temp]> songs' ≡ₚ orig.
Proof.
  induction fuel as [|fuel IH]; intros songs j Hgap Hj Hf Ht Hk Hperm; [lia|].
  cbn [while].
  destruct (Z.geb_spec j gap) as [Hge|Hlt]; cbn [and_then bind].
  2:{ exists songs, j. auto. }
  destruct (getitem_lookup songs (j - gap)) as (sj & Hg & Hl); [lia|].
  rewrite Hg. cbn [bind].
  assert (Hksj : key sj = k).
  { unfold keyed in Hk. rewrite Forall_forall in Hk. apply Hk.
    eapply list_elem_of_lookup_2. exact Hl. }
  rewrite (song_gt_key k sj temp Hksj Ht). cbn [bind].
  destruct (key_ltb k temp sj).
  2:{ exists songs, j. auto. }
  rewrite (setitem_insert songs j sj Hj). cbn [bind].
  apply IH.
  - exact Hgap.
  - unfold len in *. rewrite length_insert. lia.
  - lia.
  - exact Ht.
  - unfold keyed in *. apply Forall_insert; assumption.
  - rewrite <- Hperm. apply insert_move_perm; [lia|unfold len in Hj; lia|exact Hl].
Qed.

(** One pass for any gap rearranges the list and raises nothing. *)
Lemma shell_pass_perm k (gap n : Z) : forall (idx : list Z) (songs : list Song),
  1 <= gap -> Forall (fun i => gap <= i < n) idx ->
  len songs = n -> keyed k songs ->
  exists out,
    for_each idx
      (fun i songs =>
         let! temp := getitem songs i in
         let j := i in
         let! r :=
           while (S (Z.to_nat i))
             (fun '(songs, j) =>
                and_then (j >=? gap)
                  (let! sj := getitem songs (j - gap) in song_gt sj temp))
             (fun '(songs, j) =>
                let! sj := getitem songs (j - gap) in
                let! songs := setitem songs j sj in
                Ret (Next (R := Empty_set) (songs, j - gap)))
             (songs, j) in
         match r with
         | inr v => match v with end
         | inl (songs, j) => setitem songs j temp
         end)
      songs
    = Ret out /\ out ≡ₚ songs.
Proof.
  induction idx as [|i idx IH]; intros songs Hgap Hidx Hn Hk.
  - exists songs. split; reflexivity.
  - apply Forall_cons in Hidx. destruct Hidx as [Hi Hidx].
    cbn [for_each].
    destruct (getitem_lookup songs i) as (temp & Hg & Hl); [lia|].
    rewrite Hg. cbn [bind]. cbv zeta.
    assert (Hkt : key temp = k).
    { unfold keyed in Hk. rewrite Forall_forall in Hk. apply Hk.
      eapply list_elem_of_lookup_2. exact Hl. }
    destruct (shell_inner k gap temp songs (S (Z.to_nat i)) songs i)
      as (songs' & j' & H1 & H2 & H3); [lia|lia|lia|exact Hkt|exact Hk| |].
    { rewrite list_insert_id by exact Hl. reflexivity. }
    rewrite H1. cbn [bind].
    rewrite (setitem_insert songs' j' temp H2).
    destruct (IH (<[Z.to_nat j' := temp]> songs')) as (out & Ho1 & Ho2).
    + exact Hgap.
    + exact Hidx.
    + rewrite <- Hn. unfold len. f_equal. apply Permutation_length. exact H3.
    + eapply keyed_perm; [symmetry; exact H3|exact Hk].
    + exists out. split; [exact Ho1|]. rewrite Ho2. exact H3.
Qed.

(** The inner loop for the gap 1: the songs of the ascending part still to
    be looked at are [p]; those passed over, [q], have been moved one place
    up and are all above [temp]; between them is the place [j], which holds
    a stale copy [h]. *)
Lemma shell_shift k (temp : Song) (rest : list Song) : forall p q h fuel,
  (length p < fuel)%nat -> key temp = k -> keyed k p -> ascending k p ->
  exists p1 q1 h1,
    while (R := Empty_set) fuel
      (fun '(songs, j) =>
         and_then (j >=? 1)
           (let! sj := getitem songs (j - 1) in song_gt sj temp))
      (fun '(songs, j) =>
         let! sj := getitem songs (j - 1) in
         let! songs := setitem songs j sj in
         Ret (Next (songs, j - 1)))
      (p ++ h :: q ++ rest, Z.of_nat (length p))
    = Ret (inl (p1 ++ h1 :: q1 ++ rest, Z.of_nat (length p1))) /\
    p ++ q = p1 ++ q1 /\
    Forall (fun a => key_ltb k temp a = false) p1 /\
    (Forall (fun a => key_ltb k temp a = true) q ->
     Forall (fun a => key_ltb k temp a = true) q1).
Proof.
  induction p as [|y p' IH] using rev_ind; intros q h fuel Hf Ht Hk Ha;
    (destruct fuel as [|fuel]; [lia|]); cbn [while].
  - cbn [length app]. change (Z.of_nat 0 >=? 1) with false. cbn [and_then bind].
    exists [], q, h. repeat split; auto.
  - rewrite length_app in *. cbn [length] in *.
    destruct (Z.geb_spec (Z.of_nat (length p' + 1)) 1) as [_|]; [|lia].
    cbn [and_then].
    replace (Z.of_nat (length p' + 1) - 1) with (Z.of_nat (length p')) by lia.
    assert (Hy : forall l, getitem ((p' ++ [y]) ++ l) (Z.of_nat (length p')) = Ret y).
    { intros l. rewrite <- app_assoc. cbn [app]. apply getitem_mid. reflexivity. }
    rewrite !(Hy (h :: q ++ rest)). cbn [bind].
    unfold keyed in Hk. rewrite Forall_app, Forall_cons in Hk. destruct Hk as (Hkp & Hky & _).
    destruct (ascending_app_inv _ _ _ Ha) as (Hap & _ & Hpy).
    rewrite (song_gt_key k y temp Hky Ht).
    destruct (key_ltb k temp y) eqn:E; cbn [bind].
    + rewrite (setitem_mid (p' ++ [y]) h y (q ++ rest))
        by (rewrite length_app; cbn [length]; lia).
      cbn [bind].
      destruct (IH (y :: q) y fuel) as (p1 & q1 & h1 & H1 & H2 & H3 & H4);
        [lia|exact Ht|exact Hkp|exact Hap|].
      rewrite <- app_assoc. cbn [app]. cbn [app] in H1. rewrite H1.
      exists p1, q1, h1. split; [reflexivity|]. split; [|split; [exact H3|]].
      * rewrite <- app_assoc. cbn [app]. exact H2.
      * intros Hq. apply H4. constructor; assumption.
    + exists (p' ++ [y]), q, h. rewrite length_app. cbn [length].
      split; [reflexivity|]. split; [reflexivity|]. split; [|auto].
      rewrite Forall_app. split; [|constructor; [exact E|constructor]].
      eapply Forall_impl; [exact Hpy|]. intros a Hay. cbv beta in Hay.
      apply Forall_cons in Hay. destruct Hay as [Hay _].
      apply (key_ltb_neg_trans k a y temp); assumption.
Qed.

(** The pass for the gap 1 puts any list in order. *)
Lemma shell_last_pass k (size : Z) : forall n rest sorted,
  length rest = n -> size = len (sorted ++ rest) ->
  keyed k (sorted ++ rest) -> ascending k sorted ->
  exists out,
    for_each (range (Z.of_nat (length sorted)) size)
      (fun i songs =>
         let! temp := getitem songs i in
         let j := i in
         let! r :=
           while (S (Z.to_nat i))
             (fun '(songs, j) =>
                and_then (j >=? 1)
                  (let! sj := getitem songs (j - 1) in song_gt sj temp))
             (fun '(songs, j) =>
                let! sj := getitem songs (j - 1) in
                let! songs := setitem songs j sj in
                Ret (Next (R := Empty_set) (songs, j - 1)))
             (songs, j) in
         match r with
         | inr v => match v with end
         | inl (songs, j) => setitem songs j temp
         end)
      (sorted ++ rest)
    = Ret out /\ out ≡ₚ sorted ++ rest /\ ascending k out.
Proof.
  induction n as [|n IH]; intros rest sorted Hn Hsize Hk Hs.
  - destruct rest; [|discriminate Hn]. rewrite app_nil_r in *.
    rewrite range_nil by lens. exists sorted. auto.
  - destruct rest as [|x rest']; [discriminate Hn|]. cbn [length] in Hn.
    rewrite range_cons by lens. cbn [for_each].
    rewrite (getitem_mid sorted x rest' _ eq_refl). cbn [bind]. cbv zeta.
    pose proof Hk as Hk'. unfold keyed in Hk'. rewrite Forall_app, Forall_cons in Hk'.
    destruct Hk' as (Hks & Hkx & Hkr).
    destruct (shell_shift k x rest' sorted [] x (S (Z.to_nat (Z.of_nat (length sorted)))))
      as (p1 & q1 & h1 & H1 & H2 & H3 & H4); [lia|exact Hkx|exact Hks|exact Hs|].
    cbn [app] in H1. rewrite H1. cbn [bind].
    rewrite (setitem_mid p1 h1 x (q1 ++ rest') _ eq_refl).
    rewrite app_nil_r in H2.
    assert (Hperm : (p1 ++ x :: q1) ++ rest' ≡ₚ sorted ++ x :: rest').
    { rewrite H2, <- !app_assoc. cbn [app]. rewrite <- !Permutation_middle. reflexivity. }
    destruct (IH rest' (p1 ++ x :: q1)) as (out & Ho1 & Ho2 & Ho3).
    { lia. }
    { rewrite Hsize. unfold len. f_equal. apply Permutation_length. symmetry. exact Hperm. }
    { eapply keyed_perm; [symmetry; exact Hperm|exact Hk]. }
    { apply ascending_insert; [rewrite <- H2; exact Hs|exact H3|apply H4; constructor]. }
    replace (length (p1 ++ x :: q1)) with (length sorted + 1)%nat in Ho1
      by (rewrite H2, !length_app; cbn [length]; lia).
    replace (Z.of_nat (length sorted + 1)) with (Z.of_nat (length sorted) + 1) in Ho1 by lia.
    rewrite <- app_assoc in Ho1. cbn [app] in Ho1.
    exists out. split; [exact Ho1|]. split; [|exact Ho3].
    rewrite Ho2. exact Hperm.
Qed.

Lemma range_bounds (a b : Z) : Forall (fun i => a <= i < b) (range a b).
Proof.
  unfold range. rewrite Forall_forall. intros j Hj.
  apply list_elem_of_In, in_map_iff in Hj. destruct Hj as (x & <- & Hx).
  apply in_seq in Hx. lia.
Qed.

Lemma while_unfold {V R} (fuel : nat) (cond : V -> res bool)
    (body : V -> res (flow V R)) (s : V) :
  while (S fuel) cond body s =
  let! c := cond s in
  if c then
    let! f := body s in
    match f with
    | Next s' => while fuel cond body s'
    | Break s' => Ret (inl s')
    | Return r => Ret (inr r)
    end
  else Ret (inl s).
Proof. reflexivity. Qed.

(** The loop over the gaps: every pass rearranges the list, and the last
    one, for the gap 1, puts it in order. *)
Lemma shell_loop k (n : Z) : forall fuel gap songs,
  0 <= gap < Z.of_nat fuel -> len songs = n -> keyed k songs ->
  (gap = 0 -> ascending k songs) ->
  exists out g',
    while (R := Empty_set) fuel
      (fun '(songs, gap) => Ret (gap >? 0))
      (fun '(songs, gap) =>
         let! songs :=
           for_each (range gap n)
             (fun i songs =>
                let! temp := getitem songs i in
                let j := i in
                let! r :=
                  while (S (Z.to_nat i))
                    (fun '(songs, j) =>
                       and_then (j >=? gap)
                         (let! sj := getitem songs (j - gap) in song_gt sj temp))
                    (fun '(songs, j) =>
                       let! sj := getitem songs (j - gap) in
                       let! songs := setitem songs j sj in
                       Ret (Next (R := Empty_set) (songs, j - gap)))
                    (songs, j) in
                match r with
                | inr v => match v with end
                | inl (songs, j) => setitem songs j temp
                end)
             songs in
         Ret (Next (songs, gap / 2)))
      (songs, gap)
    = Ret (inl (out, g')) /\ out ≡ₚ songs /\ ascending k out.
Proof.
  induction fuel as [|fuel IH]; intros gap songs Hgap Hn Hk H0; [lia|].
  rewrite while_unfold. cbn [bind].
  destruct (Z.gtb_spec gap 0) as [Hpos|Hz].
  2:{ exists songs, gap. split; [reflexivity|]. split; [reflexivity|].
      apply H0. lia. }
  assert (Hhalf : 0 <= gap / 2 < Z.of_nat fuel).
  { split; [apply Z.div_pos; lia|].
    apply Z.div_lt_upper_bound; lia. }
  destruct (Z.eq_dec gap 1) as [->|Hne].
  - destruct songs as [|s0 rest].
    + rewrite range_nil by (unfold len in Hn; cbn [length] in Hn; lia).
      cbn [for_each bind]. apply IH; [exact Hhalf|exact Hn|exact Hk|].
      intros _. constructor.
    + destruct (shell_last_pass k n (length rest) rest [s0]) as (out1 & P1 & P2 & P3).
      * reflexivity.
      * symmetry. exact Hn.
      * exact Hk.
      * repeat constructor.
      * cbn [length app] in P1, P2. change (Z.of_nat 1) with 1 in P1.
        cbv zeta in P1 |- *. rewrite P1. cbn [bind].
        destruct (IH (1 / 2) out1) as (out & g' & W1 & W2 & W3).
        -- exact Hhalf.
        -- rewrite <- Hn. unfold len. f_equal. apply Permutation_length. exact P2.
        -- eapply keyed_perm; [symmetry; exact P2|exact Hk].
        -- intros _. exact P3.
        -- exists out, g'. split; [exact W1|]. split; [|exact W3].
           rewrite W2. exact P2.
  - destruct (shell_pass_perm k gap n (range gap n) songs) as (out1 & P1 & P2).
    + lia.
    + apply range_bounds.
    + exact Hn.
    + exact Hk.
    + cbv zeta in P1 |- *. rewrite P1. cbn [bind].
      destruct (IH (gap / 2) out1) as (out & g' & W1 & W2 & W3).
      * exact Hhalf.
      * rewrite <- Hn. unfold len. f_equal. apply Permutation_length. exact P2.
      * eapply keyed_perm; [symmetry; exact P2|exact Hk].
      * intros Hg. exfalso.
        assert (1 <= gap / 2) by (apply Z.div_le_lower_bound; lia). lia.
      * exists out, g'. split; [exact W1|]. split; [|exact W3].
        rewrite W2. exact P2.
Qed.

(** X28 (MusicApp.shell_sort): for a list whose songs are all compared by
    the key [k], the call returns a rearrangement of the list that is in
    order of [k]; no index it uses is outside the list. *)
Theorem shell_sort_sorts (k : Key) (songs : list Song) :
  keyed k songs ->
  exists out,
    shell_sort songs = Ret out /\ out ≡ₚ songs /\ ascending k out.
Proof.
  intros Hk. unfold shell_sort.
  destruct (shell_loop k (len songs) (S (length songs)) (len songs / 2) songs)
    as (out & g' & H1 & H2 & H3).
  - split; [apply Z.div_pos; unfold len; lia|].
    apply Z.div_lt_upper_bound; unfold len; lia.
  - reflexivity.
  - exact Hk.
  - intros Hg. destruct songs as [|a [|b rest]]; [constructor|repeat constructor|].
    exfalso. assert (1 <= len (a :: b :: rest) / 2).
    { apply Z.div_le_lower_bound; unfold len; cbn [length]; lia. }
    lia.
  - cbv zeta in H1 |- *. rewrite H1. cbn [bind]. exists out. auto.
Qed.

Lemma shell_sort_sorts_witness :
  exists out,
    shell_sort [songC; songA; songB] = Ret out /\
    out ≡ₚ [songC; songA; songB] /\ ascending Title out.
Proof.
  apply (shell_sort_sorts Title [songC; songA; songB]).
  repeat constructor.
Defined.

(** ** Rotations of the red-black tree *)

(** X29 (RedBlackTree.left_rotate, right_rotate): in a tree of objects
    that is well formed, [left_rotate] at a node [x] whose right child is a
    node [y] returns normally and puts [y] in the place of [x], with [x] as
    its left child and the former left subtree of [y] as the right subtree
    of [x]; the rest of the tree and the left-to-right reading of the songs
    stay as they were. [right_rotate] at [y] then gives back the tree the
    rotation started from. *)
Theorem rbt_rotations_inverse st ctx cx x sx a cy y sy b c pnil :
  RedBlackRep.Inv st
    (RedBlackModel.plug ctx
       (RedBlackModel.Tr cx x sx a (RedBlackModel.Tr cy y sy b c))) pnil ->
  exists st1 st2,
    RedBlackTree.left_rotate (Some x) st = (Ret tt, st1) /\
    RedBlackRep.Inv st1
      (RedBlackModel.plug ctx
         (RedBlackModel.Tr cy y sy (RedBlackModel.Tr cx x sx a b) c)) pnil /\
    RedBlackModel.inorder
      (RedBlackModel.plug ctx
         (RedBlackModel.Tr cy y sy (RedBlackModel.Tr cx x sx a b) c))
    = RedBlackModel.inorder
        (RedBlackModel.plug ctx
           (RedBlackModel.Tr cx x sx a (RedBlackModel.Tr cy y sy b c))) /\
    RedBlackTree.right_rotate (Some y) st1 = (Ret tt, st2) /\
    RedBlackRep.Inv st2
      (RedBlackModel.plug ctx
         (RedBlackModel.Tr cx x sx a (RedBlackModel.Tr cy y sy b c))) pnil.
Proof.
  intros HI.
  destruct (RedBlackSim.left_rotate_spec st ctx cx x sx a cy y sy b c pnil HI)
    as (st1 & E1 & I1 & _).
  destruct (RedBlackSim.right_rotate_spec st1 ctx cy y sy a cx x sx b c pnil I1)
    as (st2 & E2 & I2 & _).
  exists st1, st2. split; [exact E1|]. split; [exact I1|]. split; [|auto].
  apply RedBlackFacts.inorder_plug_congr. cbn [RedBlackModel.inorder].
  rewrite <- !app_assoc. reflexivity.
Qed.

Lemma rbt_rotations_inverse_witness :
  exists st1 st2,
    RedBlackTree.left_rotate (Some 1%nat)
      (RedBlackRep.insert_all [songA; songB] RedBlackTree.init) = (Ret tt, st1) /\
    RedBlackRep.Inv st1
      (RedBlackModel.plug []
         (RedBlackModel.Tr RedBlackTree.RED 2%nat songB
            (RedBlackModel.Tr RedBlackTree.BLACK 1%nat songA
               RedBlackModel.Leaf RedBlackModel.Leaf)
            RedBlackModel.Leaf)) None /\
    RedBlackModel.inorder
      (RedBlackModel.plug []
         (RedBlackModel.Tr RedBlackTree.RED 2%nat songB
            (RedBlackModel.Tr RedBlackTree.BLACK 1%nat songA
               RedBlackModel.Leaf RedBlackModel.Leaf)
            RedBlackModel.Leaf))
    = RedBlackModel.inorder
        (RedBlackModel.plug []
           (RedBlackModel.Tr RedBlackTree.BLACK 1%nat songA RedBlackModel.Leaf
              (RedBlackModel.Tr RedBlackTree.RED 2%nat songB
                 RedBlackModel.Leaf RedBlackModel.Leaf))) /\
    RedBlackTree.right_rotate (Some 2%nat) st1 = (Ret tt, st2) /\
    RedBlackRep.Inv st2
      (RedBlackModel.plug []
         (RedBlackModel.Tr RedBlackTree.BLACK 1%nat songA RedBlackModel.Leaf
            (RedBlackModel.Tr RedBlackTree.RED 2%nat songB
               RedBlackModel.Leaf RedBlackModel.Leaf))) None.
Proof.
  apply (rbt_rotations_inverse
           (RedBlackRep.insert_all [songA; songB] RedBlackTree.init) []
           RedBlackTree.BLACK 1%nat songA RedBlackModel.Leaf
           RedBlackTree.RED 2%nat songB RedBlackModel.Leaf RedBlackModel.Leaf None).
  exact Inv_two_songs.
Defined.

(** ** Walking the binary search tree *)

Definition ordered (k : Key) (t : BinarySearchTree.TreeNode) : Prop :=
  keyed k (BinarySearchTree.inorder t) /\ ascending k (BinarySearchTree.inorder t).

Lemma ordered_children k y l r :
  ordered k (BinarySearchTree.Node y l r) -> ordered k l /\ ordered k r.
Proof.
  unfold ordered. cbn [BinarySearchTree.inorder]. intros [Hk Ha].
  unfold keyed in *. rewrite Forall_app, Forall_cons in Hk. destruct Hk as (Hkl & _ & Hkr).
  destruct (ascending_app_inv _ _ _ Ha) as (Hal & Har & _).
  apply StronglySorted_inv in Har. destruct Har as [Har _]. auto.
Qed.

Lemma found_none k s t :
  ordered k t -> key s = k ->
  Forall (fun x => song_eq x s = false) (BinarySearchTree.inorder t) ->
  found s t = None.
Proof.
  intros [Hk Ha] Hs Hno.
  destruct (found_ordered k s t Hk Hs Ha) as [[H _]|(y & l & r & H & Hy & Hin)].
  - exact H.
  - rewrite Forall_forall in Hno. rewrite (Hno y) in Hy; [discriminate|].
    apply list_elem_of_In. exact Hin.
Qed.

(** Below a node that is not the one looked for, the search goes on in one
    child and the other child holds no match. *)
Lemma found_children k s y l r :
  ordered k (BinarySearchTree.Node y l r) -> key s = k -> song_eq y s = false ->
  omap (found s) [l; r] = omap (found s) [BinarySearchTree.Node y l r].
Proof.
  intros Ho Hs Ey. destruct (ordered_children k y l r Ho) as [Hl Hr].
  destruct Ho as [Hk Ha]. cbn [BinarySearchTree.inorder] in Hk, Ha.
  pose proof Hk as Hk'. unfold keyed in Hk'. rewrite Forall_app, Forall_cons in Hk'.
  destruct Hk' as (Hkl & Hy & Hkr).
  destruct (ascending_app_inv _ _ _ Ha) as (Hal & Har & Hlr).
  apply StronglySorted_inv in Har. destruct Har as [Har Hyr].
  assert (Hnode : found s (BinarySearchTree.Node y l r)
                  = if key_ltb k s y then found s l else found s r).
  { cbn [found]. rewrite Ey, (song_lt_key k s y Hs Hy).
    destruct (key_ltb k s y); reflexivity. }
  cbn [omap list_omap]. rewrite Hnode.
  destruct (key_ltb k s y) eqn:E.
  - rewrite (found_none k s r Hr Hs).
    + destruct (found s l); reflexivity.
    + pose proof (no_match_right k s y (BinarySearchTree.inorder r) Hs Hy Hkr Hyr E) as H.
      apply Forall_cons in H. apply H.
  - assert (G : key_ltb k y s = true).
    { exact (key_gt_of_not_lt_ne k s y Hs Hy E Ey). }
    rewrite (found_none k s l Hl Hs).
    + destruct (found s r); reflexivity.
    + apply (no_match_left k s y (BinarySearchTree.inorder l) Hs Hy Hkl); [|exact G].
      eapply Forall_impl; [exact Hlr|]. intros a H. cbv beta in H.
      apply Forall_cons in H. apply H.
Qed.

Lemma found_here s y l r :
  song_eq y s = true ->
  found s (BinarySearchTree.Node y l r) = Some (BinarySearchTree.Node y l r).
Proof.
  intros E. cbn [found]. rewrite E. reflexivity.
Qed.

Lemma omap_found_skip s (t : BinarySearchTree.TreeNode) (q : list BinarySearchTree.TreeNode) :
  omap (found s) (if BinarySearchTree.is_nil t then q else q ++ [t])
  = omap (found s) q ++ omap (found s) [t].
Proof.
  destruct t; cbn [BinarySearchTree.is_nil].
  - cbn. rewrite app_nil_r. reflexivity.
  - apply omap_app.
Qed.

Lemma stack_turns_app q1 q2 : stack_turns (q1 ++ q2) = (stack_turns q1 + stack_turns q2)%nat.
Proof. induction q1 as [|t q1 IH]; cbn [app stack_turns]; [reflexivity|]. rewrite IH. lia. Qed.

(** [bfs]: at most one tree of the queue holds a match, and the loop
    returns what [search] finds in it. *)
Lemma bfs_loop_found k s : forall fuel queue,
  key s = k -> (stack_turns queue < fuel)%nat ->
  Forall (ordered k) queue ->
  Forall (fun t => BinarySearchTree.is_nil t = false) queue ->
  (length (omap (found s) queue) <= 1)%nat ->
  TreeWalks.bfs_loop fuel queue s = Ret (head (omap (found s) queue)).
Proof.
  induction fuel as [|fuel IH]; intros queue Hs Hf Ho Hn H1; [lia|].
  destruct queue as [|[|y l r] rest]; [reflexivity| |].
  { apply Forall_cons in Hn. destruct Hn as [Hn _]. discriminate Hn. }
  apply Forall_cons in Ho. destruct Ho as [Hoy Ho].
  apply Forall_cons in Hn. destruct Hn as [_ Hn].
  destruct (ordered_children k y l r Hoy) as [Hol Hor].
  cbn [TreeWalks.bfs_loop].
  destruct (song_eq y s) eqn:Ey.
  { change (BinarySearchTree.Node y l r :: rest)
      with ([BinarySearchTree.Node y l r] ++ rest).
    rewrite omap_app. cbn [omap list_omap]. rewrite (found_here s y l r Ey). reflexivity. }
  assert (Hq : omap (found s)
                 (if BinarySearchTree.is_nil r
                  then (if BinarySearchTree.is_nil l then rest else rest ++ [l])
                  else (if BinarySearchTree.is_nil l then rest else rest ++ [l]) ++ [r])
               = omap (found s) rest ++ omap (found s) [BinarySearchTree.Node y l r]).
  { rewrite !omap_found_skip, <- app_assoc. f_equal.
    rewrite <- (found_children k s y l r Hoy Hs Ey).
    change [l; r] with ([l] ++ [r]). rewrite omap_app. reflexivity. }
  assert (Hlen : length (omap (found s) (BinarySearchTree.Node y l r :: rest))
                 = length (omap (found s) rest
                           ++ omap (found s) [BinarySearchTree.Node y l r])).
  { change (BinarySearchTree.Node y l r :: rest)
      with ([BinarySearchTree.Node y l r] ++ rest).
    rewrite omap_app, !length_app. lia. }
  cbv zeta. rewrite IH.
  - rewrite Hq. f_equal.
    change (BinarySearchTree.Node y l r :: rest)
      with ([BinarySearchTree.Node y l r] ++ rest) in H1 |- *.
    rewrite omap_app in H1 |- *. rewrite length_app in H1.
    destruct (omap (found s) [BinarySearchTree.Node y l r]) as [|a [|b u]],
             (omap (found s) rest) as [|c [|d v]];
      cbn [length] in H1; try lia; reflexivity.
  - exact Hs.
  - cbn [stack_turns turns BinarySearchTree.size] in Hf.
    destruct l, r; cbn [BinarySearchTree.is_nil];
      rewrite ?stack_turns_app; cbn [stack_turns turns BinarySearchTree.size] in *; lia.
  - destruct l, r; cbn [BinarySearchTree.is_nil];
      rewrite ?Forall_app, ?Forall_cons; auto 10.
  - destruct l, r; cbn [BinarySearchTree.is_nil];
      rewrite ?Forall_app, ?Forall_cons; auto 10.
  - rewrite Hq, <- Hlen. exact H1.
Qed.

(** [dfs]: the first match among the nodes the iterator yields is what
    [search] finds in the first tree of the stack that holds a match. *)
Lemma dfs_scan_found k (title : string) : forall fuel stack,
  k = Title -> (stack_turns stack <= fuel)%nat ->
  Forall (ordered k) stack ->
  TreeWalks.dfs_scan (BinarySearchTree.dfs_loop fuel stack) title
  = head (omap (found (probe title)) stack).
Proof.
  induction fuel as [|fuel IH]; intros stack Hk Hf Ho.
  { destruct stack as [|[|y l r] stack]; [reflexivity|simpl in Hf; lia..]. }
  destruct stack as [|[|y l r] rest]; [reflexivity| |].
  - apply Forall_cons in Ho. destruct Ho as [_ Ho].
    cbn [BinarySearchTree.dfs_loop stack_turns turns] in *.
    rewrite IH by (auto; lia). reflexivity.
  - apply Forall_cons in Ho. destruct Ho as [Hoy Ho].
    destruct (ordered_children k y l r Hoy) as [Hol Hor].
    cbn [BinarySearchTree.dfs_loop TreeWalks.dfs_scan].
    change (BinarySearchTree.Node y l r :: rest)
      with ([BinarySearchTree.Node y l r] ++ rest).
    rewrite omap_app.
    destruct (song_eq y (probe title)) eqn:Ey.
    { cbn [omap list_omap]. rewrite (found_here _ y l r Ey). reflexivity. }
    rewrite <- (found_children k (probe title) y l r Hoy (eq_sym Hk) Ey).
    cbn [stack_turns turns BinarySearchTree.size] in Hf.
    rewrite IH.
    + rewrite <- omap_app. destruct l, r; cbn [BinarySearchTree.is_nil]; reflexivity.
    + exact Hk.
    + destruct l, r; cbn [BinarySearchTree.is_nil stack_turns turns BinarySearchTree.size] in *;
        lia.
    + destruct l, r; cbn [BinarySearchTree.is_nil]; rewrite ?Forall_cons; auto 10.
Qed.

(** X30 (MusicApp.bfs, MusicApp.dfs, BinarySearchTree.search): on a binary
    search tree whose songs are compared by title and read in ascending
    order from left to right, the breadth-first and the depth-first walk,
    which are loops, return the node that the recursive [search] returns
    for the title, or [None] as it does, when the recursion of [search]
    may go as deep as the tree is high, with two frames to spare for the
    call of [search] itself and for the comparison at the bottom. *)
Theorem bfs_dfs_agree_with_search (title : string) (depth : nat)
    (t : BinarySearchTree.TreeNode) :
  keyed Title (BinarySearchTree.inorder t) ->
  ascending Title (BinarySearchTree.inorder t) ->
  (BinarySearchTree.height t + 2 <= depth)%nat ->
  TreeWalks.bfs title t = BinarySearchTree.search depth t (probe title) /\
  Ret (TreeWalks.dfs title t) = BinarySearchTree.search depth t (probe title).
Proof.
  intros Hk Ha Hd.
  assert (Ho : ordered Title t) by (split; assumption).
  rewrite (search_found Title (probe title) depth t) by (auto; lia).
  split.
  - unfold TreeWalks.bfs. cbv zeta. destruct t as [|y l r]; [reflexivity|].
    cbn [BinarySearchTree.is_nil].
    rewrite (bfs_loop_found Title (probe title)).
    + cbn [omap list_omap]. destruct (found (probe title) (BinarySearchTree.Node y l r));
        reflexivity.
    + reflexivity.
    + cbn [stack_turns turns]. lia.
    + constructor; [exact Ho|constructor].
    + constructor; [reflexivity|constructor].
    + cbn [omap list_omap]. destruct (found (probe title) (BinarySearchTree.Node y l r));
        cbn [length]; lia.
  - unfold TreeWalks.dfs, BinarySearchTree.node_depth_first_iter. f_equal.
    rewrite (dfs_scan_found Title title).
    + cbn [omap list_omap]. destruct (found (probe title) t); reflexivity.
    + reflexivity.
    + cbn [stack_turns]. destruct t; cbn [turns BinarySearchTree.size]; lia.
    + constructor; [exact Ho|constructor].
Qed.

Lemma bfs_dfs_agree_with_search_witness :
  let t := BinarySearchTree.Node songB
             (BinarySearchTree.Node songA BinarySearchTree.Nil BinarySearchTree.Nil)
             (BinarySearchTree.Node songD
                (BinarySearchTree.Node songC BinarySearchTree.Nil BinarySearchTree.Nil)
                BinarySearchTree.Nil) in
  TreeWalks.bfs "C" t = BinarySearchTree.search 5 t (probe "C") /\
  Ret (TreeWalks.dfs "C" t) = BinarySearchTree.search 5 t (probe "C").
Proof.
  intros t. apply (bfs_dfs_agree_with_search "C" 5 t).
  - repeat constructor.
  - repeat constructor.
  - cbn. lia.
Defined.
